(** * The regex symbol compiler of DB: parser, symbol table, NFA builder, matcher

    A shallow embedding of [src/regex.c], [src/regex.h] and [src/regex_nfa.c],
    of the message queues of the logger and of [src/main.c].

    Conventions of the embedding:
    - a [char] is an [ascii]; where the C code converts it to [int]
      ([node->data.range.start = c]) the conversion is [int_of_char],
      the value of a signed 8-bit [char];
    - a pointer to a node is the node itself ([regex_node] is a tree, the
      [parent] back link is the position in the tree); a pointer to a symbol
      is its index in the symbol table, which only ever grows at its tail;
    - [NULL] is [None];
    - a function that returns [0] or [-1] returns that [Z];
    - [assert] failures abort the run ([Aborted]), and so does an access
      that C leaves undefined: through [NULL], through an uninitialised
      index, into an array that [realloc] has released;
    - [malloc]/[realloc] succeed as long as the allocation budget [avail]
      of the state is not exhausted;
    - unbounded [while(true)] loops and the mutually recursive descent take
      a [fuel] argument; [OutOfFuel] is never a result of the C program. *)

From Stdlib Require Import ZArith Ascii String Lia.
From stdpp Require Import base list.

Open Scope char_scope.

(** ** Characters *)

Definition REGEX_PARSER_COMMENT : ascii := "#".
Definition REGEX_PARSER_LEXEME : ascii := "@".
Definition REGEX_PARSER_BRANCH_SEPARATOR : ascii := "|".
Definition REGEX_PARSER_GROUP_START : ascii := "(".
Definition REGEX_PARSER_GROUP_END : ascii := ")".
Definition REGEX_PARSER_STATEMENT_END : ascii := ";".
Definition REGEX_PARSER_LITERAL : ascii := "034".
Definition REGEX_PARSER_ESCAPE : ascii := "\".
Definition REGEX_PARSER_LOOP : ascii := "*".
Definition REGEX_PARSER_REFERENCE_PREFIX : ascii := "$".
Definition REGEX_PARSER_RANGE_START : ascii := "[".
Definition REGEX_PARSER_RANGE_SEPARATOR : ascii := "-".
Definition REGEX_PARSER_RANGE_END : ascii := "]".

Definition MAX_REGEX_SYMBOL_NAME_LENGTH : nat := 128.

Definition NUL : ascii := "000".
Definition newline : ascii := "010".
Definition tab : ascii := "009".

Definition char_eqb (a b : ascii) : bool := Ascii.eqb a b.

(** The value of a [char] as an [int] (signed 8-bit [char]). *)
Definition int_of_char (c : ascii) : Z :=
  let n := Z.of_nat (nat_of_ascii c) in
  if (n <? 128)%Z then n else (n - 256)%Z.

(** Storing an [int] into a [char] field keeps the low 8 bits, read back
    as a signed value. *)
Definition char_of_int (z : Z) : Z :=
  let m := (z mod 256)%Z in
  if (m <? 128)%Z then m else (m - 256)%Z.

Definition is_whitespace (c : ascii) : bool :=
  char_eqb c " " || char_eqb c tab || char_eqb c newline.

Definition is_newline (c : ascii) : bool := char_eqb c newline.

Definition isalpha (c : ascii) : bool :=
  let n := nat_of_ascii c in
  (Nat.leb 65 n && Nat.leb n 90) || (Nat.leb 97 n && Nat.leb n 122).

Definition isdigit (c : ascii) : bool :=
  let n := nat_of_ascii c in
  Nat.leb 48 n && Nat.leb n 57.

Definition is_identifier (c : ascii) : bool :=
  isalpha c || isdigit c || char_eqb c "_".

Definition is_literal (c : ascii) : bool := char_eqb c REGEX_PARSER_LITERAL.

(** ** Expression trees ([struct regex_node]) *)

Inductive regex_type : Type :=
| REGEX_TYPE_SEQUENCE
| REGEX_TYPE_BRANCH
| REGEX_TYPE_RANGE
| REGEX_TYPE_LOOP
| REGEX_TYPE_REFERENCE.

(** [type] together with the member of [union regex_data] it selects.
    A [Reference] holds the pointer to a symbol table entry: its index. *)
Inductive regex_node : Type :=
| Sequence (left right : regex_node)
| Branch (left right : regex_node)
| Range (start end_ : Z)
| Loop (body : regex_node)
| Reference (symbol : nat).

Definition node_type (n : regex_node) : regex_type :=
  match n with
  | Sequence _ _ => REGEX_TYPE_SEQUENCE
  | Branch _ _ => REGEX_TYPE_BRANCH
  | Range _ _ => REGEX_TYPE_RANGE
  | Loop _ => REGEX_TYPE_LOOP
  | Reference _ => REGEX_TYPE_REFERENCE
  end.

(** ** Symbols ([struct regex_symbol], [struct regex_symbols]) *)

(** [name] is the content of the [char name[128]] array up to its
    terminating NUL; [prev]/[next] are the position in the list. *)
Record regex_symbol : Type := mk_symbol {
  name : list ascii;
  lexeme : bool;
  expression : option regex_node
}.

(** The doubly linked list from [head] to [tail]. *)
Definition regex_symbols : Type := list regex_symbol.

(** ** The parser state ([struct regex_parser]) *)

(** [len] is the length of [buf] ([read_regex_file]); the [symbols] field
    of the C struct stays [NULL] and is left out. *)
Record regex_parser : Type := mk_parser {
  buf : list ascii;
  pos : nat;
  error : option string;
  line : Z;
  col : Z
}.

Definition len (p : regex_parser) : nat := length (buf p).

(** What the functions of the parser read and change: the parser, the
    symbol table, and the number of allocations that will still succeed. *)
Record world : Type := mk_world {
  parser : regex_parser;
  symbols : regex_symbols;
  avail : nat
}.

Inductive abort : Type :=
| AssertPosNotLen   (* assert(parser->pos != parser->len) fails *)
| ReadPastBuffer    (* buf[pos] with pos beyond len *)
| NullDereference   (* an access through a NULL pointer *)
| AssertExpression  (* assert(symbol->expression != NULL) fails *)
| IndeterminateIndex (* states[i] with i an uninitialised variable *)
| StalePointer.     (* a store into a block that realloc has released *)

Inductive outcome (A : Type) : Type :=
| Done (a : A) (w : world)
| Aborted (why : abort)
| OutOfFuel.
Arguments Done {A} a w.
Arguments Aborted {A} why.
Arguments OutOfFuel {A}.

Definition M (A : Type) : Type := world -> outcome A.

Definition ret {A} (a : A) : M A := fun w => Done a w.

Definition bind {A B} (m : M A) (k : A -> M B) : M B :=
  fun w => match m w with
           | Done a w' => k a w'
           | Aborted why => Aborted why
           | OutOfFuel => OutOfFuel
           end.

Declare Scope parser_scope.
Delimit Scope parser_scope with parser.
Notation "x <- m ;; k" := (bind m (fun x => k))
  (at level 90, m at level 80, right associativity) : parser_scope.
Notation "m ;;; k" := (bind m (fun _ => k))
  (at level 90, right associativity) : parser_scope.
Open Scope parser_scope.

Definition get_parser : M regex_parser := fun w => Done (parser w) w.
Definition get_symbols : M regex_symbols := fun w => Done (symbols w) w.

Definition set_parser (p : regex_parser) : M unit :=
  fun w => Done tt (mk_world p (symbols w) (avail w)).

Definition set_symbols (s : regex_symbols) : M unit :=
  fun w => Done tt (mk_world (parser w) s (avail w)).

Definition abort_with {A} (why : abort) : M A := fun _ => Aborted why.

(** [malloc]: succeeds, using one unit of the budget, or returns NULL. *)
Definition malloc : M bool :=
  fun w => match avail w with
           | O => Done false w
           | S n => Done true (mk_world (parser w) (symbols w) n)
           end.

(** ** Parser primitives *)

Definition parser_ok (p : regex_parser) : bool :=
  match error p with None => true | Some _ => false end.

Definition parser_error (msg : string) : M unit :=
  fun w => let p := parser w in
           Done tt (mk_world (mk_parser (buf p) (pos p) (Some msg) (line p) (col p))
                             (symbols w) (avail w)).

Definition parser_has_more : M bool :=
  fun w => Done (negb (Nat.eqb (pos (parser w)) (len (parser w)))) w.

Definition parser_peek : M ascii :=
  fun w => let p := parser w in
           if Nat.eqb (pos p) (len p) then Aborted AssertPosNotLen
           else match buf p !! pos p with
                | Some c => Done c w
                | None => Aborted ReadPastBuffer
                end.

Definition parser_skip : M unit :=
  fun w => let p := parser w in
           if Nat.eqb (pos p) (len p) then Aborted AssertPosNotLen
           else match buf p !! pos p with
                | Some c =>
                    let p' := if is_newline c
                              then mk_parser (buf p) (S (pos p)) (error p) (line p + 1)%Z 1%Z
                              else mk_parser (buf p) (S (pos p)) (error p) (line p) (col p + 1)%Z in
                    Done tt (mk_world p' (symbols w) (avail w))
                | None => Aborted ReadPastBuffer
                end.

(** [while(parser_has_more) { if(!pred(peek)) break; skip; }].  Every
    iteration advances [pos], so [len - pos] iterations are enough. *)
Fixpoint skip_while_loop (n : nat) (pred : ascii -> bool) : M unit :=
  match n with
  | O => ret tt
  | S n' =>
      more <- parser_has_more ;;
      if more then
        c <- parser_peek ;;
        if negb (pred c) then ret tt
        else parser_skip ;;; skip_while_loop n' pred
      else ret tt
  end.

Definition parser_skip_while (pred : ascii -> bool) : M unit :=
  fun w => skip_while_loop (len (parser w) - pos (parser w)) pred w.

Definition parser_skip_until (pred : ascii -> bool) : M unit :=
  parser_skip_while (fun c => negb (pred c)).

Definition parser_skip_whitespace : M unit := parser_skip_while is_whitespace.

Definition parser_skip_comment : M unit :=
  parser_skip ;;;
  parser_skip_until is_newline ;;;
  more <- parser_has_more ;;
  if more then parser_skip else ret tt.

Definition parser_pos : M nat := fun w => Done (pos (parser w)) w.

(** [parser_at(parser, pos)] with the length the caller pairs it with:
    the [n] bytes of the buffer from [start].  [parse_symbol] and
    [parse_regex_reference] pass a name that ends at the position, so inside
    the buffer; of a name that runs over the end of the buffer this gives
    the bytes up to the end only. *)
Definition parser_at (p : regex_parser) (start n : nat) : list ascii :=
  take n (drop start (buf p)).

(** The C string a [char] array holds: its bytes up to the first NUL. *)
Fixpoint c_string (l : list ascii) : list ascii :=
  match l with
  | [] => []
  | c :: l' => if char_eqb c NUL then [] else c :: c_string l'
  end.

(** [memcpy(dest, buf + pos, len); dest[len] = 0]: the name the array
    then holds. *)
Definition parser_copy_string (p : regex_parser) (start n : nat) : list ascii :=
  c_string (parser_at p start n).

(** ** Building a tree ([struct regex_tree], [add_to_regex_tree]) *)

(** The tree under construction.  [root] reaches [leaf] through the chain of
    sequence or branch nodes that [add_to_regex_tree] created, each holding
    an earlier element as its left child: [spine] lists these nodes from the
    root down, as their type and left child; [leaf] is the right child of
    the last one (or the root when the spine is empty). *)
Record regex_tree : Type := mk_tree {
  spine : list (regex_type * regex_node);
  leaf : option regex_node
}.

Definition empty_tree : regex_tree := mk_tree [] None.

Definition join (ty : regex_type) (l r : regex_node) : regex_node :=
  match ty with
  | REGEX_TYPE_BRANCH => Branch l r
  | _ => Sequence l r
  end.

(** [tree.root] *)
Definition root (t : regex_tree) : option regex_node :=
  match leaf t with
  | None => None
  | Some l => Some (fold_right (fun x acc => join (fst x) (snd x) acc) l (spine t))
  end.

(** [create_regex_node]: the allocation; the caller fills in the data. *)
Definition create_regex_node : M bool := malloc.

(** Returns the updated tree for [0] and [None] for [-1]. *)
Definition add_to_regex_tree (t : regex_tree) (ty : regex_type) (node : regex_node)
  : M (option regex_tree) :=
  match leaf t with
  | None => ret (Some (mk_tree [] (Some node)))
  | Some l =>
      ok <- create_regex_node ;;
      if ok then ret (Some (mk_tree (spine t ++ [(ty, l)]) (Some node)))
      else ret None
  end.

(** ** The symbol table *)

(** [left] is the NUL-terminated name of a table entry, [right] the [len]
    bytes of the reference. *)
Fixpoint regex_symbol_name_eq (left right : list ascii) : bool :=
  match left, right with
  | [], [] => true
  | c :: left', r :: right' =>
      if char_eqb c r then regex_symbol_name_eq left' right' else false
  | _, _ => false
  end.

(** The search loop of [get_or_create_regex_symbol], from the entry at
    index [i] on. *)
Fixpoint find_regex_symbol (syms : list regex_symbol) (nm : list ascii) (i : nat)
  : option nat :=
  match syms with
  | [] => None
  | s :: rest =>
      if regex_symbol_name_eq (name s) nm then Some i
      else find_regex_symbol rest nm (S i)
  end.

Definition get_or_create_regex_symbol (name_start name_len : nat) : M (option nat) :=
  if Nat.ltb MAX_REGEX_SYMBOL_NAME_LENGTH (name_len + 1) then
    parser_error "reference name too long" ;;;
    ret None
  else
    p <- get_parser ;;
    syms <- get_symbols ;;
    match find_regex_symbol syms (parser_at p name_start name_len) 0 with
    | Some i => ret (Some i)
    | None =>
        ok <- malloc ;;
        if ok then
          set_symbols (syms ++ [mk_symbol (parser_copy_string p name_start name_len)
                                          false None]) ;;;
          ret (Some (length syms))
        else ret None
    end.

(** The result of [check_regex_symbols]: [0], or [-1] after logging
    "unefined regex symbol: <name>". *)
Inductive check_result : Type :=
| AllDefined
| UndefinedSymbol (nm : list ascii).

Definition check_status (r : check_result) : Z :=
  match r with AllDefined => 0 | UndefinedSymbol _ => -1 end.

Fixpoint check_regex_symbols (syms : regex_symbols) : check_result :=
  match syms with
  | [] => AllDefined
  | s :: rest =>
      match expression s with
      | None => UndefinedSymbol (name s)
      | Some _ => check_regex_symbols rest
      end
  end.

(** ** Destruction *)

(** [destroy_regex_node]: the nodes passed to [free], in order. *)
Fixpoint destroy_regex_node (node : regex_node) : list regex_node :=
  match node with
  | Sequence l r | Branch l r =>
      destroy_regex_node l ++ destroy_regex_node r ++ [node]
  | Loop b => destroy_regex_node b ++ [node]
  | Range _ _ | Reference _ => [node]
  end.

(** [destroy_regex_symbol] only asserts that its argument is not NULL. *)
Definition destroy_regex_symbol (s : regex_symbol) : list regex_node := [].

(** [destroy_regex_symbols]: the nodes passed to [free] while the list of
    symbols is walked. *)
Fixpoint destroy_regex_symbols (syms : regex_symbols) : list regex_node :=
  match syms with
  | [] => []
  | s :: rest => destroy_regex_symbol s ++ destroy_regex_symbols rest
  end.

(** ** The recursive-descent parser *)

Definition out_of_fuel {A} : M A := fun _ => OutOfFuel.

(** The [while(true)] loop of [parse_literal]; [escaped] and [tree] are its
    local variables. *)
Fixpoint parse_literal_loop (fuel : nat) (tree : regex_tree) (escaped : bool)
  : M (option regex_node) :=
  match fuel with
  | O => out_of_fuel
  | S fuel' =>
      more <- parser_has_more ;;
      if negb more then
        parser_error "expected literal delimiter" ;;;
        ret None
      else
        c <- parser_peek ;;
        if char_eqb c REGEX_PARSER_ESCAPE then
          parse_literal_loop fuel' tree true
        else if negb escaped && char_eqb c REGEX_PARSER_LITERAL then
          parser_skip ;;;
          ret (root tree)
        else
          ok <- create_regex_node ;;
          if negb ok then ret None
          else
            let node := Range (int_of_char c) (int_of_char c + 1) in
            r <- add_to_regex_tree tree REGEX_TYPE_SEQUENCE node ;;
            match r with
            | None => ret None
            | Some tree' =>
                parser_skip ;;;
                parse_literal_loop fuel' tree' false
            end
  end.

Definition parse_literal (fuel : nat) : M (option regex_node) :=
  parser_skip ;;;
  parse_literal_loop fuel empty_tree false.

(** Returns [Some c] for [0] with [*dest = c], and [None] for [-1]. *)
Definition parse_regex_range_bound : M (option ascii) :=
  more <- parser_has_more ;;
  if negb more then
    parser_error "unexpected end of file, expected character range bound" ;;;
    ret None
  else
    c <- parser_peek ;;
    parser_skip ;;;
    if char_eqb c REGEX_PARSER_ESCAPE then
      more' <- parser_has_more ;;
      if negb more' then
        parser_error "unexpected end of file, expected escaped character bound" ;;;
        ret None
      else
        c' <- parser_peek ;;
        parser_skip ;;;
        ret (Some c')
    else if char_eqb c REGEX_PARSER_RANGE_END then
      parser_error "invalid character, expected character range bound" ;;;
      ret None
    else ret (Some c).

Definition parse_regex_range : M (option regex_node) :=
  parser_skip ;;;
  parser_skip_whitespace ;;;
  b1 <- parse_regex_range_bound ;;
  match b1 with
  | None => ret None
  | Some start =>
      parser_skip_whitespace ;;;
      more <- parser_has_more ;;
      if negb more then
        parser_error "unexpected end of file, expected range separator" ;;;
        ret None
      else
        c <- parser_peek ;;
        if negb (char_eqb c REGEX_PARSER_RANGE_SEPARATOR) then
          parser_error "unexpected character, expected range separator" ;;;
          ret None
        else
          parser_skip ;;;
          parser_skip_whitespace ;;;
          b2 <- parse_regex_range_bound ;;
          match b2 with
          | None => ret None
          | Some end_ =>
              parser_skip_whitespace ;;;
              more' <- parser_has_more ;;
              if negb more' then
                parser_error "unexpected end of file, expected range separator" ;;;
                ret None
              else
                c' <- parser_peek ;;
                if negb (char_eqb c' REGEX_PARSER_RANGE_END) then
                  parser_error "unexpected character, expected range separator" ;;;
                  ret None
                else
                  parser_skip ;;;
                  ok <- create_regex_node ;;
                  if negb ok then
                    parser_error "could not create range node" ;;;
                    ret None
                  else ret (Some (Range (int_of_char start) (int_of_char end_)))
          end
  end.

Definition parse_regex_reference : M (option regex_node) :=
  parser_skip ;;;
  more <- parser_has_more ;;
  if negb more then
    parser_error "unexpected end of file, expected literal or expression end" ;;;
    ret None
  else
    start <- parser_pos ;;
    parser_skip_while is_identifier ;;;
    end_ <- parser_pos ;;
    symbol <- get_or_create_regex_symbol start (end_ - start) ;;
    match symbol with
    | None =>
        parser_error "symbol creation failed" ;;;
        ret None
    | Some i =>
        ok <- create_regex_node ;;
        if negb ok then
          parser_error "reference node creation failed" ;;;
          ret None
        else ret (Some (Reference i))
    end.

(** [parse_regex_branch], [parse_regex_sequence], [parse_regex_loop],
    [parse_regex_expression] and [parse_regex_group] call each other; the
    [tree] argument of the first two is the local tree of their
    [while(true)] loop, [empty_tree] on entry. *)
Fixpoint parse_regex_branch_loop (fuel : nat) (tree : regex_tree) : M (option regex_node) :=
  match fuel with
  | O => out_of_fuel
  | S fuel' =>
      more <- parser_has_more ;;
      if negb more then
        parser_error "unexpected end of file, expected sequence, loop, expression or statement end" ;;;
        ret None
      else
        c <- parser_peek ;;
        if char_eqb c REGEX_PARSER_STATEMENT_END || char_eqb c REGEX_PARSER_GROUP_END then
          ret (root tree)
        else
          n <- parse_regex_sequence_loop fuel' empty_tree ;;
          match n with
          | None => ret None
          | Some node =>
              r <- add_to_regex_tree tree REGEX_TYPE_BRANCH node ;;
              match r with
              | None =>
                  parser_error "could not add branch to tree" ;;;
                  ret None
              | Some tree' =>
                  more' <- parser_has_more ;;
                  if negb more' then
                    parser_error "unexpected end of file, expected branch delimiter or statement end" ;;;
                    ret None
                  else
                    c' <- parser_peek ;;
                    if negb (char_eqb c' REGEX_PARSER_BRANCH_SEPARATOR) then
                      ret (root tree')
                    else
                      parser_skip ;;;
                      parser_skip_whitespace ;;;
                      parse_regex_branch_loop fuel' tree'
              end
          end
  end

with parse_regex_sequence_loop (fuel : nat) (tree : regex_tree) : M (option regex_node) :=
  match fuel with
  | O => out_of_fuel
  | S fuel' =>
      more <- parser_has_more ;;
      if negb more then
        parser_error "unexpected end of file, expected loop, expression or statement end" ;;;
        ret None
      else
        c <- parser_peek ;;
        if char_eqb c REGEX_PARSER_STATEMENT_END || char_eqb c REGEX_PARSER_GROUP_END
           || char_eqb c REGEX_PARSER_BRANCH_SEPARATOR then
          ret (root tree)
        else
          n <- parse_regex_loop fuel' ;;
          match n with
          | None => ret None
          | Some node =>
              r <- add_to_regex_tree tree REGEX_TYPE_SEQUENCE node ;;
              match r with
              | None =>
                  parser_error "could not add element to sequence" ;;;
                  ret None
              | Some tree' =>
                  parser_skip_whitespace ;;;
                  parse_regex_sequence_loop fuel' tree'
              end
          end
  end

with parse_regex_loop (fuel : nat) : M (option regex_node) :=
  match fuel with
  | O => out_of_fuel
  | S fuel' =>
      b <- parse_regex_expression fuel' ;;
      match b with
      | None => ret None
      | Some body =>
          more <- parser_has_more ;;
          if negb more then
            parser_error "unexpected end of file, expected expression or statement end" ;;;
            ret None
          else
            parser_skip_whitespace ;;;
            c <- parser_peek ;;
            if char_eqb c REGEX_PARSER_LOOP then
              parser_skip ;;;
              ok <- create_regex_node ;;
              if negb ok then ret None
              else ret (Some (Loop body))
            else ret (Some body)
      end
  end

with parse_regex_expression (fuel : nat) : M (option regex_node) :=
  match fuel with
  | O => out_of_fuel
  | S fuel' =>
      more <- parser_has_more ;;
      if negb more then
        parser_error "unexpected end of file, expected literal or expression end" ;;;
        ret None
      else
        c <- parser_peek ;;
        if char_eqb c REGEX_PARSER_LITERAL then parse_literal fuel'
        else if char_eqb c REGEX_PARSER_REFERENCE_PREFIX then parse_regex_reference
        else if char_eqb c REGEX_PARSER_GROUP_START then parse_regex_group fuel'
        else if char_eqb c REGEX_PARSER_RANGE_START then parse_regex_range
        else
          parser_error "unexpected character, expected literal, group or statement end" ;;;
          ret None
  end

with parse_regex_group (fuel : nat) : M (option regex_node) :=
  match fuel with
  | O => out_of_fuel
  | S fuel' =>
      parser_skip ;;;
      b <- parse_regex_branch_loop fuel' empty_tree ;;
      match b with
      | None => ret None
      | Some branch =>
          parser_skip_whitespace ;;;
          more <- parser_has_more ;;
          if negb more then
            parser_error "unexpected end of file, expected statement end" ;;;
            ret None
          else
            c <- parser_peek ;;
            if negb (char_eqb c REGEX_PARSER_GROUP_END) then
              parser_error "unexpected character, expected statement end" ;;;
              ret None
            else
              parser_skip ;;;
              ret (Some branch)
      end
  end.

Definition parse_regex_branch (fuel : nat) : M (option regex_node) :=
  parse_regex_branch_loop fuel empty_tree.

Definition parse_regex_sequence (fuel : nat) : M (option regex_node) :=
  parse_regex_sequence_loop fuel empty_tree.

Definition parse_regex_statement (fuel : nat) : M (option regex_node) :=
  b <- parse_regex_branch fuel ;;
  match b with
  | None => ret None
  | Some branch =>
      parser_skip_whitespace ;;;
      more <- parser_has_more ;;
      if negb more then
        parser_error "unexpected end of file, expected statement end" ;;;
        ret None
      else
        c <- parser_peek ;;
        if negb (char_eqb c REGEX_PARSER_STATEMENT_END) then
          parser_error "unexpected character, expected statement end" ;;;
          ret None
        else
          parser_skip ;;;
          ret (Some branch)
  end.

(** [symbol->lexeme = lexeme] and [symbol->expression = expr], through the
    pointer [i]. *)
Definition set_lexeme (i : nat) (b : bool) : M unit :=
  syms <- get_symbols ;;
  match syms !! i with
  | Some s => set_symbols (<[i := mk_symbol (name s) b (expression s)]> syms)
  | None => abort_with NullDereference
  end.

Definition set_expression (i : nat) (e : regex_node) : M unit :=
  syms <- get_symbols ;;
  match syms !! i with
  | Some s => set_symbols (<[i := mk_symbol (name s) (lexeme s) (Some e)]> syms)
  | None => abort_with NullDereference
  end.

Definition get_expression (i : nat) : M (option regex_node) :=
  syms <- get_symbols ;;
  match syms !! i with
  | Some s => ret (expression s)
  | None => abort_with NullDereference
  end.

Definition parse_symbol (fuel : nat) : M Z :=
  c <- parser_peek ;;
  let lexeme := char_eqb c REGEX_PARSER_LEXEME in
  (if lexeme then parser_skip else ret tt) ;;;
  name_start <- parser_pos ;;
  parser_skip_while is_identifier ;;;
  name_end <- parser_pos ;;
  symbol <- get_or_create_regex_symbol name_start (name_end - name_start) ;;
  match symbol with
  | None => ret (-1)%Z
  | Some i =>
      e <- get_expression i ;;
      match e with
      | Some _ =>
          parser_error "multiple definitions for symbol" ;;;
          ret (-1)%Z
      | None =>
          set_lexeme i lexeme ;;;
          parser_skip_whitespace ;;;
          more <- parser_has_more ;;
          if negb more then
            parser_error "unexpected end, expected symbol definition or ';'" ;;;
            ret (-1)%Z
          else
            c' <- parser_peek ;;
            (if char_eqb c' REGEX_PARSER_COMMENT
             then parser_skip_comment ;;; parser_skip_whitespace
             else ret tt) ;;;
            more' <- parser_has_more ;;
            if negb more' then
              parser_error "unexpected end, expected symbol definition or ';'" ;;;
              ret (-1)%Z
            else
              x <- parse_regex_statement fuel ;;
              match x with
              | None => ret (-1)%Z
              | Some expr =>
                  set_expression i expr ;;;
                  ret 0%Z
              end
      end
  end.

(** The [while(parser_has_more(&parser))] loop of [parse_regex_symbols]. *)
Fixpoint parse_regex_symbols_loop (fuel : nat) : M unit :=
  match fuel with
  | O => out_of_fuel
  | S fuel' =>
      more <- parser_has_more ;;
      if negb more then ret tt
      else
        parser_skip_whitespace ;;;
        c <- parser_peek ;;
        if char_eqb c REGEX_PARSER_COMMENT then
          parser_skip_comment ;;;
          parse_regex_symbols_loop fuel'
        else
          r <- parse_symbol fuel' ;;
          if negb (Z.eqb r 0) then ret tt
          else parse_regex_symbols_loop fuel'
  end.

(** What [parse_regex_symbols] does once its loop is left: the symbols, or
    NULL. *)
Definition parse_regex_symbols_finish : M (option regex_symbols) :=
  p <- get_parser ;;
  if negb (parser_ok p) then ret None
  else
    syms <- get_symbols ;;
    match check_regex_symbols syms with
    | UndefinedSymbol _ => ret None
    | AllDefined => ret (Some syms)
    end.

(** [read_regex_file], for a file holding [source]: the parser it sets up,
    once the buffer is allocated. *)
Definition read_regex_file (source : list ascii) : M Z :=
  ok <- malloc ;;
  if negb ok then ret (-1)%Z
  else
    set_parser (mk_parser source 0 None 1 1) ;;;
    ret 0%Z.

(** [parse_regex_symbols(file)].  The [struct regex_symbols] is written
    through ([symbols->head = NULL]) before it is tested for NULL. *)
Definition parse_regex_symbols_body (fuel : nat) (source : list ascii)
  : M (option regex_symbols) :=
  r <- read_regex_file source ;;
  if negb (Z.eqb r 0) then ret None
  else
    ok <- malloc ;;
    if negb ok then abort_with NullDereference
    else
      set_symbols [] ;;;
      parse_regex_symbols_loop fuel ;;;
      parse_regex_symbols_finish.

(** The state before [parse_regex_symbols] is called, when [budget]
    allocations will succeed. *)
Definition initial_world (budget : nat) : world :=
  mk_world (mk_parser [] 0 None 0 0) [] budget.

Definition parse_regex_symbols (fuel budget : nat) (source : list ascii)
  : outcome (option regex_symbols) :=
  parse_regex_symbols_body fuel source (initial_world budget).

(** The bytes of a source text. *)
Definition bytes (s : string) : list ascii := list_ascii_of_string s.

(** The double quote, to write grammar sources. *)
Definition DQ : string := String "034" EmptyString.

(** ** The automaton of [regex.h] ([struct regex_state], [struct regex_nfa]) *)

(** A field is [None] while it holds whatever [realloc] left there. *)
Record regex_state : Type := mk_state {
  lower : option Z;
  upper : option Z;
  then_ : option nat;
  otherwise : option nat;
  end_ : option Z
}.

Definition fresh_state : regex_state := mk_state None None None None None.

(** [nfa_states] are the [len] states in use of the buffer of [size]
    states; [nfa_symbols] are the [symbols_len] names. *)
Record regex_nfa : Type := mk_nfa {
  nfa_states : list regex_state;
  nfa_size : nat;
  nfa_symbols : list (list ascii)
}.

Definition nfa_len (n : regex_nfa) : nat := length (nfa_states n).
Definition nfa_symbols_len (n : regex_nfa) : nat := length (nfa_symbols n).

Definition INITIAL_REGEX_NFA_BUFFER_SIZE : nat := 32.

Definition set_state (n : regex_nfa) (i : nat) (f : regex_state -> regex_state) : regex_nfa :=
  match nfa_states n !! i with
  | Some st => mk_nfa (<[i := f st]> (nfa_states n)) (nfa_size n) (nfa_symbols n)
  | None => n
  end.

Definition set_lower (v : Z) (st : regex_state) : regex_state :=
  mk_state (Some (char_of_int v)) (upper st) (then_ st) (otherwise st) (end_ st).
Definition set_upper (v : Z) (st : regex_state) : regex_state :=
  mk_state (lower st) (Some (char_of_int v)) (then_ st) (otherwise st) (end_ st).
Definition set_then (v : option nat) (st : regex_state) : regex_state :=
  mk_state (lower st) (upper st) v (otherwise st) (end_ st).
Definition set_otherwise (v : option nat) (st : regex_state) : regex_state :=
  mk_state (lower st) (upper st) (then_ st) v (end_ st).
Definition set_end (v : Z) (st : regex_state) : regex_state :=
  mk_state (lower st) (upper st) (then_ st) (otherwise st) (Some v).

(** [add_regex_state]: [None] for [-1], else the new id, the automaton and
    the allocations left. *)
Definition add_regex_state (n : regex_nfa) (avail : nat) : option (nat * regex_nfa * nat) :=
  if Nat.eqb (nfa_len n) (nfa_size n) then
    let nsize := if Nat.eqb (nfa_size n) 0 then INITIAL_REGEX_NFA_BUFFER_SIZE
                 else nfa_size n * 2 in
    match avail with
    | O => None
    | S avail' =>
        Some (nfa_len n, mk_nfa (nfa_states n ++ [fresh_state]) nsize (nfa_symbols n), avail')
    end
  else Some (nfa_len n, mk_nfa (nfa_states n ++ [fresh_state]) (nfa_size n) (nfa_symbols n), avail).

(** The result of a builder: its return value, the automaton, the
    allocations left and what it stored in [*first] and [*last], [None] when
    it left them as they were, which at every call is uninitialised. *)
Inductive built : Type :=
| Built (status : Z) (n : regex_nfa) (avail : nat) (first last : option nat)
| BuildAborted (why : abort).

Definition build_regex_sequence_nfa (n : regex_nfa) (avail : nat) (node : regex_node) : built :=
  Built 0 n avail None None.

Definition build_regex_branch_nfa (n : regex_nfa) (avail : nat) (node : regex_node) : built :=
  Built 0 n avail None None.

Definition build_regex_range_nfa (n : regex_nfa) (avail : nat) (start end_ : Z) : built :=
  match add_regex_state n avail with
  | None => Built (-1) n avail None None
  | Some (id, n', avail') =>
      let n1 := set_state n' id (set_lower start) in
      let n2 := set_state n1 id (set_upper (end_ + 1)) in
      let n3 := set_state n2 id (set_end (-1)) in
      Built 0 n3 avail' (Some id) (Some id)
  end.

(** [build_regex_loop_nfa]; [build] is [build_regex_nfa_from_node], declared
    before it.  Its statement [start->then = body_first] names a variable
    that is declared nowhere and is left out. *)
Definition build_regex_loop_nfa (build : regex_nfa -> nat -> regex_node -> built)
  (n : regex_nfa) (avail : nat) (body : regex_node) : built :=
  match build n avail body with
  | BuildAborted why => BuildAborted why
  | Built status n1 avail1 body_first body_last =>
      if Z.eqb status (-1) then Built (-1) n1 avail1 None None
      else
        match add_regex_state n1 avail1 with
        | None => Built (-1) n1 avail1 None None
        | Some (end_id, n2, avail2) =>
            let n3 := set_state n2 end_id (set_lower 0) in
            let n4 := set_state n3 end_id (set_upper 0) in
            let n5 := set_state n4 end_id (set_end (-1)) in
            match body_last with
            | None => BuildAborted IndeterminateIndex
            | Some bl =>
                Built 0 (set_state n5 bl (set_then (Some end_id))) avail2
                      body_first (Some end_id)
            end
        end
  end.

(** The [switch] has no case for [REGEX_TYPE_REFERENCE]: [default]. *)
Fixpoint build_regex_nfa_from_node (n : regex_nfa) (avail : nat) (node : regex_node) : built :=
  match node with
  | Sequence _ _ => build_regex_sequence_nfa n avail node
  | Branch _ _ => build_regex_branch_nfa n avail node
  | Range start e => build_regex_range_nfa n avail start e
  | Loop body =>
      build_regex_loop_nfa (fun n' a' b' => build_regex_nfa_from_node n' a' b') n avail body
  | Reference _ => Built (-1) n avail None None
  end.

(** [build_regex_nfa]: its return value, the automaton and the allocations
    left. *)
Inductive nfa_result : Type :=
| NfaDone (status : Z) (n : regex_nfa) (avail : nat)
| NfaAborted (why : abort)
| NfaOutOfFuel.

Definition build_regex_nfa (n : regex_nfa) (avail : nat) (start : nat)
  (symbol : regex_symbol) (id : Z) : nfa_result :=
  match expression symbol with
  | None => NfaAborted AssertExpression
  | Some e =>
      match build_regex_nfa_from_node n avail e with
      | BuildAborted why => NfaAborted why
      | Built result n1 avail1 first last =>
          if Z.eqb result 0 then
            let n2 := set_state n1 start (set_then first) in
            match last with
            | None => NfaAborted IndeterminateIndex
            | Some l =>
                let n3 := set_state n2 l (set_then (Some 0)) in
                let n4 := set_state n3 l (set_otherwise (Some 0)) in
                NfaDone result (set_state n4 l (set_end id)) avail1
            end
          else NfaDone result n1 avail1
      end
  end.

(** [copy_regex_symbol_names]: [None] for [-1], else the names (their
    number is [*symbol_count]) and the allocations left.  [count] is the
    number of [s = s->next] steps from the head until [s->next == NULL]. *)
Fixpoint copy_names_loop (syms : regex_symbols) (count avail : nat) {struct count}
  : option (list (list ascii) * nat) :=
  match count with
  | O => Some ([], avail)
  | S count' =>
      match syms, avail with
      | s :: rest, S avail' =>
          match copy_names_loop rest count' avail' with
          | Some (names, avail'') => Some (name s :: names, avail'')
          | None => None
          end
      | _, _ => None
      end
  end.

Inductive copied : Type :=
| Copied (r : option (list (list ascii) * nat))
| CopyAborted (why : abort).

Definition copy_regex_symbol_names (syms : regex_symbols) (avail : nat) : copied :=
  match syms with
  | [] => CopyAborted NullDereference
  | _ :: rest =>
      let count := length rest in
      if Nat.eqb count 0 then Copied (Some ([], avail))
      else
        match avail with
        | O => Copied None
        | S avail' => Copied (copy_names_loop syms count avail')
        end
  end.

(** The [while(s->next != NULL)] loop of [parse_regex_nfa]: [s] is the head
    of [syms].  [state] is the address of the state at index [start] in the
    array as it is when the turn begins.  [add_regex_state] gives the
    automaton a new array when it is full, and the size tells: when it has
    done so in the turn, by way of [build_regex_nfa] or for [next_state],
    the store [state->otherwise = next_state] goes into the array that
    [realloc] has released. *)
Fixpoint parse_regex_nfa_loop (syms : regex_symbols) (n : regex_nfa) (avail : nat)
  (start : nat) (index : Z) : nfa_result :=
  match syms with
  | [] => NfaAborted NullDereference
  | s :: rest =>
      match rest with
      | [] => NfaDone 0 n avail
      | _ :: _ =>
          let n1 := set_state n start (set_lower 0) in
          let n2 := set_state n1 start (set_upper 0) in
          let n3 := set_state n2 start (set_end (-1)) in
          match build_regex_nfa n3 avail start s index with
          | NfaDone r n4 avail4 =>
              if Z.eqb r (-1) then NfaDone (-1) n4 avail4
              else
                match add_regex_state n4 avail4 with
                | None => NfaDone (-1) n4 avail4
                | Some (next_state, n5, avail5) =>
                    if negb (Nat.eqb (nfa_size n5) (nfa_size n))
                    then NfaAborted StalePointer
                    else
                      let n6 := set_state n5 start (set_otherwise (Some next_state)) in
                      parse_regex_nfa_loop rest n6 avail5 next_state (index + 1)
                end
          | other => other
          end
      end
  end.

(** [parse_regex_nfa], from the symbols on: what it does after
    [parse_regex_symbols] returned [syms].  [copy_regex_symbol_names]
    returns [-1] at a [malloc] that failed, which is when no allocation is
    left. *)
Definition parse_regex_nfa_build (syms : regex_symbols) (avail : nat) : nfa_result :=
  let n0 := mk_nfa [] 0 [] in
  match copy_regex_symbol_names syms avail with
  | CopyAborted why => NfaAborted why
  | Copied None => NfaDone (-1) n0 0
  | Copied (Some (names, avail1)) =>
      let n1 := mk_nfa [] 0 names in
      match add_regex_state n1 avail1 with
      | None => NfaDone (-1) n1 avail1
      | Some (start, n2, avail2) => parse_regex_nfa_loop syms n2 avail2 start 0
      end
  end.

Definition parse_regex_nfa (fuel budget : nat) (source : list ascii) : nfa_result :=
  match parse_regex_symbols fuel budget source with
  | OutOfFuel => NfaOutOfFuel
  | Aborted why => NfaAborted why
  | Done None w => NfaDone (-1) (mk_nfa [] 0 []) (avail w)
  | Done (Some syms) w => parse_regex_nfa_build syms (avail w)
  end.

(** ** The matcher of [regex.h] ([struct regex_matcher]) *)

Record regex_matcher : Type := mk_matcher {
  m_nfa : regex_nfa;
  m_stack : list nat;
  m_size : nat;
  m_len : nat;
  m_symbol : nat
}.

(** [match_regex]: its return value and the matcher afterwards. *)
Definition match_regex (m : regex_matcher) (input : list ascii) : Z * regex_matcher :=
  (0%Z, m).

(** ** The automaton and matcher of [regex_nfa.c] *)

Module RegexNfa.

Record regex_nfa_state : Type := mk_nfa_state {
  predicate : Z;
  next : nat;
  otherwise : nat;
  result : Z
}.

Record regex_nfa : Type := mk_regex_nfa {
  states : list regex_nfa_state;
  size : nat
}.

Record regex_nfa_matcher : Type := mk_nfa_matcher {
  stack : list Z;
  stack_size : nat;
  stack_len : nat;
  m_result : Z;
  m_len : nat
}.

Definition reset_regex_nfa_matcher (m : regex_nfa_matcher) : regex_nfa_matcher :=
  mk_nfa_matcher (stack m) (stack_size m) 0 0 0.

Definition finish (m : regex_nfa_matcher) (len : nat) : Z * regex_nfa_matcher :=
  (0%Z, mk_nfa_matcher (stack m) (stack_size m) (stack_len m) 0 len).

(** The [while(true)] loop of [match_regex_nfa]; [len] and [pos] are its
    local variables, [str] the input from the pointer on, which the loop
    never moves.  The undeclared [stack_size] is read as the local [size]
    that holds [matcher->stack_size], and the unfinished condition
    [pred == 0 || )] as [pred == 0]. *)
Fixpoint match_loop (fuel : nat) (n : regex_nfa) (m : regex_nfa_matcher)
  (str : list ascii) (len pos : nat) : option (Z * regex_nfa_matcher) :=
  match fuel with
  | O => None
  | S fuel' =>
      match str with
      | [] => Some (finish m len)
      | ch :: _ =>
          if Nat.eqb len (stack_size m) then Some (finish m len)
          else
            let c := int_of_char ch in
            match states n !! pos with
            | None => None
            | Some st =>
                if Z.eqb (predicate st) 0 then match_loop fuel' n m str len (next st)
                else if Z.eqb (predicate st) c then match_loop fuel' n m str len (next st)
                else match_loop fuel' n m str len (otherwise st)
            end
      end
  end.

(** [match_regex_nfa]: [None] when the loop does not return within
    [fuel] iterations or reads outside the state buffer. *)
Definition match_regex_nfa (fuel : nat) (n : regex_nfa) (m : regex_nfa_matcher)
  (str : list ascii) : option (Z * regex_nfa_matcher) :=
  match_loop fuel n m str 0 0.

End RegexNfa.

(** ** [parser_skip_until_with_escape] *)

(** The loop of [parser_skip_until_with_escape]; [escaped] is its local
    variable.  Every iteration that does not leave the loop calls
    [parser_skip]. *)
Fixpoint skip_until_with_escape_loop (fuel : nat) (pred : ascii -> bool)
    (escaped : bool) : M unit :=
  match fuel with
  | O => out_of_fuel
  | S fuel' =>
      more <- parser_has_more ;;
      if negb more then ret tt
      else
        c <- parser_peek ;;
        if char_eqb c REGEX_PARSER_ESCAPE then
          parser_skip ;;;
          skip_until_with_escape_loop fuel' pred true
        else if negb escaped && pred c then ret tt
        else
          parser_skip ;;;
          skip_until_with_escape_loop fuel' pred false
  end.

(** [parser_skip_until_with_escape(parser, pred)]: an iteration for every
    remaining character, and the one that finds the end. *)
Definition parser_skip_until_with_escape (pred : ascii -> bool) : M unit :=
  fun w => skip_until_with_escape_loop (S (len (parser w) - pos (parser w))) pred false w.

(** ** [debug_regex_node] *)

Definition INT_MAX : Z := 2147483647.

(** [node_type_labels] *)
Definition node_type_labels (ty : regex_type) : string :=
  match ty with
  | REGEX_TYPE_SEQUENCE => "sequence"
  | REGEX_TYPE_BRANCH => "branch"
  | REGEX_TYPE_RANGE => "range"
  | REGEX_TYPE_LOOP => "multiplier"
  | REGEX_TYPE_REFERENCE => "reference"
  end.

(** The calls of [LOG_DEBUG] in [debug_regex_node], with their
    arguments. *)
Inductive debug_line : Type :=
| NodeLine (id : Z) (label : string)
| HeadLine (id : Z)
| TailLine (id : Z)
| LeftBranchLine (id : Z)
| RightBranchLine (id : Z)
| EndOfChildrenLine (id : Z)
| LoopBodyLine (id : Z)
| EndOfLoopBodyLine (id : Z)
| RangeLine (start end_ : Z)
| SymbolLine (name : list ascii).

(** [id + 1] in [int]: [None] where it overflows. *)
Definition int_succ (id : Z) : option Z :=
  if (id <? INT_MAX)%Z then Some (id + 1)%Z else None.

(** [debug_regex_node(node, id)]: the lines it logs and the id it returns;
    [None] where [id + 1] overflows or a reference holds no symbol of
    [syms]. *)
Fixpoint debug_regex_node (syms : regex_symbols) (node : regex_node) (id : Z)
  : option (list debug_line * Z) :=
  let line := NodeLine id (node_type_labels (node_type node)) in
  match node with
  | Sequence l r =>
      match int_succ id with
      | None => None
      | Some id1 =>
          match debug_regex_node syms l id1 with
          | None => None
          | Some (ls1, next_id) =>
              match debug_regex_node syms r next_id with
              | None => None
              | Some (ls2, next_id') =>
                  Some (line :: HeadLine id :: ls1 ++ TailLine id :: ls2
                          ++ [EndOfChildrenLine id], next_id')
              end
          end
      end
  | Branch l r =>
      match int_succ id with
      | None => None
      | Some id1 =>
          match debug_regex_node syms l id1 with
          | None => None
          | Some (ls1, next_id) =>
              match debug_regex_node syms r next_id with
              | None => None
              | Some (ls2, next_id') =>
                  Some (line :: LeftBranchLine id :: ls1 ++ RightBranchLine id :: ls2
                          ++ [EndOfChildrenLine id], next_id')
              end
          end
      end
  | Loop b =>
      match int_succ id with
      | None => None
      | Some id1 =>
          match debug_regex_node syms b id1 with
          | None => None
          | Some (ls, next_id) =>
              Some (line :: LoopBodyLine id :: ls ++ [EndOfLoopBodyLine id], next_id)
          end
      end
  | Range start e =>
      match int_succ id with
      | None => None
      | Some id1 => Some ([line; RangeLine start e], id1)
      end
  | Reference i =>
      match syms !! i with
      | None => None
      | Some s =>
          match int_succ id with
          | None => None
          | Some id1 => Some ([line; SymbolLine (name s)], id1)
          end
      end
  end.

(** ** The message queues of the logger ([logger.c], in [src/parser.h] of the
    source tree) *)

(** [enum log_level] *)
Inductive log_level : Type :=
| LOG_LEVEL_DEBUG
| LOG_LEVEL_INFO
| LOG_LEVEL_WARNING
| LOG_LEVEL_ERROR.

(** [struct log_msg]; a pointer to a message is its address, [None] is
    NULL.  [msg_buffer] is the content buffer of [msg_size] bytes, [None]
    when the pointer is NULL. *)
Record log_msg : Type := mk_msg {
  msg_level : log_level;
  msg_file : option string;
  msg_line : Z;
  msg_buffer : option (list ascii);
  msg_size : nat;
  msg_prev : option nat;
  msg_next : option nat
}.

(** [struct log_queue] *)
Record log_queue : Type := mk_queue {
  q_head : option nat;
  q_tail : option nat
}.

(** The messages in memory, by address; [None] at an address that was
    freed. *)

(** [*p], where [p] points to a message that is allocated. *)
Definition load (h : list (option log_msg)) (p : nat) : option log_msg :=
  match h !! p with
  | Some (Some m) => Some m
  | _ => None
  end.

Definition store (h : list (option log_msg)) (p : nat) (m : log_msg) : list (option log_msg) :=
  <[p := Some m]> h.

Definition set_msg_next (m : log_msg) (p : option nat) : log_msg :=
  mk_msg (msg_level m) (msg_file m) (msg_line m) (msg_buffer m) (msg_size m)
         (msg_prev m) p.

Definition set_msg_prev (m : log_msg) (p : option nat) : log_msg :=
  mk_msg (msg_level m) (msg_file m) (msg_line m) (msg_buffer m) (msg_size m)
         p (msg_next m).

(** [create_log_msg]: the message it initialises when [malloc] succeeds. *)
Definition create_log_msg : log_msg :=
  mk_msg LOG_LEVEL_DEBUG None 0 None 0 None None.

(** [init_log_queue] *)
Definition init_log_queue : log_queue := mk_queue None None.

(** [push_log_msg(q, msg)]: the memory and the queue afterwards; [None]
    when it reads or writes through a pointer to no message. *)
Definition push_log_msg (h : list (option log_msg)) (q : log_queue) (msg : nat)
  : option (list (option log_msg) * log_queue) :=
  match q_tail q with
  | None =>
      match load h msg with
      | None => None
      | Some m =>
          Some (store h msg (set_msg_next (set_msg_prev m None) None),
                mk_queue (Some msg) (Some msg))
      end
  | Some t =>
      match load h t with
      | None => None
      | Some mt =>
          let h1 := store h t (set_msg_next mt (Some msg)) in
          match load h1 msg with
          | None => None
          | Some m =>
              Some (store h1 msg (set_msg_next (set_msg_prev m (Some t)) None),
                    mk_queue (q_head q) (Some msg))
          end
      end
  end.

(** [pop_log_msg(q)]: also the message it returns. *)
Definition pop_log_msg (h : list (option log_msg)) (q : log_queue)
  : option (list (option log_msg) * log_queue * option nat) :=
  match q_head q with
  | None => Some (h, q, None)
  | Some a =>
      match load h a with
      | None => None
      | Some m =>
          let q' := match msg_next m with
                    | None => mk_queue None None
                    | Some b => mk_queue (Some b) (q_tail q)
                    end in
          Some (store h a (set_msg_next m None), q', Some a)
      end
  end.

(** [move_log_msgs(dest, src)], for two queues that are not the same
    object: the memory, [*dest] and [*src] afterwards. *)
Definition move_log_msgs (h : list (option log_msg)) (dest src : log_queue)
  : option (list (option log_msg) * log_queue * log_queue) :=
  match q_head src with
  | None => Some (h, dest, src)
  | Some sh =>
      match q_head dest with
      | None =>
          Some (h, mk_queue (Some sh) (q_tail src), mk_queue None None)
      | Some dh =>
          (* dest->tail = src->head; src->head->prev = dest->tail; *)
          match load h sh with
          | None => None
          | Some m =>
              Some (store h sh (set_msg_prev m (Some sh)),
                    mk_queue (Some dh) (q_tail src), mk_queue None None)
          end
      end
  end.

(** What a walk over memory comes to. *)
Inductive walk (A : Type) : Type :=
| Walked (a : A)
| BadPointer
| NoEnd.
Arguments Walked {A} a.
Arguments BadPointer {A}.
Arguments NoEnd {A}.

(** The loop of [dispose_log_queue], from the message [msg]:
    [destroy_log_msg] frees the buffer and the message. *)
Fixpoint dispose_loop (fuel : nat) (h : list (option log_msg)) (msg : option nat) : walk (list (option log_msg)) :=
  match msg with
  | None => Walked h
  | Some a =>
      match fuel with
      | O => NoEnd
      | S fuel' =>
          match load h a with
          | None => BadPointer
          | Some m => dispose_loop fuel' (<[a := None]> h) (msg_next m)
          end
      end
  end.

Definition dispose_log_queue (fuel : nat) (h : list (option log_msg)) (q : log_queue) : walk (list (option log_msg)) :=
  dispose_loop fuel h (q_head q).

(** ** The program ([main.c]) *)

(** What a call comes to: it returns, or it stops at the failed
    [assert(symbols != NULL)] of [destroy_regex_symbols], or where the
    parser stops. *)
Inductive run (A : Type) : Type :=
| Returns (a : A)
| AssertSymbolsNotNull
| Stops (why : abort)
| RunsOutOfFuel.
Arguments Returns {A} a.
Arguments AssertSymbolsNotNull {A}.
Arguments Stops {A} why.
Arguments RunsOutOfFuel {A}.

(** What the calls of [main] into the logger and the C library return:
    whether [start_logger], [fclose] and [stop_logger] return 0, and the
    content of the syntax file, [None] when [fopen] returns NULL. *)
Record environment : Type := mk_environment {
  start_logger_ok : bool;
  syntax_file : option (list ascii);
  fclose_ok : bool;
  stop_logger_ok : bool
}.

(** [destroy_regex_symbols(symbols)], for a pointer that may be NULL:
    [None] when the assertion fails. *)
Definition destroy_regex_symbols_at (symbols : option regex_symbols)
  : option (list regex_node) :=
  match symbols with
  | None => None
  | Some syms => Some (destroy_regex_symbols syms)
  end.

(** [read_regex_file] of [main.c] (the function of this name in [regex.c]
    is [read_regex_file] above). *)
Definition main_read_regex_file (env : environment) (fuel budget : nat) : run Z :=
  match syntax_file env with
  | None => Returns (-1)%Z
  | Some source =>
      match parse_regex_symbols fuel budget source with
      | OutOfFuel => RunsOutOfFuel
      | Aborted why => Stops why
      | Done symbols _ =>
          if negb (fclose_ok env) then
            match destroy_regex_symbols_at symbols with
            | None => AssertSymbolsNotNull
            | Some _ => Returns (-1)%Z
            end
          else
            match destroy_regex_symbols_at symbols with
            | None => AssertSymbolsNotNull
            | Some _ => Returns 0%Z
            end
      end
  end.

Definition EXIT_SUCCESS : Z := 0.
Definition EXIT_FAILURE : Z := 1.

(** [main] *)
Definition main (env : environment) (fuel budget : nat) : run Z :=
  if negb (start_logger_ok env) then Returns EXIT_FAILURE
  else
    match main_read_regex_file env fuel budget with
    | Returns r =>
        let result := if negb (stop_logger_ok env) then (-1)%Z else r in
        if Z.eqb result 0 then Returns EXIT_SUCCESS else Returns EXIT_FAILURE
    | AssertSymbolsNotNull => AssertSymbolsNotNull
    | Stops why => Stops why
    | RunsOutOfFuel => RunsOutOfFuel
    end.

(** * Definitions used in the statements *)

(** ** States and trees *)

(** [w] with its parser replaced. *)
Definition with_parser (w : world) (p : regex_parser) : world :=
  mk_world p (symbols w) (avail w).

(** [p] after [parser_error(p, msg)]. *)
Definition with_error (p : regex_parser) (msg : string) : regex_parser :=
  mk_parser (buf p) (pos p) (Some msg) (line p) (col p).

(** Line and column after the characters [l]. *)
Definition skip_chars (l : list ascii) (lc : Z * Z) : Z * Z :=
  fold_left (fun acc c => if is_newline c then (fst acc + 1, 1)%Z
                          else (fst acc, snd acc + 1)%Z) l lc.

(** The parser after [k] calls of [parser_skip]. *)
Definition advance (p : regex_parser) (k : nat) : regex_parser :=
  let lc := skip_chars (take k (drop (pos p) (buf p))) (line p, col p) in
  mk_parser (buf p) (pos p + k) (error p) (fst lc) (snd lc).

(** The length of the longest prefix of [l] whose characters satisfy
    [pred]. *)
Fixpoint prefix_len (pred : ascii -> bool) (l : list ascii) : nat :=
  match l with
  | c :: l' => if pred c then S (prefix_len pred l') else 0
  | [] => 0
  end.

(** A character that is neither the literal delimiter nor the escape. *)
Definition plain (c : ascii) : Prop :=
  c <> REGEX_PARSER_LITERAL /\ c <> REGEX_PARSER_ESCAPE.

(** The parser stands at a literal with an escape in it, and memory for the
    nodes of the characters before the escape is there. *)
Definition at_literal_with_escape (w : world) : Prop :=
  exists body rest,
    drop (pos (parser w)) (buf (parser w))
    = REGEX_PARSER_LITERAL :: body ++ REGEX_PARSER_ESCAPE :: rest
    /\ Forall plain body
    /\ 2 * length body <= avail w.

(** The node of one character of a literal. *)
Definition literal_node (c : ascii) : regex_node :=
  Range (int_of_char c) (int_of_char c + 1).

(** The tree of a literal with the characters [c :: cs]. *)
Fixpoint literal_tree (c : ascii) (cs : list ascii) : regex_node :=
  match cs with
  | [] => literal_node c
  | c' :: cs' => Sequence (literal_node c) (literal_tree c' cs')
  end.

(** The tree after [add_to_regex_tree] added the nodes of [cs]. *)
Fixpoint extend_tree (t : regex_tree) (cs : list ascii) : regex_tree :=
  match cs with
  | [] => t
  | c :: cs' =>
      extend_tree
        (match leaf t with
         | None => mk_tree [] (Some (literal_node c))
         | Some l => mk_tree (spine t ++ [(REGEX_TYPE_SEQUENCE, l)]) (Some (literal_node c))
         end) cs'
  end.

(** The allocations the loop of [parse_literal] makes for [cs]: a node per
    character and a sequence node per character added to a tree that is not
    empty. *)
Definition literal_cost (t : regex_tree) (cs : list ascii) : nat :=
  match cs with
  | [] => 0
  | _ :: cs' => (match leaf t with None => 1 | Some _ => 2 end) + 2 * length cs'
  end.

(** The nodes a tree owns: itself and what it reaches through the children
    of sequences and branches and the bodies of loops. *)
Fixpoint node_count (node : regex_node) : nat :=
  match node with
  | Sequence l r | Branch l r => node_count l + node_count r + 1
  | Loop b => node_count b + 1
  | Range _ _ | Reference _ => 1
  end.

(** [get_or_create_regex_symbol] returns a symbol of the table, an existing
    or a new one, for the name of [n] bytes at [start]. *)
Definition get_or_create_returns_symbol (w : world) (start n : nat) : Prop :=
  exists i w',
    get_or_create_regex_symbol start n w = Done (Some i) w'
    /\ exists s, symbols w' !! i = Some s.

(** [m1] is [m2] with less fuel: where it does not run out of fuel, it does
    what [m2] does. *)
Definition refines {A} (m1 m2 : M A) : Prop :=
  forall w, m1 w = OutOfFuel \/ m1 w = m2 w.

(** The dispatch state at index [base] once the loop of [parse_regex_nfa]
    is through with it: it enters the fragment at the next index, and the
    next dispatch state follows that. *)
Definition dispatch_state (base : nat) : regex_state :=
  mk_state (Some 0%Z) (Some 0%Z) (Some (S base)) (Some (S (S base))) (Some (-1)%Z).

(** The state of the range node [Range a b] that ends the fragment of the
    symbol with the index [index]. *)
Definition range_state (a b index : Z) : regex_state :=
  mk_state (Some (char_of_int a)) (Some (char_of_int (b + 1))) (Some 0) (Some 0)
           (Some index).

(** The states of the symbols whose expressions are the ranges [rs], the
    first with the index [index], from the state index [base] on. *)
Fixpoint chain_states (rs : list (Z * Z)) (base : nat) (index : Z) : list regex_state :=
  match rs with
  | [] => []
  | r :: rest =>
      dispatch_state base :: range_state (fst r) (snd r) index
        :: chain_states rest (S (S base)) (index + 1)
  end.

(** The expression of [s] is the range [r]. *)
Definition defined_as_range (s : regex_symbol) (r : Z * Z) : Prop :=
  expression s = Some (Range (fst r) (snd r)).

(** ** Grammar sources and states *)

(** The definition of [a] as the literal of x, an escaped double quote
    and y. *)
Definition escaped_quote_source : list ascii :=
  bytes ("a " ++ DQ ++ "x\" ++ DQ ++ "y" ++ DQ ++ ";").

(** A reference to a symbol that is defined nowhere. *)
Definition undefined_reference_source : list ascii := bytes "$undefined;".

(** The table [parse_regex_symbols] is left with on
    [undefined_reference_source]: a symbol with the empty name, defined as a
    reference to the second symbol, which has no expression. *)
Definition undefined_reference_world (b : nat) : world :=
  mk_world (mk_parser undefined_reference_source 11 None 1 12)
           [mk_symbol [] false (Some (Reference 1));
            mk_symbol (bytes "undefined") false None] b.

(** Three fragments; the first is defined as a reference to the second. *)
Definition reference_source : list ascii :=
  bytes ("a $b; b " ++ DQ ++ "y" ++ DQ ++ "; c " ++ DQ ++ "z" ++ DQ ++ ";").

(** The symbol table of [reference_source]. *)
Definition reference_table : regex_symbols :=
  [mk_symbol ["a"] false (Some (Reference 1));
   mk_symbol ["b"] false (Some (Range 121 122));
   mk_symbol ["c"] false (Some (Range 122 123))].

(** Two lexemes, each a literal of one character. *)
Definition two_lexemes_source : list ascii :=
  bytes ("@a " ++ DQ ++ "x" ++ DQ ++ "; @b " ++ DQ ++ "y" ++ DQ ++ ";").

(** A fragment followed by a lexeme. *)
Definition fragment_first_source : list ascii :=
  bytes ("f " ++ DQ ++ "x" ++ DQ ++ "; @b " ++ DQ ++ "y" ++ DQ ++ ";").

(** Seventeen symbols [a] to [q], each a literal of one character. *)
Definition seventeen_symbols_source : list ascii :=
  drop 1 (flat_map (fun c => [" "; c; " "] ++ bytes DQ ++ ["x"] ++ bytes DQ ++ [";"])
                   (bytes "abcdefghijklmnopq")).

(** The automaton both sources compile to, up to the one name. *)
Definition one_entry_nfa (nm : list ascii) : regex_nfa :=
  mk_nfa [mk_state (Some 0%Z) (Some 0%Z) (Some 1) (Some 2) (Some (-1)%Z);
          mk_state (Some 120%Z) (Some 122%Z) (Some 0) (Some 0) (Some 0%Z);
          fresh_state] 32 [nm].

(** An empty table, a buffer that holds a name of 128 bytes, and memory
    for one allocation. *)
Definition long_name_world : world :=
  mk_world (mk_parser (replicate 128 "a") 0 None 1 1) [] 1.

(** A table with the symbol [a], over a buffer with the names [a] and
    [b]. *)
Definition get_or_create_world : world :=
  mk_world (mk_parser (bytes "a b") 0 None 1 1) [mk_symbol ["a"] true None] 1.

(** Two definitions of the lexeme [a]. *)
Definition duplicate_source : list ascii :=
  bytes ("@a " ++ DQ ++ "x" ++ DQ ++ "; @a " ++ DQ ++ "y" ++ DQ ++ ";").

(** ** What the parser keeps *)

(** What holds of the computation [m] from the state [w]: when it returns,
    [Q] of its result and final state; when it stops, it is at a failed
    [assert(parser->pos != parser->len)], not at a read outside the buffer
    or through a NULL pointer. *)
Definition post {A} (m : M A) (w : world) (Q : A -> world -> Prop) : Prop :=
  match m w with
  | Done a w' => Q a w'
  | Aborted why => why = AssertPosNotLen
  | OutOfFuel => True
  end.

(** Every reference in [node] points below [n]. *)
Fixpoint refs_ok (n : nat) (node : regex_node) : Prop :=
  match node with
  | Sequence l r | Branch l r => refs_ok n l /\ refs_ok n r
  | Loop b => refs_ok n b
  | Range _ _ => True
  | Reference i => i < n
  end.

(** The same of the nodes a tree under construction holds. *)
Definition tree_refs_ok (n : nat) (t : regex_tree) : Prop :=
  Forall (fun x => refs_ok n (snd x)) (spine t)
  /\ forall l, leaf t = Some l -> refs_ok n l.

(** Every reference in an expression of the table points to a symbol of
    the table. *)
Definition table_refs_ok (syms : list regex_symbol) : Prop :=
  Forall (fun s => forall e, expression s = Some e -> refs_ok (length syms) e) syms.

(** [syms'] is [syms] with symbols behind it that have no expression and
    are no lexemes. *)
Definition appended (syms syms' : list regex_symbol) : Prop :=
  exists ext,
    syms' = syms ++ ext
    /\ Forall (fun s => expression s = None /\ lexeme s = false) ext.

(** The position is inside the buffer or at its end, the names of the
    table are pairwise different, and its references point into it. *)
Definition parser_inv (w : world) : Prop :=
  pos (parser w) <= len (parser w)
  /\ NoDup (map name (symbols w))
  /\ table_refs_ok (symbols w).

(** From [w] to [w'] the buffer is the same, the position did not move
    back, and the table only got new symbols without expression. *)
Definition descends (w w' : world) : Prop :=
  buf (parser w') = buf (parser w)
  /\ pos (parser w) <= pos (parser w')
  /\ appended (symbols w) (symbols w').

(** What the functions of the descent keep from [w] to the state [w'] in
    which they return [r]. *)
Definition node_spec (w : world) (r : option regex_node) (w' : world) : Prop :=
  parser_inv w'
  /\ descends w w'
  /\ forall node, r = Some node ->
       refs_ok (length (symbols w')) node
       /\ error (parser w') = error (parser w).

(** The same for the loops that carry a tree. *)
Definition tree_spec (w : world) (r : option regex_tree) (w' : world) : Prop :=
  parser_inv w'
  /\ descends w w'
  /\ forall t, r = Some t ->
       tree_refs_ok (length (symbols w')) t
       /\ error (parser w') = error (parser w).

(** What the functions that return a value other than a node keep. *)
Definition quiet_spec {A} (w : world) (r : option A) (w' : world) : Prop :=
  parser_inv w'
  /\ descends w w'
  /\ forall a, r = Some a -> error (parser w') = error (parser w).

(** Every symbol of [syms] is at its place in [syms'] under its name, and
    unchanged if it had an expression. *)
Definition keeps_defined (syms syms' : list regex_symbol) : Prop :=
  forall i s, syms !! i = Some s ->
    exists s', syms' !! i = Some s' /\ name s' = name s
               /\ forall e, expression s = Some e -> s' = s.

(** From [w] to [w'] the buffer is the same, the position did not move
    back, and the symbols are kept. *)
Definition moves (w w' : world) : Prop :=
  buf (parser w') = buf (parser w)
  /\ pos (parser w) <= pos (parser w')
  /\ keeps_defined (symbols w) (symbols w').

(** A symbol of [syms'] has an expression that had none in [syms], or was
    not there. *)
Definition defines (syms syms' : list regex_symbol) : Prop :=
  exists i s' e,
    syms' !! i = Some s' /\ expression s' = Some e
    /\ forall s, syms !! i = Some s -> expression s = None.

(** The name [parse_symbol] reads in [w]: the identifier characters at the
    position, behind the [@] if there is one. *)
Definition definition_name (w : world) : list ascii :=
  match buf (parser w) !! pos (parser w) with
  | Some c =>
      let k := if char_eqb c REGEX_PARSER_LEXEME then 1 else 0 in
      parser_at (parser w) (pos (parser w) + k)
                (prefix_len is_identifier (drop (pos (parser w) + k) (buf (parser w))))
  | None => []
  end.

(** [syms] has a symbol of the name [nm] with an expression, and [nm] with
    its closing NUL is not longer than a name may be. *)
Definition has_definition (nm : list ascii) (syms : list regex_symbol) : Prop :=
  length nm + 1 <= MAX_REGEX_SYMBOL_NAME_LENGTH
  /\ exists i s e, syms !! i = Some s /\ name s = nm /\ expression s = Some e.

(** What [parse_symbol] keeps from [w] to the state [w'] in which it
    returns [r]. *)
Definition symbol_spec (w : world) (r : Z) (w' : world) : Prop :=
  parser_inv w'
  /\ moves w w'
  /\ (r = 0%Z ->
      error (parser w') = error (parser w) /\ defines (symbols w) (symbols w')
      /\ has_definition (definition_name w) (symbols w')).

(** The state in which [parse_regex_symbols] enters its loop for a file
    that holds [source], when [budget] allocations will succeed. *)
Definition loop_entry_world (source : list ascii) (budget : nat) : world :=
  mk_world (mk_parser source 0 None 1 1) [] budget.

(** The states of the loop of [parse_regex_symbols] from [w] on, as long as
    it goes on: what [parser_skip_whitespace], [parser_skip_comment] and a
    [parse_symbol] that returns [0] lead to. *)
Inductive reaches (w : world) : world -> Prop :=
| reaches_here : reaches w w
| reaches_whitespace w1 w2 :
    reaches w w1 -> parser_skip_whitespace w1 = Done tt w2 -> reaches w w2
| reaches_comment w1 w2 :
    reaches w w1 -> parser_skip_comment w1 = Done tt w2 -> reaches w w2
| reaches_symbol fuel w1 w2 :
    reaches w w1 -> parse_symbol fuel w1 = Done 0%Z w2 -> reaches w w2.

(** In [w] the loop of [parse_regex_symbols] goes on to a definition: there
    is input, and behind the white space, in [w'], is the byte [c], which
    is not the [#] of a comment; [parse_symbol] is called in [w']. *)
Definition at_definition (w w' : world) (c : ascii) : Prop :=
  pos (parser w) <> len (parser w)
  /\ parser_skip_whitespace w = Done tt w'
  /\ buf (parser w') !! pos (parser w') = Some c
  /\ c <> REGEX_PARSER_COMMENT.

(** A turn of the loop of [parse_regex_symbols] after which it goes on: over
    a comment, or over a definition for which [parse_symbol], with the fuel
    that is left, returns [0]. *)
Inductive turn (fuel : nat) (w w' : world) : Prop :=
| turn_comment w1 :
    pos (parser w) <> len (parser w) ->
    parser_skip_whitespace w = Done tt w1 ->
    buf (parser w1) !! pos (parser w1) = Some REGEX_PARSER_COMMENT ->
    parser_skip_comment w1 = Done tt w' ->
    turn fuel w w'
| turn_definition w1 c :
    at_definition w w1 c ->
    parse_symbol fuel w1 = Done 0%Z w' ->
    turn fuel w w'.

(** The loop, entered in [w] with [fuel], is after some turns in [w'] with
    [fuel']. *)
Inductive turns : nat -> world -> nat -> world -> Prop :=
| turns_none fuel w : turns fuel w fuel w
| turns_next fuel w w1 fuel' w' :
    turn fuel w w1 -> turns fuel w1 fuel' w' -> turns (S fuel) w fuel' w'.

(** Every reference of [node] is to a symbol of [syms] that has an
    expression. *)
Fixpoint refs_defined (syms : list regex_symbol) (node : regex_node) : Prop :=
  match node with
  | Sequence l r | Branch l r => refs_defined syms l /\ refs_defined syms r
  | Loop b => refs_defined syms b
  | Range _ _ => True
  | Reference i => exists s e, syms !! i = Some s /\ expression s = Some e
  end.

(** What [parse_regex_symbols] hands to its caller. *)
Definition returned_table (fuel budget : nat) (source : list ascii)
    (syms : regex_symbols) : Prop :=
  exists w', parse_regex_symbols fuel budget source = Done (Some syms) w'.

(** The state [parse_regex_symbols] returns in for [reference_source]. *)
Definition reference_world_after (b : nat) : world :=
  mk_world (mk_parser reference_source 19 None 1 20) reference_table b.

(** A statement with a reference, a branch, a range and a loop, and an
    empty table. *)
Definition statement_world : world :=
  mk_world (mk_parser (bytes "$b | [a-z]*;") 0 None 1 1) [] 20.

(** The state in which [parse_regex_statement] returns from it. *)
Definition statement_world_after : world :=
  mk_world (mk_parser (bytes "$b | [a-z]*;") 12 None 1 13)
           [mk_symbol ["b"] false None] 15.

(** The state in which [parse_symbol] is called for the second definition
    of a source that defines [a] and then the lexeme [b]. *)
Definition second_symbol_world : world :=
  mk_world (mk_parser (bytes ("a " ++ DQ ++ "x" ++ DQ ++ "; @b $a*;")) 7 None 1 8)
           [mk_symbol ["a"] false (Some (Range 120 121))] 20.

(** The state in which that call returns. *)
Definition second_symbol_world_after : world :=
  mk_world (mk_parser (bytes ("a " ++ DQ ++ "x" ++ DQ ++ "; @b $a*;")) 14 None 1 15)
           [mk_symbol ["a"] false (Some (Range 120 121));
            mk_symbol ["b"] true (Some (Loop (Reference 0)))] 17.

(** A definition followed by a newline. *)
Definition trailing_newline_source : list ascii :=
  bytes ("a " ++ DQ ++ "x" ++ DQ ++ ";" ++ String newline EmptyString).

(** ** Skips with escapes *)

(** The number of characters of [l] before the first one that satisfies
    [pred], is not the escape character and does not follow one. *)
Fixpoint escape_prefix_len (pred : ascii -> bool) (escaped : bool) (l : list ascii) : nat :=
  match l with
  | [] => 0
  | c :: l' =>
      if char_eqb c REGEX_PARSER_ESCAPE then S (escape_prefix_len pred true l')
      else if negb escaped && pred c then 0
      else S (escape_prefix_len pred false l')
  end.

(** The character at [i] ends a skip with escapes that started at
    [start]. *)
Definition ends_escaped_skip (pred : ascii -> bool) (l : list ascii) (start i : nat) : Prop :=
  exists c, l !! i = Some c /\ pred c = true /\ c <> REGEX_PARSER_ESCAPE
            /\ (i = start \/ l !! (i - 1) <> Some REGEX_PARSER_ESCAPE).

(** Two blanks before a name. *)
Definition blanks_world : world :=
  mk_world (mk_parser (bytes "  ab") 0 None 1 1) [] 0.

(** A comment line, followed by a definition. *)
Definition comment_world : world :=
  mk_world (mk_parser (bytes ("# c" ++ String newline EmptyString ++ "a;")) 0 None 1 1) [] 0.

(** A quoted text with an escaped quote in it, behind the opening quote. *)
Definition escaped_text_world : world :=
  mk_world (mk_parser (bytes ("a\" ++ DQ ++ "b" ++ DQ ++ "c")) 0 None 1 1) [] 0.

(** What is left of the buffer from the position on. *)
Definition remaining (w : world) : list ascii :=
  drop (pos (parser w)) (buf (parser w)).

(** [w] after [k] calls of [parser_skip]. *)
Definition skipped (w : world) (k : nat) : world :=
  with_parser w (advance (parser w) k).

(** A character that [parse_regex_range_bound] takes as a bound where it
    stands, behind skipped white space. *)
Definition bound_char (c : ascii) : Prop :=
  is_whitespace c = false /\ c <> REGEX_PARSER_ESCAPE /\ c <> REGEX_PARSER_RANGE_END.

(** A range that is not closed. *)
Definition open_range_world : world :=
  mk_world (mk_parser (bytes "[a b]") 0 None 1 1) [] 3.

(** The state in which [parse_regex_range] returns from it. *)
Definition open_range_world_after : world :=
  mk_world (mk_parser (bytes "[a b]") 3
                      (Some "unexpected character, expected range separator"%string) 1 4)
           [] 3.

(** A range with blanks around its bounds. *)
Definition range_world : world :=
  mk_world (mk_parser (bytes "[ a - z ];") 0 None 1 1) [] 1.

(** A literal of three characters, and memory for its five nodes. *)
Definition literal_world : world :=
  mk_world (mk_parser (bytes (DQ ++ "abc" ++ DQ ++ ";")) 0 None 1 1) [] 5.

(** A literal without characters. *)
Definition empty_literal_world : world :=
  mk_world (mk_parser (bytes (DQ ++ DQ ++ ";")) 0 None 1 1) [] 0.

(** A literal that the end of the buffer cuts off. *)
Definition open_literal_world : world :=
  mk_world (mk_parser (bytes (DQ ++ "ab")) 0 None 1 1) [] 3.

(** ** The automaton buffer *)

(** The states in use fit the buffer. *)
Definition states_fit (n : regex_nfa) : Prop := nfa_len n <= nfa_size n.

(** A buffer of 32 states, all of them in use. *)
Definition full_nfa : regex_nfa := mk_nfa (replicate 32 fresh_state) 32 [["a"]].

(** ** The numbering of [debug_regex_node] *)

(** The ids of the nodes that the lines announce. *)
Fixpoint announced (lines : list debug_line) : list Z :=
  match lines with
  | [] => []
  | NodeLine id _ :: rest => id :: announced rest
  | _ :: rest => announced rest
  end.

(** The [n] ids from [id] on. *)
Fixpoint ids_from (id : Z) (n : nat) : list Z :=
  match n with
  | O => []
  | S n' => id :: ids_from (id + 1) n'
  end.

(** The automaton [build_regex_nfa_from_node] makes of the loop of the
    range from a to z, from the empty automaton. *)
Definition loop_nfa : regex_nfa :=
  mk_nfa [mk_state (Some 97%Z) (Some 123%Z) (Some 1) None (Some (-1)%Z);
          mk_state (Some 0%Z) (Some 0%Z) None None (Some (-1)%Z)] 32 [].

(** ** The message queues of the logger *)

(** From the pointer [p] the [next] pointers lead through the messages at
    the addresses [l], and then to NULL. *)
Fixpoint chain (h : list (option log_msg)) (p : option nat) (l : list nat) : Prop :=
  match l with
  | [] => p = None
  | a :: l' => p = Some a /\ exists m, load h a = Some m /\ chain h (msg_next m) l'
  end.

(** The queue [q] holds the messages at the addresses [l], in this
    order. *)
Definition queue_holds (h : list (option log_msg)) (q : log_queue) (l : list nat) : Prop :=
  chain h (q_head q) l /\ q_tail q = last l /\ NoDup l.

(** What a message says: all but its links. *)
Definition content (m : log_msg) : log_level * option string * Z * option (list ascii) * nat :=
  (msg_level m, msg_file m, msg_line m, msg_buffer m, msg_size m).

(** The messages of [h] are in [h'], and say the same. *)
Definition same_content (h h' : list (option log_msg)) : Prop :=
  forall a m, load h a = Some m ->
    exists m', load h' a = Some m' /\ content m' = content m.

(** A message with the links [prev] and [next]. *)
Definition linked_msg (prev next : option nat) : log_msg :=
  mk_msg LOG_LEVEL_INFO None 0 None 0 prev next.

(** Four messages in memory: the first two linked to each other, the
    others not linked. *)
Definition four_msgs : list (option log_msg) :=
  [Some (linked_msg None (Some 1)); Some (linked_msg (Some 0) None);
   Some create_log_msg; Some (linked_msg None None)].

(** The queue of the first two of them. *)
Definition first_two : log_queue := mk_queue (Some 0) (Some 1).

(** The queue of the last one. *)
Definition last_one : log_queue := mk_queue (Some 3) (Some 3).

(** A character with which no expression starts: it ends a statement, a
    group or a branch. *)
Definition ends_expression (c : ascii) : bool :=
  char_eqb c REGEX_PARSER_STATEMENT_END || char_eqb c REGEX_PARSER_GROUP_END
  || char_eqb c REGEX_PARSER_BRANCH_SEPARATOR.

(** A range and the end of its statement, behind a blank. *)
Definition range_statement_world : world :=
  mk_world (mk_parser (bytes "[a-z] ;") 0 None 1 1) [] 1.

(** A definition of [a], and the name [b] where no memory is left. *)
Definition out_of_memory_world : world :=
  mk_world (mk_parser (bytes ("a " ++ DQ ++ "x" ++ DQ ++ "; b " ++ DQ ++ "y" ++ DQ ++ ";"))
                      7 None 1 8)
           [mk_symbol ["a"] false (Some (Range 120 121))] 0.

(** The state behind the range of [range_statement_world]. *)
Definition range_statement_world_after : world :=
  mk_world (mk_parser (bytes "[a-z] ;") 5 None 1 6) [] 0.

(** A reference to [b], where [a] and [b] are in the table. *)
Definition reference_world : world :=
  mk_world (mk_parser (bytes "$b;") 0 None 1 1)
           [mk_symbol ["a"] false None; mk_symbol ["b"] true None] 2.

(** A range with a loop sign behind it. *)
Definition loop_world : world :=
  mk_world (mk_parser (bytes "[a-z] *;") 0 None 1 1) [] 2.

(** The state behind the range of [loop_world]. *)
Definition loop_world_after : world :=
  mk_world (mk_parser (bytes "[a-z] *;") 5 None 1 6) [] 1.

(** A range with a blank behind it, at the end of the buffer. *)
Definition trailing_blank_world : world :=
  mk_world (mk_parser (bytes "[a-z] ") 0 None 1 1) [] 1.

(** The state behind the range of [trailing_blank_world]. *)
Definition trailing_blank_world_after : world :=
  mk_world (mk_parser (bytes "[a-z] ") 5 None 1 6) [] 0.

(** ** Environments of the program *)

(** The logger and the C library work, and the syntax file has a
    reference to a symbol that is defined nowhere. *)
Definition undefined_reference_environment : environment :=
  mk_environment true (Some undefined_reference_source) true true.

(** The syntax file is [reference_source], and [fclose] fails. *)
Definition fclose_fails_environment : environment :=
  mk_environment true (Some reference_source) false true.

(** A comment, the lexeme [a], the fragment [b], and [a] once more. *)
Definition redefinition_source : list ascii :=
  bytes "# two" ++ [newline]
  ++ bytes ("@a " ++ DQ ++ "x" ++ DQ ++ "; b " ++ DQ ++ "z" ++ DQ ++ "; @a " ++ DQ ++ "y" ++ DQ ++ ";").

(** The states of [parse_regex_symbols] on [redefinition_source] behind the
    comment, in line 2: at the position [p] and the column [c], with the
    table [syms] and [a] allocations left. *)
Definition redefinition_world (p : nat) (c : Z) (syms : regex_symbols) (a : nat) : world :=
  mk_world (mk_parser redefinition_source p None 2 c) syms a.

Definition symbol_a : regex_symbol := mk_symbol ["a"] true (Some (Range 120 121)).
Definition symbol_b : regex_symbol := mk_symbol ["b"] false (Some (Range 122 123)).

(** The state in which [parse_regex_symbols] returns for
    [redefinition_source]: behind the second [a]. *)
Definition redefinition_world_after : world :=
  mk_world (mk_parser redefinition_source 23 (Some "multiple definitions for symbol"%string)
                      2 18)
           [symbol_a; symbol_b] 5.

(** * Properties *)

(** ** Stepping the parser primitives *)

Lemma advance_0 p : advance p 0 = p.
Proof.
  destruct p as [b q e l c]. unfold advance. simpl.
  rewrite Nat.add_0_r. reflexivity.
Qed.

Lemma advance_advance p a b : advance (advance p a) b = advance p (a + b).
Proof.
  unfold advance. simpl.
  rewrite <- (take_take_drop (drop (pos p) (buf p)) a b).
  assert (E : forall l1 l2 lc, skip_chars (l1 ++ l2) lc = skip_chars l2 (skip_chars l1 lc)).
  { intros. unfold skip_chars. apply fold_left_app. }
  rewrite E, drop_drop, <- surjective_pairing.
  f_equal. lia.
Qed.

Lemma with_parser_id w : with_parser w (parser w) = w.
Proof. destruct w; reflexivity. Qed.

Lemma lookup_drop_cons (l : list ascii) i c :
  l !! i = Some c -> drop i l = c :: drop (S i) l.
Proof.
  revert i. induction l as [|x l IH]; intros [|i] H; simpl in *; try discriminate.
  - inversion H. rewrite drop_0. reflexivity.
  - apply IH. exact H.
Qed.

Lemma parser_peek_at w c :
  buf (parser w) !! pos (parser w) = Some c -> parser_peek w = Done c w.
Proof.
  intros H. unfold parser_peek. cbv zeta.
  destruct (Nat.eqb_spec (pos (parser w)) (len (parser w))) as [E|E].
  - apply lookup_lt_Some in H. unfold len in E. lia.
  - rewrite H. reflexivity.
Qed.

Lemma parser_peek_end w :
  pos (parser w) = len (parser w) -> parser_peek w = Aborted AssertPosNotLen.
Proof.
  intros H. unfold parser_peek. cbv zeta. rewrite H, Nat.eqb_refl. reflexivity.
Qed.

Lemma parser_skip_at w c :
  buf (parser w) !! pos (parser w) = Some c ->
  parser_skip w = Done tt (with_parser w (advance (parser w) 1)).
Proof.
  intros H. unfold parser_skip. cbv zeta.
  destruct (Nat.eqb_spec (pos (parser w)) (len (parser w))) as [E|E].
  - apply lookup_lt_Some in H. unfold len in E. lia.
  - rewrite H. unfold with_parser, advance.
    rewrite (lookup_drop_cons _ _ _ H). simpl.
    rewrite Nat.add_1_r. destruct (is_newline c); reflexivity.
Qed.

Lemma parser_has_more_eq w :
  parser_has_more w = Done (negb (Nat.eqb (pos (parser w)) (len (parser w)))) w.
Proof. reflexivity. Qed.

Lemma skip_while_loop_eq pred n w :
  pos (parser w) <= len (parser w) ->
  len (parser w) - pos (parser w) <= n ->
  skip_while_loop n pred w =
  Done tt (with_parser w (advance (parser w)
             (prefix_len pred (drop (pos (parser w)) (buf (parser w)))))).
Proof.
  revert w. induction n as [|n IH]; intros w Hle Hn.
  - assert (E : pos (parser w) = len (parser w)) by lia.
    unfold len in E. rewrite E, drop_all. simpl.
    rewrite advance_0, with_parser_id. reflexivity.
  - simpl. unfold bind at 1. rewrite parser_has_more_eq.
    destruct (Nat.eqb_spec (pos (parser w)) (len (parser w))) as [E|E]; simpl.
    + unfold len in E. rewrite E, drop_all. simpl.
      rewrite advance_0, with_parser_id. reflexivity.
    + assert (Hlt : pos (parser w) < length (buf (parser w))) by (unfold len in *; lia).
      destruct (lookup_lt_is_Some_2 _ _ Hlt) as [c Hc].
      unfold bind at 1. rewrite (parser_peek_at _ _ Hc).
      rewrite (lookup_drop_cons _ _ _ Hc). simpl.
      destruct (pred c); simpl.
      * unfold bind. rewrite (parser_skip_at _ _ Hc).
        rewrite IH.
        -- simpl. rewrite advance_advance. simpl.
           replace (pos (parser w) + 1) with (S (pos (parser w))) by lia.
           reflexivity.
        -- simpl. unfold len in *. simpl. lia.
        -- simpl. unfold len in *. simpl. lia.
      * rewrite advance_0, with_parser_id. reflexivity.
Qed.

Lemma parser_skip_while_eq pred w :
  pos (parser w) <= len (parser w) ->
  parser_skip_while pred w =
  Done tt (with_parser w (advance (parser w)
             (prefix_len pred (drop (pos (parser w)) (buf (parser w)))))).
Proof.
  intros H. unfold parser_skip_while. apply skip_while_loop_eq; [exact H | lia].
Qed.

Lemma prefix_len_all pred l :
  Forall (fun c => pred c = true) l -> prefix_len pred l = length l.
Proof.
  induction 1 as [|c l Hc _ IH]; simpl; [reflexivity|].
  rewrite Hc, IH. reflexivity.
Qed.

(** ** Reads at the end of the buffer *)

(** Once only whitespace is left, an iteration of the loop of
    [parse_regex_symbols] skips it and peeks at [pos = len]. *)
Lemma parse_regex_symbols_loop_trailing_whitespace fuel w :
  pos (parser w) < len (parser w) ->
  Forall (fun c => is_whitespace c = true) (drop (pos (parser w)) (buf (parser w))) ->
  parse_regex_symbols_loop (S fuel) w = Aborted AssertPosNotLen.
Proof.
  intros Hlt Hws. simpl. unfold bind at 1. rewrite parser_has_more_eq.
  destruct (Nat.eqb_spec (pos (parser w)) (len (parser w))) as [E|_]; [lia|]. simpl.
  unfold bind at 1. unfold parser_skip_whitespace.
  rewrite parser_skip_while_eq by lia.
  rewrite (prefix_len_all _ _ Hws).
  unfold bind. rewrite parser_peek_end; [reflexivity|].
  simpl. unfold len in *. simpl. rewrite length_drop. lia.
Qed.

(** C10 (defect).  The grammar [a "x";] followed by a newline: after the
    definition the loop of [parse_regex_symbols] still has more input, skips
    the newline and calls [parser_peek] at [pos = len], whose assertion
    [pos != len] fails, however much fuel and memory there is. *)
Theorem parse_regex_symbols_peeks_past_trailing_newline :
  forall k b : nat,
    parse_regex_symbols (20 + k) (4 + b)
      (bytes ("a " ++ DQ ++ "x" ++ DQ ++ ";" ++ String newline EmptyString))
    = Aborted AssertPosNotLen.
Proof. intros k b. vm_compute. reflexivity. Qed.

(** ** Escapes *)

Lemma lookup_of_drop (l : list ascii) i c r :
  drop i l = c :: r -> l !! i = Some c /\ drop (S i) l = r.
Proof.
  revert i. induction l as [|x l IH]; intros [|i] H; simpl in *; try discriminate.
  - inversion H. rewrite drop_0. split; reflexivity.
  - apply IH. exact H.
Qed.

(** At an escape character the loop of [parse_literal] sets [escaped] and
    starts over without skipping it. *)
Lemma parse_literal_loop_at_escape fuel tree escaped w :
  buf (parser w) !! pos (parser w) = Some REGEX_PARSER_ESCAPE ->
  parse_literal_loop fuel tree escaped w = OutOfFuel.
Proof.
  intros H. revert tree escaped. induction fuel as [|fuel IH]; intros tree escaped.
  - reflexivity.
  - simpl. unfold bind at 1. rewrite parser_has_more_eq.
    destruct (Nat.eqb_spec (pos (parser w)) (len (parser w))) as [E|_].
    + apply lookup_lt_Some in H. unfold len in E. lia.
    + simpl. unfold bind at 1. rewrite (parser_peek_at _ _ H). simpl. apply IH.
Qed.

Lemma char_eqb_neq a b : a <> b -> char_eqb a b = false.
Proof. intros H. unfold char_eqb. apply Ascii.eqb_neq. exact H. Qed.

Lemma char_eqb_refl a : char_eqb a a = true.
Proof. unfold char_eqb. apply Ascii.eqb_refl. Qed.

(** The same once the characters before the escape are read, when memory
    for their nodes is there. *)
Lemma parse_literal_loop_reaches_escape body :
  forall fuel tree escaped w rest,
    drop (pos (parser w)) (buf (parser w)) = body ++ REGEX_PARSER_ESCAPE :: rest ->
    Forall plain body ->
    2 * length body <= avail w ->
    parse_literal_loop fuel tree escaped w = OutOfFuel.
Proof.
  induction body as [|c body IH]; intros fuel tree escaped w rest Hd Hp Hm.
  - apply parse_literal_loop_at_escape.
    simpl in Hd. apply lookup_of_drop in Hd. tauto.
  - destruct fuel as [|fuel]; [reflexivity|].
    simpl in Hd. apply lookup_of_drop in Hd. destruct Hd as [Hc Hd].
    inversion Hp as [|? ? [Hq He] Hp']; subst.
    simpl. unfold bind at 1. rewrite parser_has_more_eq.
    destruct (Nat.eqb_spec (pos (parser w)) (len (parser w))) as [E|_].
    { apply lookup_lt_Some in Hc. unfold len in E. lia. }
    simpl. unfold bind at 1. rewrite (parser_peek_at _ _ Hc).
    rewrite (char_eqb_neq _ _ He), (char_eqb_neq _ _ Hq), andb_false_r.
    simpl in Hm.
    destruct w as [p syms [|[|av]]]; simpl in Hm; try lia.
    destruct tree as [sp [lf|]]; unfold bind, create_regex_node, add_to_regex_tree, malloc;
      simpl; unfold bind, create_regex_node, malloc; simpl.
    + erewrite parser_skip_at by (simpl; exact Hc).
      eapply IH; simpl; [rewrite Nat.add_1_r; exact Hd | exact Hp' | lia].
    + erewrite parser_skip_at by (simpl; exact Hc).
      eapply IH; simpl; [rewrite Nat.add_1_r; exact Hd | exact Hp' | lia].
Qed.

Lemma parse_literal_with_escape fuel w :
  at_literal_with_escape w -> parse_literal fuel w = OutOfFuel.
Proof.
  intros (body & rest & Hd & Hp & Hm).
  apply lookup_of_drop in Hd. destruct Hd as [Hc Hd].
  unfold parse_literal, bind. rewrite (parser_skip_at _ _ Hc).
  eapply parse_literal_loop_reaches_escape; simpl; eauto.
  rewrite Nat.add_1_r. exact Hd.
Qed.

Lemma at_literal_peek w :
  at_literal_with_escape w ->
  parser_has_more w = Done true w /\ parser_peek w = Done REGEX_PARSER_LITERAL w.
Proof.
  intros (body & rest & Hd & _).
  apply lookup_of_drop in Hd. destruct Hd as [Hc _].
  split; [|apply parser_peek_at; exact Hc].
  rewrite parser_has_more_eq.
  destruct (Nat.eqb_spec (pos (parser w)) (len (parser w))) as [E|_]; [|reflexivity].
  apply lookup_lt_Some in Hc. unfold len in E. lia.
Qed.

Lemma parse_regex_expression_with_escape fuel w :
  at_literal_with_escape w -> parse_regex_expression fuel w = OutOfFuel.
Proof.
  intros H. destruct fuel as [|fuel]; [reflexivity|].
  destruct (at_literal_peek _ H) as [Hm Hk].
  simpl. unfold bind. rewrite Hm. simpl. rewrite Hk. simpl.
  apply parse_literal_with_escape. exact H.
Qed.

Lemma parse_regex_loop_with_escape fuel w :
  at_literal_with_escape w -> parse_regex_loop fuel w = OutOfFuel.
Proof.
  intros H. destruct fuel as [|fuel]; [reflexivity|].
  simpl. unfold bind. rewrite parse_regex_expression_with_escape by exact H.
  reflexivity.
Qed.

Lemma parse_regex_sequence_loop_with_escape fuel tree w :
  at_literal_with_escape w -> parse_regex_sequence_loop fuel tree w = OutOfFuel.
Proof.
  intros H. destruct fuel as [|fuel]; [reflexivity|].
  destruct (at_literal_peek _ H) as [Hm Hk].
  simpl. unfold bind. rewrite Hm. simpl. rewrite Hk. simpl.
  rewrite parse_regex_loop_with_escape by exact H. reflexivity.
Qed.

Lemma parse_regex_branch_loop_with_escape fuel tree w :
  at_literal_with_escape w -> parse_regex_branch_loop fuel tree w = OutOfFuel.
Proof.
  intros H. destruct fuel as [|fuel]; [reflexivity|].
  destruct (at_literal_peek _ H) as [Hm Hk].
  simpl. unfold bind. rewrite Hm. simpl. rewrite Hk. simpl.
  rewrite parse_regex_sequence_loop_with_escape by exact H. reflexivity.
Qed.

(** No amount of fuel lets [parse_regex_statement] return from a statement
    that begins with a literal holding an escape. *)
Lemma parse_regex_statement_with_escape fuel w :
  at_literal_with_escape w -> parse_regex_statement fuel w = OutOfFuel.
Proof.
  intros H. unfold parse_regex_statement, parse_regex_branch, bind.
  rewrite parse_regex_branch_loop_with_escape by exact H. reflexivity.
Qed.

Lemma parse_regex_symbols_loop_S fuel :
  parse_regex_symbols_loop (S fuel) =
  (more <- parser_has_more ;;
   if negb more then ret tt
   else
     parser_skip_whitespace ;;;
     c <- parser_peek ;;
     if char_eqb c REGEX_PARSER_COMMENT then
       parser_skip_comment ;;;
       parse_regex_symbols_loop fuel
     else
       r <- parse_symbol fuel ;;
       if negb (Z.eqb r 0) then ret tt
       else parse_regex_symbols_loop fuel).
Proof. reflexivity. Qed.

Lemma escaped_quote_source_at_literal b :
  at_literal_with_escape
    (mk_world (mk_parser escaped_quote_source 2 None 1 3)
              [mk_symbol ["a"] false None] (2 + b)).
Proof.
  exists ["x"], (bytes (DQ ++ "y" ++ DQ ++ ";")). simpl.
  split; [reflexivity|]. split; [|lia].
  constructor; [|constructor]. split; discriminate.
Qed.

(** C5 (defect).  The grammar [escaped_quote_source] defines [a] as the
    literal of x, an escaped double quote and y.  Once the memory for the
    symbol and the node of x is there, [parse_regex_symbols] does not
    return, whatever the fuel: the loop of [parse_literal] stays at the
    escape character. *)
Theorem parse_regex_symbols_never_returns_from_escape :
  forall fuel b : nat,
    parse_regex_symbols fuel (5 + b) escaped_quote_source = OutOfFuel.
Proof.
  intros fuel b.
  assert (Hsym : forall f w,
    w = mk_world (mk_parser escaped_quote_source 0 None 1 1) [] (3 + b) ->
    parse_symbol f w = OutOfFuel).
  { intros f w ->. cbv -[parse_regex_statement].
    erewrite parse_regex_statement_with_escape; [reflexivity|].
    exact (escaped_quote_source_at_literal b). }
  assert (Hloop : forall f w,
    w = mk_world (mk_parser escaped_quote_source 0 None 1 1) [] (3 + b) ->
    parse_regex_symbols_loop f w = OutOfFuel).
  { intros [|f] w ->; [reflexivity|].
    rewrite parse_regex_symbols_loop_S.
    cbv -[parse_symbol parse_regex_symbols_loop].
    erewrite Hsym; reflexivity. }
  unfold parse_regex_symbols, parse_regex_symbols_body.
  cbv -[parse_regex_symbols_loop].
  erewrite Hloop; reflexivity.
Qed.

(** Inside a range bound the escape is skipped and the next character is
    the bound, whatever it is. *)
Lemma parse_regex_range_bound_escape w c :
  buf (parser w) !! pos (parser w) = Some REGEX_PARSER_ESCAPE ->
  buf (parser w) !! S (pos (parser w)) = Some c ->
  parse_regex_range_bound w = Done (Some c) (with_parser w (advance (parser w) 2)).
Proof.
  intros H0 H1. unfold parse_regex_range_bound.
  unfold bind at 1. rewrite parser_has_more_eq.
  destruct (Nat.eqb_spec (pos (parser w)) (len (parser w))) as [E|_].
  { apply lookup_lt_Some in H0. unfold len in E. lia. }
  simpl. unfold bind at 1. rewrite (parser_peek_at _ _ H0).
  unfold bind at 1. rewrite (parser_skip_at _ _ H0).
  rewrite char_eqb_refl.
  set (w1 := with_parser w (advance (parser w) 1)).
  assert (H1' : buf (parser w1) !! pos (parser w1) = Some c).
  { simpl. rewrite Nat.add_1_r. exact H1. }
  unfold bind at 1. rewrite parser_has_more_eq.
  destruct (Nat.eqb_spec (pos (parser w1)) (len (parser w1))) as [E|_].
  { apply lookup_lt_Some in H1'. unfold len in E. lia. }
  cbn [negb]. unfold bind at 1. rewrite (parser_peek_at _ _ H1').
  unfold bind. rewrite (parser_skip_at _ _ H1').
  unfold ret, w1, with_parser. simpl. rewrite advance_advance. reflexivity.
Qed.

(** ** Fuel *)

(** More fuel only turns [OutOfFuel] into a result: it never changes one. *)

Lemma refines_refl {A} (m : M A) : refines m m.
Proof. intros w. right. reflexivity. Qed.

Lemma refines_out_of_fuel {A} (m : M A) : refines out_of_fuel m.
Proof. intros w. left. reflexivity. Qed.

Lemma refines_bind {A B} (m1 m2 : M A) (k1 k2 : A -> M B) :
  refines m1 m2 -> (forall a, refines (k1 a) (k2 a)) ->
  refines (bind m1 k1) (bind m2 k2).
Proof.
  intros Hm Hk w. unfold bind. destruct (Hm w) as [E|E].
  - left. rewrite E. reflexivity.
  - rewrite E. destruct (m2 w) as [a w'| |]; [apply Hk | right | right]; reflexivity.
Qed.

Ltac refine_step :=
  first
    [ apply refines_refl
    | assumption
    | apply refines_out_of_fuel
    | apply refines_bind; [|intros ?]
    | match goal with
      | |- refines (if ?b then _ else _) (if ?b then _ else _) => destruct b
      | |- refines (match ?x with _ => _ end) (match ?x with _ => _ end) => destruct x
      end ].

Lemma parse_literal_loop_mono n :
  forall m tree escaped, n <= m ->
    refines (parse_literal_loop n tree escaped) (parse_literal_loop m tree escaped).
Proof.
  induction n as [|n IH]; intros m tree escaped Hle.
  - apply refines_out_of_fuel.
  - destruct m as [|m]; [lia|]. assert (Hle' : n <= m) by lia.
    simpl. repeat first [ apply IH; exact Hle' | refine_step ].
Qed.

Lemma parse_literal_mono n m :
  n <= m -> refines (parse_literal n) (parse_literal m).
Proof.
  intros Hle. unfold parse_literal.
  apply refines_bind; [apply refines_refl|]. intros _.
  apply parse_literal_loop_mono. exact Hle.
Qed.

Lemma descent_mono n :
  forall m, n <= m ->
    (forall tree, refines (parse_regex_branch_loop n tree) (parse_regex_branch_loop m tree))
    /\ (forall tree, refines (parse_regex_sequence_loop n tree) (parse_regex_sequence_loop m tree))
    /\ refines (parse_regex_loop n) (parse_regex_loop m)
    /\ refines (parse_regex_expression n) (parse_regex_expression m)
    /\ refines (parse_regex_group n) (parse_regex_group m).
Proof.
  induction n as [|n IH]; intros m Hle.
  - repeat split; intros; apply refines_out_of_fuel.
  - destruct m as [|m]; [lia|]. assert (Hle' : n <= m) by lia.
    destruct (IH m Hle') as (Hb & Hs & Hl & He & Hg).
    pose proof (parse_literal_mono n m Hle') as Hlit.
    repeat split; intros; simpl;
      repeat first [ apply Hb | apply Hs | exact Hl | exact He | exact Hg | exact Hlit
                   | refine_step ].
Qed.

Lemma parse_regex_statement_mono n m :
  n <= m -> refines (parse_regex_statement n) (parse_regex_statement m).
Proof.
  intros Hle. unfold parse_regex_statement, parse_regex_branch.
  apply refines_bind; [apply (descent_mono n m Hle)|]. intros b. apply refines_refl.
Qed.

Lemma parse_symbol_mono n m :
  n <= m -> refines (parse_symbol n) (parse_symbol m).
Proof.
  intros Hle. pose proof (parse_regex_statement_mono n m Hle) as Hst.
  unfold parse_symbol. repeat first [ exact Hst | refine_step ].
Qed.

Lemma parse_regex_symbols_loop_mono n :
  forall m, n <= m -> refines (parse_regex_symbols_loop n) (parse_regex_symbols_loop m).
Proof.
  induction n as [|n IH]; intros m Hle.
  - apply refines_out_of_fuel.
  - destruct m as [|m]; [lia|]. assert (Hle' : n <= m) by lia.
    pose proof (parse_symbol_mono n m Hle') as Hsym.
    rewrite !parse_regex_symbols_loop_S.
    repeat first [ apply IH; exact Hle' | exact Hsym | refine_step ].
Qed.

(** A result of [parse_regex_symbols] does not depend on the fuel that was
    enough to reach it. *)
Lemma parse_regex_symbols_fuel n m budget source r :
  n <= m ->
  parse_regex_symbols n budget source = r ->
  r <> OutOfFuel ->
  parse_regex_symbols m budget source = r.
Proof.
  intros Hle Hr Hne.
  assert (H : refines (parse_regex_symbols_body n source) (parse_regex_symbols_body m source)).
  { unfold parse_regex_symbols_body.
    pose proof (parse_regex_symbols_loop_mono n m Hle) as Hloop.
    repeat first [ exact Hloop | refine_step ]. }
  unfold parse_regex_symbols in *.
  destruct (H (initial_world budget)) as [E|E]; congruence.
Qed.

(** ** The completeness check *)

Lemma check_regex_symbols_finds (syms : regex_symbols) :
  (exists s, s ∈ syms /\ expression s = None) ->
  exists s, s ∈ syms /\ expression s = None
            /\ check_regex_symbols syms = UndefinedSymbol (name s).
Proof.
  induction syms as [|s0 syms IH]; intros (s & Hin & He).
  - inversion Hin.
  - simpl. destruct (expression s0) eqn:E0.
    + destruct IH as (s' & Hin' & He' & Hc).
      * inversion Hin; subst; [congruence|]. exists s. split; assumption.
      * exists s'. split; [right; exact Hin'|]. split; assumption.
    + exists s0. split; [left|]. split; [exact E0 | reflexivity].
Qed.

(** C6.  When the loop of [parse_regex_symbols] is left with a symbol that
    has no expression in the table, [check_regex_symbols] returns [-1] and
    reports the name of such a symbol, and [parse_regex_symbols] returns
    NULL. *)
Theorem undefined_symbol_fails_the_parse (w : world) :
  (exists s, s ∈ symbols w /\ expression s = None) ->
  exists s, s ∈ symbols w /\ expression s = None
            /\ check_regex_symbols (symbols w) = UndefinedSymbol (name s)
            /\ check_status (check_regex_symbols (symbols w)) = (-1)%Z
            /\ parse_regex_symbols_finish w = Done None w.
Proof.
  intros H. destruct (check_regex_symbols_finds _ H) as (s & Hin & He & Hc).
  exists s. split; [exact Hin|]. split; [exact He|]. split; [exact Hc|]. split.
  - rewrite Hc. reflexivity.
  - unfold parse_regex_symbols_finish, bind, get_parser, get_symbols, ret.
    cbv beta iota. destruct (parser_ok (parser w)); cbv beta iota delta [negb];
      [rewrite Hc|]; reflexivity.
Qed.

Lemma undefined_reference_loop k b :
  (read_regex_file undefined_reference_source ;;;
   malloc ;;; set_symbols [] ;;; parse_regex_symbols_loop (20 + k))
    (initial_world (5 + b))
  = Done tt (undefined_reference_world b).
Proof. vm_compute. reflexivity. Qed.

Lemma undefined_symbol_fails_the_parse_witness :
  (exists s, s ∈ symbols (undefined_reference_world 0) /\ expression s = None)
  /\ exists s, s ∈ symbols (undefined_reference_world 0) /\ expression s = None
     /\ check_regex_symbols (symbols (undefined_reference_world 0)) = UndefinedSymbol (name s)
     /\ check_status (check_regex_symbols (symbols (undefined_reference_world 0))) = (-1)%Z
     /\ parse_regex_symbols_finish (undefined_reference_world 0)
        = Done None (undefined_reference_world 0).
Proof.
  assert (H : exists s, s ∈ symbols (undefined_reference_world 0) /\ expression s = None).
  { exists (mk_symbol (bytes "undefined") false None). split; [|reflexivity].
    simpl. right. left. }
  split; [exact H|].
  exact (undefined_symbol_fails_the_parse (undefined_reference_world 0) H).
Defined.

Example undefined_reference_rejected k b :
  parse_regex_symbols (20 + k) (5 + b) undefined_reference_source
  = Done None (undefined_reference_world b).
Proof. vm_compute. reflexivity. Qed.

(** ** Destruction *)

(** [destroy_regex_node] calls [free] once per node the tree owns. *)
Lemma destroy_regex_node_frees_owned_nodes node :
  length (destroy_regex_node node) = node_count node.
Proof.
  induction node as [l IHl r IHr | l IHl r IHr | | b IHb | ]; simpl;
    rewrite ?length_app, ?IHl, ?IHr, ?IHb; simpl; lia.
Qed.

(** It frees a reference node without looking at the symbol behind it. *)
Lemma destroy_regex_node_reference s :
  destroy_regex_node (Reference s) = [Reference s].
Proof. reflexivity. Qed.

(** C9 (defect).  [destroy_regex_symbols] walks the list of symbols and
    frees nothing: no node of any expression tree is passed to
    [destroy_regex_node], so on a table such as the single symbol defined as
    a range every node is freed zero times, not once. *)
Theorem destroy_regex_symbols_frees_nothing :
  (forall syms : regex_symbols, destroy_regex_symbols syms = [])
  /\ destroy_regex_symbols [mk_symbol ["a"] true (Some (Range 120 121))] = []
  /\ destroy_regex_node (Range 120 121) = [Range 120 121].
Proof.
  split; [|split; reflexivity].
  induction syms as [|s syms IH]; simpl; [reflexivity | exact IH].
Qed.

(** ** The matcher *)

(** C1 (defect).  [match_regex] returns [0], its success value, for every
    matcher and input, and leaves the match length and the symbol of the
    matcher as they were: also on an automaton without any state, where no
    entry can accept. *)
Theorem match_regex_reports_success_without_matching :
  (forall m input, match_regex m input = (0%Z, m))
  /\ match_regex (mk_matcher (mk_nfa [] 0 []) [] 0 0 0) ["a"]
     = (0%Z, mk_matcher (mk_nfa [] 0 []) [] 0 0 0).
Proof. split; reflexivity. Qed.

(** The loop of [match_regex_nfa] never moves along the input: it stops at
    once with result [0] and length [0], on an empty input or an empty
    stack, and otherwise does not stop. *)
Lemma match_regex_nfa_never_accepts fuel n m str r m' :
  RegexNfa.match_regex_nfa fuel n m str = Some (r, m') ->
  r = 0%Z /\ RegexNfa.m_result m' = 0%Z /\ RegexNfa.m_len m' = 0.
Proof.
  unfold RegexNfa.match_regex_nfa. generalize 0 at 2 as q.
  induction fuel as [|fuel IH]; intros q H; simpl in H; [discriminate|].
  destruct str as [|ch str].
  - unfold RegexNfa.finish in H. inversion H; subst. simpl. auto.
  - destruct (RegexNfa.stack_size m).
    + unfold RegexNfa.finish in H. inversion H; subst. simpl. auto.
    + destruct (RegexNfa.states n !! q) as [st|]; [|discriminate].
      destruct (Z.eqb (RegexNfa.predicate st) 0); [eapply IH; exact H|].
      destruct (Z.eqb (RegexNfa.predicate st) (int_of_char ch)); eapply IH; exact H.
Qed.

Lemma match_regex_nfa_does_not_return fuel n m ch str :
  RegexNfa.stack_size m <> 0 ->
  RegexNfa.match_regex_nfa fuel n m (ch :: str) = None.
Proof.
  intros Hs. unfold RegexNfa.match_regex_nfa. generalize 0 at 2 as q.
  induction fuel as [|fuel IH]; intros q; simpl; [reflexivity|].
  destruct (RegexNfa.stack_size m); [congruence|].
  destruct (RegexNfa.states n !! q) as [st|]; [|reflexivity].
  destruct (Z.eqb (RegexNfa.predicate st) 0); [apply IH|].
  destruct (Z.eqb (RegexNfa.predicate st) (int_of_char ch)); apply IH.
Qed.

(** ** Compilation *)

(** C3 (defect).  [build_regex_nfa_from_node] returns [-1] on a reference
    node without attempting an allocation.  The grammar [reference_source]
    defines its first symbol as a reference to the second; its table passes
    the completeness check, and [parse_regex_nfa] returns [-1] on it
    whatever number of allocations is still available. *)
Theorem reference_node_fails_to_compile :
  (forall n avail s,
      build_regex_nfa_from_node n avail (Reference s) = Built (-1) n avail None None)
  /\ forall k b : nat,
      parse_regex_symbols (20 + k) (12 + b) reference_source
      = Done (Some reference_table)
             (mk_world (mk_parser reference_source 19 None 1 20) reference_table (4 + b))
      /\ check_regex_symbols reference_table = AllDefined
      /\ parse_regex_nfa (20 + k) (12 + b) reference_source
         = NfaDone (-1)
             (mk_nfa [mk_state (Some 0%Z) (Some 0%Z) None None (Some (-1)%Z)] 32
                     [["a"]; ["b"]]) b.
Proof.
  split; [reflexivity|]. intros k b.
  split; [|split]; vm_compute; reflexivity.
Qed.

(** The builders of sequences and branches return [0] and leave [*first]
    and [*last] unset. *)
Lemma sequence_and_branch_builders_are_empty n avail l r :
  build_regex_nfa_from_node n avail (Sequence l r) = Built 0 n avail None None
  /\ build_regex_nfa_from_node n avail (Branch l r) = Built 0 n avail None None.
Proof. split; reflexivity. Qed.

(** [build_regex_nfa] then indexes the states with the unset [last]. *)
Lemma build_regex_nfa_sequence n avail start nm lx l r id :
  build_regex_nfa n avail start (mk_symbol nm lx (Some (Sequence l r))) id
  = NfaAborted IndeterminateIndex.
Proof. reflexivity. Qed.

(** ** The dispatch chain *)

Lemma copy_names_loop_all (syms rest : regex_symbols) b :
  copy_names_loop (syms ++ rest) (length syms) (length syms + b)
  = Some (map name syms, b).
Proof.
  induction syms as [|s syms IH]; simpl; [reflexivity|].
  rewrite IH. reflexivity.
Qed.

(** [copy_regex_symbol_names] counts the steps to the last symbol, not the
    symbols: the name of the last symbol is not copied. *)
Lemma copy_regex_symbol_names_omits_last (syms : regex_symbols) s b :
  syms <> [] ->
  copy_regex_symbol_names (syms ++ [s]) (S (length syms) + b)
  = Copied (Some (map name syms, b)).
Proof.
  intros Hne. destruct syms as [|s0 syms]; [congruence|].
  pose proof (copy_names_loop_all (s0 :: syms) [s] b) as H.
  unfold copy_regex_symbol_names.
  change ((s0 :: syms) ++ [s]) with (s0 :: (syms ++ [s])) in *.
  assert (E : length (syms ++ [s]) = S (length syms)).
  { rewrite length_app. simpl. lia. }
  cbv iota. rewrite E. simpl Nat.eqb. cbv iota.
  change (S (length (s0 :: syms)) + b) with (S (length (s0 :: syms) + b)).
  cbv iota. simpl length in *. rewrite H. reflexivity.
Qed.

(** *** The chain in general *)

Lemma insert_as_alter (l : list regex_state) k f st :
  l !! k = Some st -> <[k := f st]> l = alter f k l.
Proof.
  revert k. induction l as [|x l IH]; intros [|k] E; simpl in *; try discriminate.
  - inversion E. reflexivity.
  - f_equal. apply IH. exact E.
Qed.

Lemma alter_out_of_range (l : list regex_state) k f :
  l !! k = None -> alter f k l = l.
Proof.
  revert k. induction l as [|x l IH]; intros [|k] E; simpl in *;
    try discriminate; try reflexivity.
  f_equal. apply IH. exact E.
Qed.

Lemma set_state_app pre l size names k f :
  set_state (mk_nfa (pre ++ l) size names) (length pre + k) f
  = mk_nfa (pre ++ alter f k l) size names.
Proof.
  unfold set_state. simpl.
  rewrite lookup_app_r by lia.
  replace (length pre + k - length pre) with k by lia.
  destruct (l !! k) as [st|] eqn:E.
  - rewrite insert_app_r_alt by lia.
    replace (length pre + k - length pre) with k by lia.
    rewrite (insert_as_alter _ _ _ _ E). reflexivity.
  - rewrite (alter_out_of_range _ _ _ E). reflexivity.
Qed.

Lemma set_state_app0 pre l size names f :
  set_state (mk_nfa (pre ++ l) size names) (length pre) f
  = mk_nfa (pre ++ alter f 0 l) size names.
Proof. rewrite <- (Nat.add_0_r (length pre)) at 1. apply set_state_app. Qed.

Lemma parse_regex_nfa_loop_step s rest n avail start index :
  rest <> [] ->
  parse_regex_nfa_loop (s :: rest) n avail start index
  = let n1 := set_state n start (set_lower 0) in
    let n2 := set_state n1 start (set_upper 0) in
    let n3 := set_state n2 start (set_end (-1)) in
    match build_regex_nfa n3 avail start s index with
    | NfaDone r n4 avail4 =>
        if Z.eqb r (-1) then NfaDone (-1) n4 avail4
        else
          match add_regex_state n4 avail4 with
          | None => NfaDone (-1) n4 avail4
          | Some (next_state, n5, avail5) =>
              if negb (Nat.eqb (nfa_size n5) (nfa_size n)) then NfaAborted StalePointer
              else
                let n6 := set_state n5 start (set_otherwise (Some next_state)) in
                parse_regex_nfa_loop rest n6 avail5 next_state (index + 1)
          end
    | other => other
    end.
Proof. intros H. destruct rest; [congruence | reflexivity]. Qed.

Lemma add_regex_state_fits sts size names avail :
  length sts < size ->
  add_regex_state (mk_nfa sts size names) avail
  = Some (length sts, mk_nfa (sts ++ [fresh_state]) size names, avail).
Proof.
  intros H. unfold add_regex_state, nfa_len. simpl.
  destruct (Nat.eqb_spec (length sts) size) as [E|_]; [lia | reflexivity].
Qed.

(** The chain of the symbols that are defined as ranges, as long as the
    array of the states has room for it: no state is added with [realloc],
    so that [state] points into the array at every store. *)
Lemma parse_regex_nfa_loop_ranges :
  forall syms rs last pre size names avail index,
    Forall2 defined_as_range syms rs ->
    length pre + 2 * length syms < size ->
    parse_regex_nfa_loop (syms ++ [last]) (mk_nfa (pre ++ [fresh_state]) size names)
                         avail (length pre) index
    = NfaDone 0 (mk_nfa (pre ++ chain_states rs (length pre) index ++ [fresh_state])
                        size names) avail.
Proof.
  induction syms as [|s syms IH]; intros rs last pre size names avail index Hr Ha.
  - inversion Hr; subst. reflexivity.
  - inversion Hr as [|? r ? rs' Hs Hr']; subst.
    change ((s :: syms) ++ [last]) with (s :: (syms ++ [last])).
    rewrite parse_regex_nfa_loop_step by (destruct syms; discriminate).
    cbv zeta. simpl in Ha.
    rewrite !set_state_app0. cbn [alter list_alter].
    unfold build_regex_nfa. rewrite Hs. cbn [build_regex_nfa_from_node].
    unfold build_regex_range_nfa.
    rewrite add_regex_state_fits by (rewrite length_app; simpl; lia).
    rewrite length_app. cbn [length].
    rewrite <- !app_assoc. cbn [app].
    rewrite !set_state_app. cbn [alter list_alter].
    change (0 =? 0)%Z with true. cbv iota.
    rewrite !set_state_app0. cbn [alter list_alter].
    rewrite !set_state_app. cbn [alter list_alter].
    change (0 =? -1)%Z with false. cbv iota.
    rewrite add_regex_state_fits by (rewrite length_app; simpl; lia).
    cbn [nfa_size]. rewrite Nat.eqb_refl. cbn [negb].
    rewrite length_app. cbn [length].
    rewrite <- !app_assoc. cbn [app].
    rewrite !set_state_app0. cbn [alter list_alter].
    specialize (IH rs' last (pre ++ [dispatch_state (length pre);
                                     range_state (fst r) (snd r) index])
                   size names avail (index + 1)%Z Hr').
    rewrite length_app in IH. cbn [length] in IH.
    rewrite <- !app_assoc in IH. cbn [app] in IH.
    replace (length pre + 2) with (S (S (length pre))) in * by lia.
    replace (length pre + 1) with (S (length pre)) in * by lia.
    apply IH. lia.
Qed.

(** A table of at most sixteen symbols, of which all but the last are
    defined as ranges, compiles, when memory suffices, to the chain of their
    states in the first array of [INITIAL_REGEX_NFA_BUFFER_SIZE] states: the
    names and the dispatch entries are those of all symbols but the last,
    whether lexemes or not. *)
Lemma parse_regex_nfa_build_ranges syms rs last b :
  syms <> [] ->
  Forall2 defined_as_range syms rs ->
  2 * length syms < INITIAL_REGEX_NFA_BUFFER_SIZE ->
  parse_regex_nfa_build (syms ++ [last]) (S (length syms) + (1 + b))
  = NfaDone 0 (mk_nfa (chain_states rs 0 0 ++ [fresh_state])
                      INITIAL_REGEX_NFA_BUFFER_SIZE (map name syms)) b.
Proof.
  intros Hne Hr Hfit. unfold parse_regex_nfa_build.
  rewrite (copy_regex_symbol_names_omits_last syms last _ Hne).
  change (add_regex_state (mk_nfa [] 0 (map name syms)) (1 + b))
    with (Some (0, mk_nfa [fresh_state] INITIAL_REGEX_NFA_BUFFER_SIZE (map name syms), b)).
  cbv beta iota.
  exact (parse_regex_nfa_loop_ranges syms rs last [] INITIAL_REGEX_NFA_BUFFER_SIZE
           (map name syms) b 0%Z Hr Hfit).
Qed.

(** C4 (defect).  The loop of [parse_regex_nfa] stops when the last symbol
    is reached, without building it.  For [two_lexemes_source], the
    lexemes [a] and [b], the automaton has the name and the dispatch entry
    of [a] only; the lexeme flag is not looked at, and for
    [fragment_first_source] the fragment [f] gets the entry. *)
Theorem last_symbol_gets_no_dispatch_entry :
  (forall s n avail start index,
      parse_regex_nfa_loop [s] n avail start index = NfaDone 0 n avail)
  /\ forall k b : nat,
      parse_regex_nfa (20 + k) (9 + b) two_lexemes_source
      = NfaDone 0 (one_entry_nfa ["a"]) b
      /\ parse_regex_nfa (20 + k) (9 + b) fragment_first_source
         = NfaDone 0 (one_entry_nfa ["f"]) b.
Proof.
  split; [reflexivity|]. intros k b. split; vm_compute; reflexivity.
Qed.

(** The thirty-third state does not fit the first array: it is added in the
    turn of the sixteenth symbol, and the store of that turn through [state]
    goes into the array that [realloc] has released. *)
Example parse_regex_nfa_stores_into_released_array :
  parse_regex_nfa 200 100 seventeen_symbols_source = NfaAborted StalePointer.
Proof. vm_compute. reflexivity. Qed.

(** ** The symbol table *)

(** The comparison is equality of the bytes. *)
Lemma regex_symbol_name_eq_iff l r :
  regex_symbol_name_eq l r = true <-> l = r.
Proof.
  revert r. induction l as [|c l IH]; intros [|x r]; simpl; split; intros H;
    try reflexivity; try discriminate.
  - unfold char_eqb in H. destruct (Ascii.eqb_spec c x) as [->|]; [|discriminate].
    f_equal. apply IH. exact H.
  - inversion H; subst. rewrite char_eqb_refl. apply IH. reflexivity.
Qed.

Lemma regex_symbol_name_eq_false l r :
  l <> r -> regex_symbol_name_eq l r = false.
Proof.
  intros H. destruct (regex_symbol_name_eq l r) eqn:E; [|reflexivity].
  apply regex_symbol_name_eq_iff in E. contradiction.
Qed.

Example regex_symbol_name_eq_is_case_sensitive :
  regex_symbol_name_eq ["a"; "b"] ["A"; "b"] = false
  /\ regex_symbol_name_eq ["a"; "b"] ["a"; "b"] = true
  /\ regex_symbol_name_eq ["a"; "b"] ["a"] = false
  /\ regex_symbol_name_eq ["a"] ["a"; "b"] = false.
Proof. repeat split. Qed.

Lemma find_regex_symbol_first (syms : regex_symbols) nm k i s :
  syms !! i = Some s ->
  name s = nm ->
  (forall j s', j < i -> syms !! j = Some s' -> name s' <> nm) ->
  find_regex_symbol syms nm k = Some (k + i).
Proof.
  revert k i. induction syms as [|s0 syms IH]; intros k i Hi Hn Hfirst.
  - discriminate.
  - destruct i as [|i]; simpl in *.
    + inversion Hi; subst.
      rewrite (proj2 (regex_symbol_name_eq_iff _ _) eq_refl).
      f_equal. lia.
    + rewrite regex_symbol_name_eq_false.
      * rewrite (IH (S k) i Hi Hn); [f_equal; lia|].
        intros j s' Hj Hs'. apply (Hfirst (S j) s'); [lia | exact Hs'].
      * apply (Hfirst 0 s0); [lia | reflexivity].
Qed.

Lemma find_regex_symbol_none (syms : regex_symbols) nm k :
  (forall s, s ∈ syms -> name s <> nm) ->
  find_regex_symbol syms nm k = None.
Proof.
  revert k. induction syms as [|s0 syms IH]; intros k H; simpl; [reflexivity|].
  rewrite regex_symbol_name_eq_false by (apply H; left).
  apply IH. intros s Hs. apply H. right. exact Hs.
Qed.

(** C8 (counterexample).  For a name of 128 bytes no symbol is returned and
    none is created, although no symbol of that name is registered and
    memory is left: the name is rejected as too long. *)
Lemma get_or_create_regex_symbol_rejects_long_name :
  ~ get_or_create_returns_symbol long_name_world 0 128
  /\ get_or_create_regex_symbol 0 128 long_name_world
     = Done None
         (mk_world (mk_parser (replicate 128 "a") 0 (Some "reference name too long"%string) 1 1)
                   [] 1).
Proof.
  split; [|reflexivity].
  intros (i & w' & H & _). vm_compute in H. discriminate.
Qed.

(** Nor is one created when the allocation fails. *)
Lemma get_or_create_regex_symbol_out_of_memory :
  get_or_create_regex_symbol 2 1
    (mk_world (mk_parser (bytes "a b") 0 None 1 1) [mk_symbol ["a"] true None] 0)
  = Done None
      (mk_world (mk_parser (bytes "a b") 0 None 1 1) [mk_symbol ["a"] true None] 0).
Proof. reflexivity. Qed.

(** A registered name is found, and nothing changes. *)
Lemma get_or_create_regex_symbol_found (w : world) (start n : nat) i s :
  n + 1 <= MAX_REGEX_SYMBOL_NAME_LENGTH ->
  symbols w !! i = Some s ->
  name s = parser_at (parser w) start n ->
  (forall j s', j < i -> symbols w !! j = Some s' ->
                name s' <> parser_at (parser w) start n) ->
  get_or_create_regex_symbol start n w = Done (Some i) w.
Proof.
  intros Hn Hi Hs Hfirst. unfold get_or_create_regex_symbol.
  destruct (Nat.ltb_spec MAX_REGEX_SYMBOL_NAME_LENGTH (n + 1)) as [Hgt|_]; [lia|].
  unfold bind, get_parser, get_symbols, ret.
  rewrite (find_regex_symbol_first _ _ 0 i s Hi Hs Hfirst). reflexivity.
Qed.

(** A name that is not registered gets a new symbol at the tail. *)
Lemma get_or_create_regex_symbol_new (w : world) (start n a : nat) :
  n + 1 <= MAX_REGEX_SYMBOL_NAME_LENGTH ->
  (forall s, s ∈ symbols w -> name s <> parser_at (parser w) start n) ->
  avail w = S a ->
  get_or_create_regex_symbol start n w
  = Done (Some (length (symbols w)))
         (mk_world (parser w)
                   (symbols w ++ [mk_symbol (parser_copy_string (parser w) start n)
                                            false None])
                   a).
Proof.
  intros Hn Hnone Ha. unfold get_or_create_regex_symbol.
  destruct (Nat.ltb_spec MAX_REGEX_SYMBOL_NAME_LENGTH (n + 1)) as [Hgt|_]; [lia|].
  unfold bind, get_parser, get_symbols, ret.
  rewrite (find_regex_symbol_none _ _ 0 Hnone).
  unfold malloc, set_symbols. rewrite Ha. reflexivity.
Qed.

(** C8 (amended).  For a name of at most 127 bytes,
    [get_or_create_regex_symbol] returns the first registered symbol whose
    name has the same bytes and changes nothing; when there is none and
    the allocation succeeds, it appends a symbol without expression behind
    the registered ones, which stay as they are, and returns it. *)
Theorem get_or_create_regex_symbol_spec (w : world) (start n : nat) :
  n + 1 <= MAX_REGEX_SYMBOL_NAME_LENGTH ->
  (forall i s,
      symbols w !! i = Some s ->
      name s = parser_at (parser w) start n ->
      (forall j s', j < i -> symbols w !! j = Some s' ->
                    name s' <> parser_at (parser w) start n) ->
      get_or_create_regex_symbol start n w = Done (Some i) w)
  /\ ((forall s, s ∈ symbols w -> name s <> parser_at (parser w) start n) ->
      forall a, avail w = S a ->
      get_or_create_regex_symbol start n w
      = Done (Some (length (symbols w)))
             (mk_world (parser w)
                       (symbols w ++ [mk_symbol (parser_copy_string (parser w) start n)
                                                false None])
                       a)).
Proof.
  intros Hn. split.
  - intros i s. apply get_or_create_regex_symbol_found. exact Hn.
  - intros Hnone a. apply get_or_create_regex_symbol_new; assumption.
Qed.

Lemma get_or_create_regex_symbol_spec_witness :
  1 + 1 <= MAX_REGEX_SYMBOL_NAME_LENGTH
  /\ get_or_create_regex_symbol 0 1 get_or_create_world
     = Done (Some 0) get_or_create_world
  /\ get_or_create_regex_symbol 2 1 get_or_create_world
     = Done (Some 1)
         (mk_world (mk_parser (bytes "a b") 0 None 1 1)
                   [mk_symbol ["a"] true None; mk_symbol ["b"] false None] 0).
Proof.
  assert (H : 1 + 1 <= MAX_REGEX_SYMBOL_NAME_LENGTH) by (unfold MAX_REGEX_SYMBOL_NAME_LENGTH; lia).
  split; [exact H|]. split.
  - apply (proj1 (get_or_create_regex_symbol_spec get_or_create_world 0 1 H)
             0 (mk_symbol ["a"] true None)).
    + reflexivity.
    + reflexivity.
    + intros j s' Hj. lia.
  - apply (proj2 (get_or_create_regex_symbol_spec get_or_create_world 2 1 H)).
    + intros s Hs. apply list_elem_of_singleton in Hs. subst s. simpl. discriminate.
    + reflexivity.
Defined.

(** ** Duplicate definitions *)

Lemma bind_Done {A B} (m : M A) (k : A -> M B) w a w' :
  m w = Done a w' -> bind m k w = k a w'.
Proof. intros H. unfold bind. rewrite H. reflexivity. Qed.

(** When [parse_symbol] is called at a definition (an optional [@] and the
    run of identifier characters behind it) whose name is that of a symbol
    with an expression, it returns [-1] with the parser error
    "multiple definitions for symbol" and leaves the symbol table as it
    was; [parse_regex_symbols] then returns NULL. *)
Lemma parse_symbol_at_defined_name (fuel : nat) (w : world) c i s e :
  buf (parser w) !! pos (parser w) = Some c ->
  let k := if char_eqb c REGEX_PARSER_LEXEME then 1 else 0 in
  let n := prefix_len is_identifier (drop (pos (parser w) + k) (buf (parser w))) in
  let nm := parser_at (parser w) (pos (parser w) + k) n in
  n + 1 <= MAX_REGEX_SYMBOL_NAME_LENGTH ->
  symbols w !! i = Some s ->
  name s = nm ->
  (forall j s', j < i -> symbols w !! j = Some s' -> name s' <> nm) ->
  expression s = Some e ->
  let w' := with_parser w (with_error (advance (parser w) (k + n))
                                      "multiple definitions for symbol") in
  parse_symbol fuel w = Done (-1)%Z w'
  /\ symbols w' = symbols w
  /\ (is_whitespace c = false -> c <> REGEX_PARSER_COMMENT ->
      parse_regex_symbols_loop (S fuel) w = Done tt w')
  /\ parse_regex_symbols_finish w' = Done None w'.
Proof.
  intros Hc k n nm Hn Hi Hs Hfirst He w'.
  assert (Hlt : pos (parser w) < length (buf (parser w))) by (eapply lookup_lt_Some; exact Hc).
  enough (Hsym : parse_symbol fuel w = Done (-1)%Z w').
  { split; [exact Hsym|]. split; [reflexivity|]. split; [|reflexivity].
    intros Hws Hcm. rewrite parse_regex_symbols_loop_S.
    unfold bind at 1. rewrite parser_has_more_eq.
    destruct (Nat.eqb_spec (pos (parser w)) (len (parser w))) as [E|_];
      [unfold len in E; lia|].
    cbn [negb]. unfold bind at 1. unfold parser_skip_whitespace.
    rewrite parser_skip_while_eq by (unfold len; lia).
    rewrite (lookup_drop_cons _ _ _ Hc). simpl prefix_len. rewrite Hws.
    rewrite advance_0, with_parser_id.
    unfold bind at 1. rewrite (parser_peek_at _ _ Hc).
    rewrite (char_eqb_neq _ _ Hcm).
    unfold bind. rewrite Hsym. reflexivity. }
  unfold parse_symbol.
  rewrite (bind_Done _ _ _ _ _ (parser_peek_at _ _ Hc)).
  fold k.
  set (w1 := with_parser w (advance (parser w) k)).
  assert (H1 : (if char_eqb c REGEX_PARSER_LEXEME then parser_skip else ret tt) w = Done tt w1).
  { unfold w1, k. destruct (char_eqb c REGEX_PARSER_LEXEME).
    - apply (parser_skip_at _ _ Hc).
    - rewrite advance_0, with_parser_id. reflexivity. }
  rewrite (bind_Done _ _ _ _ _ H1).
  unfold parser_pos at 1. unfold bind at 1.
  assert (Hk : k <= 1) by (unfold k; destruct (char_eqb c REGEX_PARSER_LEXEME); lia).
  assert (H2 : parser_skip_while is_identifier w1
               = Done tt (with_parser w (advance (parser w) (k + n)))).
  { rewrite parser_skip_while_eq.
    - unfold w1. simpl. rewrite advance_advance. reflexivity.
    - unfold w1, len. simpl. lia. }
  rewrite (bind_Done _ _ _ _ _ H2).
  set (w2 := with_parser w (advance (parser w) (k + n))).
  unfold parser_pos at 1. unfold bind at 1.
  replace (pos (parser w2) - pos (parser w1)) with n by (unfold w1, w2; simpl; lia).
  assert (H3 : get_or_create_regex_symbol (pos (parser w1)) n w2 = Done (Some i) w2).
  { apply (get_or_create_regex_symbol_found w2 (pos (parser w1)) n i s Hn).
    - exact Hi.
    - exact Hs.
    - exact Hfirst. }
  rewrite (bind_Done _ _ _ _ _ H3).
  unfold get_expression, bind, get_symbols.
  change (symbols w2) with (symbols w). rewrite Hi. unfold ret. rewrite He.
  reflexivity.
Qed.

Example duplicate_source_rejected k b :
  parse_regex_symbols (20 + k) (4 + b) duplicate_source
  = Done None
      (mk_world (mk_parser duplicate_source 10 (Some "multiple definitions for symbol"%string) 1 11)
                [mk_symbol ["a"] true (Some (Range 120 121))] b).
Proof. vm_compute. reflexivity. Qed.

(** ** What a literal parses to *)

Lemma root_extend_tree sp c cs :
  root (extend_tree (mk_tree sp (Some (literal_node c))) cs)
  = Some (fold_right (fun x acc => join (fst x) (snd x) acc) (literal_tree c cs) sp).
Proof.
  revert sp c. induction cs as [|c' cs IH]; intros sp c; simpl.
  - reflexivity.
  - rewrite IH. rewrite fold_right_app. reflexivity.
Qed.

Lemma parse_literal_loop_plain body :
  forall fuel tree w rest a,
    drop (pos (parser w)) (buf (parser w)) = body ++ REGEX_PARSER_LITERAL :: rest ->
    Forall plain body ->
    avail w = literal_cost tree body + a ->
    length body < fuel ->
    parse_literal_loop fuel tree false w
    = Done (root (extend_tree tree body))
           (mk_world (advance (parser w) (length body + 1)) (symbols w) a).
Proof.
  induction body as [|c body IH]; intros fuel tree w rest a Hd Hp Ha Hf.
  - destruct fuel as [|fuel]; [simpl in Hf; lia|].
    simpl in Hd. apply lookup_of_drop in Hd. destruct Hd as [Hc _].
    simpl. unfold bind at 1. rewrite parser_has_more_eq.
    destruct (Nat.eqb_spec (pos (parser w)) (len (parser w))) as [E|_].
    { apply lookup_lt_Some in Hc. unfold len in E. lia. }
    simpl. unfold bind at 1. rewrite (parser_peek_at _ _ Hc).
    change (char_eqb REGEX_PARSER_LITERAL REGEX_PARSER_ESCAPE) with false.
    rewrite char_eqb_refl. simpl.
    unfold bind. rewrite (parser_skip_at _ _ Hc). unfold ret, with_parser.
    simpl in Ha. rewrite Ha. reflexivity.
  - destruct fuel as [|fuel]; [simpl in Hf; lia|].
    simpl in Hd. apply lookup_of_drop in Hd. destruct Hd as [Hc Hd].
    inversion Hp as [|? ? [Hq He] Hp']; subst.
    simpl parse_literal_loop. unfold bind at 1. rewrite parser_has_more_eq.
    destruct (Nat.eqb_spec (pos (parser w)) (len (parser w))) as [E|_].
    { apply lookup_lt_Some in Hc. unfold len in E. lia. }
    cbn [negb]. unfold bind at 1. rewrite (parser_peek_at _ _ Hc).
    rewrite (char_eqb_neq _ _ He), (char_eqb_neq _ _ Hq). cbn [andb negb].
    destruct w as [p syms av]. simpl in Ha, Hc, Hd.
    destruct tree as [sp [lf|]]; simpl in Ha; subst av.
    + unfold bind, create_regex_node, add_to_regex_tree, malloc; simpl;
        unfold bind, create_regex_node, malloc; simpl.
      erewrite parser_skip_at by (simpl; exact Hc).
      erewrite IH; simpl.
      * rewrite advance_advance.
        replace (1 + (length body + 1)) with (S (length body + 1)) by lia.
        reflexivity.
      * rewrite Nat.add_1_r. exact Hd.
      * exact Hp'.
      * simpl. destruct body; simpl; lia.
      * simpl in Hf. lia.
    + unfold bind, create_regex_node, add_to_regex_tree, malloc; simpl;
        unfold bind, create_regex_node, malloc; simpl.
      erewrite parser_skip_at by (simpl; exact Hc).
      erewrite IH; simpl.
      * rewrite advance_advance.
        replace (1 + (length body + 1)) with (S (length body + 1)) by lia.
        reflexivity.
      * rewrite Nat.add_1_r. exact Hd.
      * exact Hp'.
      * simpl. destruct body; simpl; lia.
      * simpl in Hf. lia.
Qed.

(** A literal of the characters [c :: cs], none of them a double quote or
    an escape, parses to a range node [start = c, end = c + 1] per character,
    chained to the right by sequence nodes. *)
Lemma parse_literal_plain fuel w c cs rest a :
  drop (pos (parser w)) (buf (parser w))
  = REGEX_PARSER_LITERAL :: (c :: cs) ++ REGEX_PARSER_LITERAL :: rest ->
  Forall plain (c :: cs) ->
  avail w = 1 + 2 * length cs + a ->
  S (length cs) < fuel ->
  parse_literal fuel w
  = Done (Some (literal_tree c cs))
         (mk_world (advance (parser w) (length cs + 3)) (symbols w) a).
Proof.
  intros Hd Hp Ha Hf.
  apply lookup_of_drop in Hd. destruct Hd as [Hq Hd].
  unfold parse_literal, bind. rewrite (parser_skip_at _ _ Hq).
  erewrite (parse_literal_loop_plain (c :: cs)); simpl.
  - rewrite advance_advance.
    change (extend_tree empty_tree (c :: cs))
      with (extend_tree (mk_tree [] (Some (literal_node c))) cs).
    rewrite root_extend_tree. simpl.
    replace (S (S (length cs + 1))) with (length cs + 3) by lia.
    reflexivity.
  - rewrite Nat.add_1_r. exact Hd.
  - exact Hp.
  - simpl in Ha. simpl. lia.
  - simpl. lia.
Qed.

(** C2 (defect).  For the node [literal_node c], with [start = c] and
    [end = c + 1], that [parse_literal] makes of a character [c] (see
    [parse_literal_plain]), the state [build_regex_nfa_from_node] adds has the
    lower bound [c] and the upper bound [c + 2] as a [char], never [c + 1]:
    [build_regex_range_nfa] adds one to an end that is already exclusive. *)
Theorem literal_range_state_bounds :
  forall (c : ascii) (b : nat),
    build_regex_nfa_from_node (mk_nfa [] 0 []) (S b) (literal_node c)
    = Built 0
        (mk_nfa [mk_state (Some (int_of_char c))
                          (Some (char_of_int (int_of_char c + 2)))
                          None None (Some (-1)%Z)] 32 [])
        b (Some 0) (Some 0)
    /\ char_of_int (int_of_char c + 2) <> (int_of_char c + 1)%Z.
Proof.
  intros c b.
  split.
  - destruct c as [[] [] [] [] [] [] [] []]; vm_compute; reflexivity.
  - destruct c as [[] [] [] [] [] [] [] []]; vm_compute; discriminate.
Qed.

(** * What the parser keeps *)

(** ** Postconditions *)

Lemma post_ret {A} (a : A) w (Q : A -> world -> Prop) : Q a w -> post (ret a) w Q.
Proof. intros H. exact H. Qed.

Lemma post_bind_call {A B} (m : M A) (k : A -> M B) w (Q1 : A -> world -> Prop) Q :
  post m w Q1 ->
  (forall a w', Q1 a w' -> post (k a) w' Q) ->
  post (bind m k) w Q.
Proof.
  unfold post, bind. intros H1 H2. destruct (m w) as [a w'| |]; [|exact H1|exact I].
  apply H2. exact H1.
Qed.

Lemma post_conseq {A} (m : M A) w (Q Q' : A -> world -> Prop) :
  post m w Q -> (forall a w', Q a w' -> Q' a w') -> post m w Q'.
Proof.
  unfold post. intros H HQ. destruct (m w); [apply HQ; exact H | exact H | exact I].
Qed.

Lemma post_Done {A} (m : M A) w (Q : A -> world -> Prop) a w' :
  post m w Q -> m w = Done a w' -> Q a w'.
Proof. unfold post. intros H E. rewrite E in H. exact H. Qed.

Lemma post_bind_has_more {B} (k : bool -> M B) w Q :
  (pos (parser w) = len (parser w) -> post (k false) w Q) ->
  (pos (parser w) < len (parser w) \/ len (parser w) < pos (parser w) -> post (k true) w Q) ->
  post (bind parser_has_more k) w Q.
Proof.
  intros H0 H1. unfold post, bind. rewrite parser_has_more_eq.
  destruct (Nat.eqb_spec (pos (parser w)) (len (parser w))) as [E|E]; simpl.
  - apply H0. exact E.
  - apply H1. lia.
Qed.

Lemma post_bind_peek {B} (k : ascii -> M B) w Q :
  pos (parser w) <= len (parser w) ->
  (forall c, buf (parser w) !! pos (parser w) = Some c -> post (k c) w Q) ->
  post (bind parser_peek k) w Q.
Proof.
  intros Hle H. unfold post, bind, parser_peek. cbv zeta.
  destruct (Nat.eqb_spec (pos (parser w)) (len (parser w))) as [E0|E0]; [reflexivity|].
  destruct (buf (parser w) !! pos (parser w)) as [c|] eqn:E.
  - apply H. reflexivity.
  - apply lookup_ge_None in E. unfold len in *. lia.
Qed.

Lemma post_bind_skip {B} (k : unit -> M B) w Q :
  pos (parser w) <= len (parser w) ->
  (forall c, buf (parser w) !! pos (parser w) = Some c ->
             post (k tt) (with_parser w (advance (parser w) 1)) Q) ->
  post (bind parser_skip k) w Q.
Proof.
  intros Hle H. unfold post, bind.
  destruct (buf (parser w) !! pos (parser w)) as [c|] eqn:E.
  - rewrite (parser_skip_at _ _ E). apply (H c). reflexivity.
  - unfold parser_skip. cbv zeta. rewrite E.
    destruct (Nat.eqb_spec (pos (parser w)) (len (parser w))) as [E0|E0]; [reflexivity|].
    apply lookup_ge_None in E. unfold len in *. lia.
Qed.

Lemma post_bind_skip_while {B} pred (k : unit -> M B) w Q :
  pos (parser w) <= len (parser w) ->
  post (k tt) (with_parser w (advance (parser w)
                 (prefix_len pred (drop (pos (parser w)) (buf (parser w)))))) Q ->
  post (bind (parser_skip_while pred) k) w Q.
Proof.
  intros Hle H. unfold post, bind. rewrite parser_skip_while_eq by exact Hle. exact H.
Qed.

Lemma post_bind_error {B} msg (k : unit -> M B) w Q :
  post (k tt) (with_parser w (with_error (parser w) msg)) Q ->
  post (bind (parser_error msg) k) w Q.
Proof. intros H. exact H. Qed.

Lemma post_bind_malloc {B} (k : bool -> M B) w Q :
  post (k false) w Q ->
  (forall a, avail w = S a -> post (k true) (mk_world (parser w) (symbols w) a) Q) ->
  post (bind malloc k) w Q.
Proof.
  intros H0 H1. unfold post, bind, malloc.
  destruct (avail w) as [|a] eqn:E; [exact H0 | apply H1; reflexivity].
Qed.

Lemma post_bind_pos {B} (k : nat -> M B) w Q :
  post (k (pos (parser w))) w Q -> post (bind parser_pos k) w Q.
Proof. intros H. exact H. Qed.

Lemma prefix_len_le pred l : prefix_len pred l <= length l.
Proof. induction l as [|c l IH]; simpl; [lia|]. destruct (pred c); simpl; lia. Qed.

Lemma prefix_len_Forall pred l :
  Forall (fun c => pred c = true) (take (prefix_len pred l) l).
Proof.
  induction l as [|c l IH]; simpl; [constructor|].
  destruct (pred c) eqn:E; simpl; [constructor; assumption | constructor].
Qed.

Lemma skip_bound w pred :
  pos (parser w) <= len (parser w) ->
  pos (parser w) + prefix_len pred (drop (pos (parser w)) (buf (parser w)))
  <= len (parser w).
Proof.
  intros H. pose proof (prefix_len_le pred (drop (pos (parser w)) (buf (parser w)))) as Hp.
  rewrite length_drop in Hp. unfold len in *. lia.
Qed.

Lemma refs_ok_mono n n' node : n <= n' -> refs_ok n node -> refs_ok n' node.
Proof.
  intros Hle. induction node as [l IHl r IHr | l IHl r IHr | | b IHb | i]; simpl; intros H.
  - destruct H. split; auto.
  - destruct H. split; auto.
  - exact I.
  - auto.
  - lia.
Qed.

Lemma tree_refs_ok_mono n n' t : n <= n' -> tree_refs_ok n t -> tree_refs_ok n' t.
Proof.
  intros Hle [Hs Hl]. split.
  - eapply Forall_impl; [exact Hs|]. intros x Hx. eapply refs_ok_mono; eassumption.
  - intros l E. eapply refs_ok_mono; [exact Hle|]. apply Hl. exact E.
Qed.

Lemma tree_refs_ok_empty n : tree_refs_ok n empty_tree.
Proof. split; [constructor | intros l E; discriminate]. Qed.

Lemma root_refs_ok n t node :
  tree_refs_ok n t -> root t = Some node -> refs_ok n node.
Proof.
  intros [Hs Hl]. unfold root. destruct (leaf t) as [l|]; [|discriminate].
  intros E. inversion E; subst. clear E. specialize (Hl l eq_refl).
  induction Hs as [|x sp Hx _ IH]; simpl; [exact Hl|].
  destruct x as [ty nd]. simpl in *. destruct ty; simpl; split; assumption.
Qed.

Lemma appended_refl syms : appended syms syms.
Proof. exists []. split; [rewrite app_nil_r; reflexivity | constructor]. Qed.

Lemma appended_trans a b c : appended a b -> appended b c -> appended a c.
Proof.
  intros (e1 & -> & H1) (e2 & -> & H2). exists (e1 ++ e2).
  split; [rewrite app_assoc; reflexivity | apply Forall_app; split; assumption].
Qed.

Lemma appended_length a b : appended a b -> length a <= length b.
Proof. intros (e & -> & _). rewrite length_app. lia. Qed.

Lemma descends_refl w : descends w w.
Proof. split; [reflexivity|]. split; [lia | apply appended_refl]. Qed.

Lemma descends_trans a b c : descends a b -> descends b c -> descends a c.
Proof.
  intros (B1 & P1 & A1) (B2 & P2 & A2). split; [congruence|].
  split; [lia | eapply appended_trans; eassumption].
Qed.

Lemma descends_length a b : descends a b -> length (symbols a) <= length (symbols b).
Proof. intros (_ & _ & H). apply appended_length. exact H. Qed.

Lemma spec_step (w0 w1 w' : world) :
  descends w0 w1 ->
  parser_inv w1 ->
  buf (parser w') = buf (parser w1) ->
  pos (parser w1) <= pos (parser w') ->
  pos (parser w') <= length (buf (parser w1)) ->
  symbols w' = symbols w1 ->
  parser_inv w' /\ descends w0 w'.
Proof.
  intros Hd (Hp & Hn & Ht) Hb Hp1 Hp2 Hs. split.
  - split; [unfold len; rewrite Hb; exact Hp2|]. rewrite Hs. split; assumption.
  - eapply descends_trans; [exact Hd|]. split; [exact Hb|]. split; [exact Hp1|].
    rewrite Hs. apply appended_refl.
Qed.

Lemma node_spec_step (w0 w1 w' : world) r :
  descends w0 w1 ->
  parser_inv w1 ->
  buf (parser w') = buf (parser w1) ->
  pos (parser w1) <= pos (parser w') ->
  pos (parser w') <= length (buf (parser w1)) ->
  symbols w' = symbols w1 ->
  (forall node, r = Some node ->
     refs_ok (length (symbols w1)) node /\ error (parser w') = error (parser w0)) ->
  node_spec w0 r w'.
Proof.
  intros Hd Hi Hb Hp1 Hp2 Hs Hr.
  destruct (spec_step w0 w1 w' Hd Hi Hb Hp1 Hp2 Hs) as [Hi' Hd'].
  split; [exact Hi'|]. split; [exact Hd'|]. rewrite Hs. exact Hr.
Qed.

Lemma quiet_spec_step {A} (w0 w1 w' : world) (r : option A) :
  descends w0 w1 ->
  parser_inv w1 ->
  buf (parser w') = buf (parser w1) ->
  pos (parser w1) <= pos (parser w') ->
  pos (parser w') <= length (buf (parser w1)) ->
  symbols w' = symbols w1 ->
  (forall a, r = Some a -> error (parser w') = error (parser w0)) ->
  quiet_spec w0 r w'.
Proof.
  intros Hd Hi Hb Hp1 Hp2 Hs Hr.
  destruct (spec_step w0 w1 w' Hd Hi Hb Hp1 Hp2 Hs) as [Hi' Hd'].
  split; [exact Hi'|]. split; [exact Hd'|]. exact Hr.
Qed.

(** The bounds the reads so far give. *)
Ltac bounds :=
  repeat match goal with
         | H : _ !! _ = Some _ |- _ => apply lookup_lt_Some in H
         end;
  repeat match goal with
         | |- context [prefix_len ?p ?l] =>
             lazymatch goal with
             | _ : prefix_len p l <= length l |- _ => fail
             | _ => pose proof (prefix_len_le p l)
             end
         | _ : context [prefix_len ?p ?l] |- _ =>
             lazymatch goal with
             | _ : prefix_len p l <= length l |- _ => fail
             | _ => pose proof (prefix_len_le p l)
             end
         end;
  unfold parser_inv, len in *; simpl in *;
  repeat match goal with
         | H : context [length (drop _ _)] |- _ => rewrite length_drop in H
         end;
  try lia.

(** One step of a function body. *)
Ltac pstep :=
  lazymatch goal with
  | |- post (bind parser_has_more _) _ _ =>
      apply post_bind_has_more; intros ?; cbn [negb]
  | |- post (bind parser_peek _) _ _ =>
      apply post_bind_peek; [solve [bounds] | intros ? ?]
  | |- post (bind parser_skip _) _ _ =>
      apply post_bind_skip; [solve [bounds] | intros ? ?]
  | |- post (bind parser_skip_whitespace _) _ _ =>
      unfold parser_skip_whitespace; apply post_bind_skip_while; [bounds|]
  | |- post (bind (parser_skip_while _) _) _ _ =>
      apply post_bind_skip_while; [bounds|]
  | |- post (bind (parser_error _) _) _ _ => apply post_bind_error
  | |- post (bind create_regex_node _) _ _ =>
      unfold create_regex_node; apply post_bind_malloc; [|intros ? ?]; cbn [negb]
  | |- post (bind malloc _) _ _ => apply post_bind_malloc; [|intros ? ?]; cbn [negb]
  | |- post (bind parser_pos _) _ _ => apply post_bind_pos
  | |- post (ret _) _ _ => apply post_ret
  | |- post (if ?b then _ else _) _ _ => destruct b eqn:?
  end.

Lemma parse_regex_range_bound_spec w :
  parser_inv w -> post parse_regex_range_bound w (quiet_spec w).
Proof.
  intros Hi. unfold parse_regex_range_bound.
  repeat pstep;
    (apply (quiet_spec_step w w); [apply descends_refl | exact Hi | reflexivity | bounds
                                  | bounds | reflexivity | ]);
    intros a E; try discriminate; reflexivity.
Qed.

(** A call of a function with the specification [L], from the base state
    [w1] of the facts [Hd] and [Hi]: continues from the state [w2] in which
    the call returns, with the facts [Hd2], [Hi2] and [He2], and [Hl2] on
    the length of the table. *)
Ltac pcall_len L w0 w1 Hd Hi w2 Hd2 Hi2 He2 Hl2 :=
  lazymatch goal with
  | |- post (bind _ _) ?W _ =>
      let Hx := fresh "Hx" in
      let r := fresh "r" in
      assert (Hx : parser_inv W /\ descends w0 W)
        by (apply (spec_step w0 w1 W Hd Hi); [reflexivity | bounds | bounds | reflexivity]);
      eapply post_bind_call; [apply L; exact (proj1 Hx)|];
      intros r w2 (Hi2 & Hd2 & He2);
      pose proof (descends_length _ _ Hd2) as Hl2; simpl in Hl2;
      apply (descends_trans _ _ _ (proj2 Hx)) in Hd2;
      destruct r; cbv beta iota; [specialize (He2 _ eq_refl); simpl in He2|]
  end.

Ltac pcall L w0 w1 Hd Hi w2 Hd2 Hi2 He2 :=
  let Hl2 := fresh "Hl" in pcall_len L w0 w1 Hd Hi w2 Hd2 Hi2 He2 Hl2.

(** The closing goal of a branch without a node. *)
Ltac pnone w0 w1 Hd Hi :=
  apply (node_spec_step w0 w1);
  [exact Hd | exact Hi | reflexivity | bounds | bounds | reflexivity
  | intros ? ?; discriminate].

Lemma parse_regex_range_spec w :
  parser_inv w -> post parse_regex_range w (node_spec w).
Proof.
  intros Hi. pose proof (descends_refl w) as Hd. unfold parse_regex_range.
  pstep. pstep.
  pcall parse_regex_range_bound_spec w w Hd Hi w2 Hd2 Hi2 He2;
    [|pstep; pnone w w2 Hd2 Hi2].
  pstep. pstep; [pstep; pstep; pnone w w2 Hd2 Hi2|].
  pstep. pstep; [pstep; pstep; pnone w w2 Hd2 Hi2|].
  pstep. pstep.
  pcall parse_regex_range_bound_spec w w2 Hd2 Hi2 w3 Hd3 Hi3 He3;
    [|pstep; pnone w w3 Hd3 Hi3].
  pstep. pstep; [pstep; pstep; pnone w w3 Hd3 Hi3|].
  pstep. pstep; [pstep; pstep; pnone w w3 Hd3 Hi3|].
  pstep. pstep.
  - pstep. pstep. pnone w w3 Hd3 Hi3.
  - pstep.
    apply (node_spec_step w w3); [exact Hd3 | exact Hi3 | reflexivity | bounds | bounds
                                 | reflexivity |].
    intros node E. split; [inversion E; exact I|]. simpl. congruence.
Qed.

Lemma world_eta w : mk_world (parser w) (symbols w) (avail w) = w.
Proof. destruct w; reflexivity. Qed.

Lemma post_bind_add {B} t ty node (k : option regex_tree -> M B) w Q :
  (forall a, post (k None) (mk_world (parser w) (symbols w) a) Q) ->
  (forall t' a,
      (forall n, tree_refs_ok n t -> refs_ok n node -> tree_refs_ok n t') ->
      post (k (Some t')) (mk_world (parser w) (symbols w) a) Q) ->
  post (bind (add_to_regex_tree t ty node) k) w Q.
Proof.
  intros HN HS. unfold add_to_regex_tree. destruct (leaf t) as [l|] eqn:El.
  - unfold create_regex_node.
    change (post (bind (bind malloc (fun ok => if ok
              then ret (Some (mk_tree (spine t ++ [(ty, l)]) (Some node)))
              else ret None)) k) w Q).
    unfold post, bind, malloc. destruct (avail w) as [|a] eqn:Ea; simpl.
    + specialize (HN (avail w)). rewrite world_eta in HN. exact HN.
    + apply (HS _ a).
      intros n [Hs Hl] Hn. split; simpl.
      * apply Forall_app. split; [exact Hs|]. constructor; [|constructor].
        simpl. apply Hl. exact El.
      * intros l' E. inversion E; subst. exact Hn.
  - unfold post, bind, ret.
    assert (H : forall n, tree_refs_ok n t -> refs_ok n node ->
                          tree_refs_ok n (mk_tree [] (Some node))).
    { intros n _ Hn. split; simpl; [constructor|].
      intros l' E. inversion E; subst. exact Hn. }
    specialize (HS _ (avail w) H). rewrite world_eta in HS. exact HS.
Qed.

(** The closing goal of a branch, from the base [w1]. *)
Ltac pclose w0 w1 Hd Hi :=
  apply (node_spec_step w0 w1);
  [exact Hd | exact Hi | try reflexivity; bounds | bounds | bounds | try reflexivity; bounds |].

Lemma parse_literal_loop_spec fuel :
  forall tree escaped w0 w,
    descends w0 w -> parser_inv w -> error (parser w) = error (parser w0) ->
    tree_refs_ok (length (symbols w)) tree ->
    post (parse_literal_loop fuel tree escaped) w (node_spec w0).
Proof.
  induction fuel as [|fuel IH]; intros tree escaped w0 w Hd Hi He Ht; [exact I|].
  cbn [parse_literal_loop].
  pstep; [pstep; pstep; pnone w0 w Hd Hi|].
  pstep. pstep; [apply IH; assumption|].
  pstep.
  - pstep. pstep. pclose w0 w Hd Hi.
    intros node E. split; [eapply root_refs_ok; eassumption|]. simpl. exact He.
  - pstep; [pstep; pnone w0 w Hd Hi|].
    apply post_bind_add.
    + intros a1. pstep. pnone w0 w Hd Hi.
    + intros t' a1 Ht'. pstep.
      match goal with
      | |- post _ ?W _ =>
          destruct (spec_step w0 w W Hd Hi) as [Hi' Hd'];
            [reflexivity | bounds | bounds | reflexivity|]
      end.
      apply IH; [exact Hd' | exact Hi' | exact He |].
      simpl. apply Ht'; [exact Ht | exact I].
Qed.

Lemma parse_literal_spec fuel w :
  parser_inv w -> post (parse_literal fuel) w (node_spec w).
Proof.
  intros Hi. pose proof (descends_refl w) as Hd. unfold parse_literal.
  pstep.
  destruct (spec_step w w (with_parser w (advance (parser w) 1)) Hd Hi) as [Hi' Hd'];
    [reflexivity | bounds | bounds | reflexivity|].
  apply parse_literal_loop_spec;
    [exact Hd' | exact Hi' | reflexivity | apply tree_refs_ok_empty].
Qed.

Lemma find_regex_symbol_lt (syms : regex_symbols) nm k i :
  find_regex_symbol syms nm k = Some i -> k <= i < k + length syms.
Proof.
  revert k. induction syms as [|s syms IH]; intros k H; simpl in *; [discriminate|].
  destruct (regex_symbol_name_eq (name s) nm).
  - inversion H. lia.
  - apply IH in H. lia.
Qed.

Lemma find_regex_symbol_absent (syms : regex_symbols) nm k :
  find_regex_symbol syms nm k = None -> nm ∉ map name syms.
Proof.
  revert k. induction syms as [|s syms IH]; intros k H; simpl in *.
  - intros Hin. inversion Hin.
  - destruct (regex_symbol_name_eq (name s) nm) eqn:E; [discriminate|].
    intros Hin. apply elem_of_cons in Hin. destruct Hin as [->|Hin].
    + rewrite (proj2 (regex_symbol_name_eq_iff _ _) eq_refl) in E. discriminate.
    + exact (IH _ H Hin).
Qed.

Lemma find_regex_symbol_sound (syms : regex_symbols) nm :
  forall k j, find_regex_symbol syms nm k = Some j ->
    exists s, syms !! (j - k) = Some s /\ name s = nm /\ k <= j.
Proof.
  induction syms as [|s0 syms IH]; intros k j H; simpl in H; [discriminate|].
  destruct (regex_symbol_name_eq (name s0) nm) eqn:E.
  - inversion H; subst j. exists s0. rewrite Nat.sub_diag.
    split; [reflexivity|]. split; [apply regex_symbol_name_eq_iff; exact E | lia].
  - destruct (IH (S k) j H) as (s & Hs & Hn & Hle). exists s.
    replace (j - k) with (S (j - S k)) by lia. split; [exact Hs|]. split; [exact Hn | lia].
Qed.

Lemma c_string_id l : Forall (fun c => c <> NUL) l -> c_string l = l.
Proof.
  induction 1 as [|c l Hc _ IH]; simpl; [reflexivity|].
  rewrite (char_eqb_neq _ _ Hc), IH. reflexivity.
Qed.

Lemma table_refs_ok_app syms ext :
  table_refs_ok syms ->
  Forall (fun s => expression s = None /\ lexeme s = false) ext ->
  table_refs_ok (syms ++ ext).
Proof.
  intros Ht He. unfold table_refs_ok. apply Forall_app. split.
  - eapply Forall_impl; [exact Ht|]. intros s Hs e E. simpl in Hs.
    eapply refs_ok_mono; [|apply Hs; exact E]. rewrite length_app. lia.
  - eapply Forall_impl; [exact He|]. intros s [Hs _] e E. simpl in Hs. congruence.
Qed.

(** [get_or_create_regex_symbol] on a name without a NUL byte. *)
Lemma get_or_create_regex_symbol_keeps start n w :
  parser_inv w ->
  Forall (fun c => c <> NUL) (parser_at (parser w) start n) ->
  post (get_or_create_regex_symbol start n) w
       (fun r w' =>
          parser_inv w' /\ descends w w' /\ pos (parser w') = pos (parser w)
          /\ forall i, r = Some i ->
               i < length (symbols w') /\ error (parser w') = error (parser w)
               /\ n + 1 <= MAX_REGEX_SYMBOL_NAME_LENGTH
               /\ exists s, symbols w' !! i = Some s
                            /\ name s = parser_at (parser w) start n).
Proof.
  intros Hi Hnul. pose proof Hi as (Hp & Hn & Ht).
  assert (Hsame : forall w', buf (parser w') = buf (parser w) ->
                             pos (parser w') = pos (parser w) ->
                             symbols w' = symbols w ->
                             parser_inv w' /\ descends w w' /\ pos (parser w') = pos (parser w)).
  { intros w' Hb Hq Hs.
    destruct (spec_step w w w' (descends_refl w) Hi Hb) as [H1 H2];
      [lia | unfold len in Hp; lia | exact Hs|].
    split; [exact H1|]. split; [exact H2 | exact Hq]. }
  unfold get_or_create_regex_symbol.
  destruct (Nat.ltb_spec MAX_REGEX_SYMBOL_NAME_LENGTH (n + 1)) as [Hlong|Hshort].
  - unfold post, bind, parser_error, ret. simpl.
    destruct (Hsame (mk_world (mk_parser (buf (parser w)) (pos (parser w))
                                 (Some "reference name too long"%string)
                                 (line (parser w)) (col (parser w)))
                              (symbols w) (avail w)) eq_refl eq_refl eq_refl)
      as (H1 & H2 & H3).
    split; [exact H1|]. split; [exact H2|]. split; [exact H3|].
    intros i E. discriminate.
  - unfold post, bind, get_parser, get_symbols, ret.
    destruct (Hsame w eq_refl eq_refl eq_refl) as (H1 & H2 & H3).
    destruct (find_regex_symbol (symbols w) (parser_at (parser w) start n) 0) as [i|] eqn:Ef.
    + split; [exact H1|]. split; [exact H2|]. split; [exact H3|].
      intros j E. inversion E; subst.
      destruct (find_regex_symbol_sound _ _ _ _ Ef) as (s & Hs & Hnm & _).
      rewrite Nat.sub_0_r in Hs. apply find_regex_symbol_lt in Ef.
      split; [lia|]. split; [reflexivity|]. split; [lia|].
      exists s. split; assumption.
    + unfold malloc. destruct (avail w) as [|a]; simpl.
      * split; [exact H1|]. split; [exact H2|]. split; [exact H3|].
        intros j E. discriminate.
      * assert (Hext : Forall (fun s => expression s = None /\ lexeme s = false)
                         [mk_symbol (parser_copy_string (parser w) start n) false None]).
        { constructor; [split; reflexivity | constructor]. }
        split; [split; [exact Hp|]; split|].
        -- simpl. rewrite map_app. simpl. unfold parser_copy_string.
           rewrite (c_string_id _ Hnul).
           apply NoDup_app. split; [exact Hn|]. split.
           ++ intros x Hx Hx'. apply list_elem_of_singleton in Hx'. subst x.
              exact (find_regex_symbol_absent _ _ _ Ef Hx).
           ++ apply NoDup_singleton.
        -- simpl. apply table_refs_ok_app; assumption.
        -- split; [split; [reflexivity|]; split; [simpl; lia|]|].
           ++ eexists. split; [reflexivity | exact Hext].
           ++ split; [reflexivity|]. intros j E. inversion E; subst.
              split; [simpl; rewrite length_app; simpl; lia|].
              split; [reflexivity|]. split; [lia|].
              eexists. split; [simpl; apply list_lookup_middle; reflexivity|].
              simpl. unfold parser_copy_string. apply (c_string_id _ Hnul).
Qed.

Lemma is_identifier_not_NUL c : is_identifier c = true -> c <> NUL.
Proof. intros H ->. discriminate. Qed.

Lemma identifier_run_no_NUL (p : regex_parser) start :
  Forall (fun c => c <> NUL)
         (parser_at p start (prefix_len is_identifier (drop start (buf p)))).
Proof.
  unfold parser_at. eapply Forall_impl; [apply prefix_len_Forall|].
  intros c Hc. apply is_identifier_not_NUL. exact Hc.
Qed.

Lemma parse_regex_reference_spec w :
  parser_inv w -> post parse_regex_reference w (node_spec w).
Proof.
  intros Hi. pose proof (descends_refl w) as Hd. unfold parse_regex_reference.
  pstep. pstep; [pstep; pstep; pnone w w Hd Hi|].
  pstep. pstep. pstep.
  match goal with
  | |- post (bind _ _) ?W _ =>
      destruct (spec_step w w W Hd Hi) as [HiW HdW];
        [reflexivity | bounds | bounds | reflexivity|];
      eapply post_bind_call;
        [apply (get_or_create_regex_symbol_keeps _ _ W HiW)|]
  end.
  - simpl.
    replace (pos (parser w) + 1 + _ - (pos (parser w) + 1))
      with (prefix_len is_identifier (drop (pos (parser w) + 1) (buf (parser w)))) by lia.
    apply (identifier_run_no_NUL (advance (advance (parser w) 1) _)).
  - intros r w2 (Hi2 & Hd2 & Hp2 & Hr2).
    apply (descends_trans _ _ _ HdW) in Hd2.
    destruct r as [i|]; cbv beta iota.
    + destruct (Hr2 i eq_refl) as (Hlt & He2 & _). simpl in He2.
      pstep.
      * pstep. pstep. pnone w w2 Hd2 Hi2.
      * pstep. pclose w w2 Hd2 Hi2.
        intros node E. inversion E; subst. split; [exact Hlt|]. simpl. exact He2.
    + pstep. pstep. pnone w w2 Hd2 Hi2.
Qed.

Lemma descent_spec n :
  (forall tree w0 w,
      descends w0 w -> parser_inv w -> error (parser w) = error (parser w0) ->
      tree_refs_ok (length (symbols w)) tree ->
      post (parse_regex_branch_loop n tree) w (node_spec w0))
  /\ (forall tree w0 w,
      descends w0 w -> parser_inv w -> error (parser w) = error (parser w0) ->
      tree_refs_ok (length (symbols w)) tree ->
      post (parse_regex_sequence_loop n tree) w (node_spec w0))
  /\ (forall w, parser_inv w -> post (parse_regex_loop n) w (node_spec w))
  /\ (forall w, parser_inv w -> post (parse_regex_expression n) w (node_spec w))
  /\ (forall w, parser_inv w -> post (parse_regex_group n) w (node_spec w)).
Proof.
  induction n as [|n (IHb & IHs & IHl & IHe & IHg)].
  { repeat split; intros; exact I. }
  assert (IHb0 : forall W, parser_inv W ->
                           post (parse_regex_branch_loop n empty_tree) W (node_spec W)).
  { intros W HW. apply IHb;
      [apply descends_refl | exact HW | reflexivity | apply tree_refs_ok_empty]. }
  assert (IHs0 : forall W, parser_inv W ->
                           post (parse_regex_sequence_loop n empty_tree) W (node_spec W)).
  { intros W HW. apply IHs;
      [apply descends_refl | exact HW | reflexivity | apply tree_refs_ok_empty]. }
  split; [|split; [|split; [|split]]].
  - (* parse_regex_branch *)
    intros tree w0 w Hd Hi He Ht. cbn [parse_regex_branch_loop].
    pstep; [pstep; pstep; pnone w0 w Hd Hi|].
    pstep. pstep.
    { pstep. pclose w0 w Hd Hi. intros node E.
      split; [eapply root_refs_ok; eassumption | exact He]. }
    pcall_len IHs0 w0 w Hd Hi w2 Hd2 Hi2 He2 Hl2; [|pstep; pnone w0 w2 Hd2 Hi2].
    destruct He2 as [Hr2 He2].
    apply post_bind_add.
    + intros a1. pstep. pstep. pnone w0 w2 Hd2 Hi2.
    + intros t' a1 Ht'.
      assert (Ht2 : tree_refs_ok (length (symbols w2)) t').
      { apply Ht'; [|exact Hr2]. eapply tree_refs_ok_mono; [exact Hl2 | exact Ht]. }
      pstep; [pstep; pstep; pnone w0 w2 Hd2 Hi2|].
      pstep. pstep.
      { pstep. pclose w0 w2 Hd2 Hi2. intros node E.
        split; [eapply root_refs_ok; eassumption | simpl; congruence]. }
      pstep. pstep.
      match goal with
      | |- post _ ?W _ =>
          destruct (spec_step w0 w2 W Hd2 Hi2) as [Hi' Hd'];
            [reflexivity | bounds | bounds | reflexivity|]
      end.
      apply IHb; [exact Hd' | exact Hi' | simpl; congruence | exact Ht2].
  - (* parse_regex_sequence *)
    intros tree w0 w Hd Hi He Ht. cbn [parse_regex_sequence_loop].
    pstep; [pstep; pstep; pnone w0 w Hd Hi|].
    pstep. pstep.
    { pstep. pclose w0 w Hd Hi. intros node E.
      split; [eapply root_refs_ok; eassumption | exact He]. }
    pcall_len IHl w0 w Hd Hi w2 Hd2 Hi2 He2 Hl2; [|pstep; pnone w0 w2 Hd2 Hi2].
    destruct He2 as [Hr2 He2].
    apply post_bind_add.
    + intros a1. pstep. pstep. pnone w0 w2 Hd2 Hi2.
    + intros t' a1 Ht'.
      assert (Ht2 : tree_refs_ok (length (symbols w2)) t').
      { apply Ht'; [|exact Hr2]. eapply tree_refs_ok_mono; [exact Hl2 | exact Ht]. }
      pstep.
      match goal with
      | |- post _ ?W _ =>
          destruct (spec_step w0 w2 W Hd2 Hi2) as [Hi' Hd'];
            [reflexivity | bounds | bounds | reflexivity|]
      end.
      apply IHs; [exact Hd' | exact Hi' | simpl; congruence | exact Ht2].
  - (* parse_regex_loop *)
    intros w Hi. pose proof (descends_refl w) as Hd. cbn [parse_regex_loop].
    pcall IHe w w Hd Hi w2 Hd2 Hi2 He2; [|pstep; pnone w w2 Hd2 Hi2].
    destruct He2 as [Hr2 He2].
    pstep; [pstep; pstep; pnone w w2 Hd2 Hi2|].
    pstep. pstep. pstep.
    + pstep. pstep.
      * pstep. pnone w w2 Hd2 Hi2.
      * pstep. pclose w w2 Hd2 Hi2. intros node E. inversion E; subst.
        split; [exact Hr2 | simpl; congruence].
    + pstep. pclose w w2 Hd2 Hi2. intros node E. inversion E; subst.
      split; [exact Hr2 | simpl; congruence].
  - (* parse_regex_expression *)
    intros w Hi. pose proof (descends_refl w) as Hd. cbn [parse_regex_expression].
    pstep; [pstep; pstep; pnone w w Hd Hi|].
    pstep. pstep; [apply parse_literal_spec; exact Hi|].
    pstep; [apply parse_regex_reference_spec; exact Hi|].
    pstep; [apply IHg; exact Hi|].
    pstep; [apply parse_regex_range_spec; exact Hi|].
    pstep. pstep. pnone w w Hd Hi.
  - (* parse_regex_group *)
    intros w Hi. pose proof (descends_refl w) as Hd. cbn [parse_regex_group].
    pstep.
    pcall IHb0 w w Hd Hi w2 Hd2 Hi2 He2; [|pstep; pnone w w2 Hd2 Hi2].
    destruct He2 as [Hr2 He2].
    pstep. pstep; [pstep; pstep; pnone w w2 Hd2 Hi2|].
    pstep. pstep; [pstep; pstep; pnone w w2 Hd2 Hi2|].
    pstep. pstep. pclose w w2 Hd2 Hi2. intros node E. inversion E; subst.
    split; [exact Hr2 | simpl; congruence].
Qed.

Lemma parse_regex_statement_spec fuel w :
  parser_inv w -> post (parse_regex_statement fuel) w (node_spec w).
Proof.
  intros Hi. pose proof (descends_refl w) as Hd.
  unfold parse_regex_statement, parse_regex_branch.
  assert (L : forall W, parser_inv W ->
                        post (parse_regex_branch_loop fuel empty_tree) W (node_spec W)).
  { intros W HW. apply (descent_spec fuel);
      [apply descends_refl | exact HW | reflexivity | apply tree_refs_ok_empty]. }
  pcall L w w Hd Hi w2 Hd2 Hi2 He2; [|pstep; pnone w w2 Hd2 Hi2].
  destruct He2 as [Hr2 He2].
  pstep. pstep; [pstep; pstep; pnone w w2 Hd2 Hi2|].
  pstep. pstep; [pstep; pstep; pnone w w2 Hd2 Hi2|].
  pstep. pstep. pclose w w2 Hd2 Hi2. intros node E. inversion E; subst.
  split; [exact Hr2 | simpl; congruence].
Qed.

Lemma keeps_defined_refl syms : keeps_defined syms syms.
Proof. intros i s H. exists s. split; [exact H|]. split; [reflexivity|]. reflexivity. Qed.

Lemma keeps_defined_trans a b c :
  keeps_defined a b -> keeps_defined b c -> keeps_defined a c.
Proof.
  intros H1 H2 i s Hs. destruct (H1 i s Hs) as (s1 & Hs1 & Hn1 & He1).
  destruct (H2 i s1 Hs1) as (s2 & Hs2 & Hn2 & He2).
  exists s2. split; [exact Hs2|]. split; [congruence|].
  intros e E. specialize (He1 e E). subst s1. apply (He2 e E).
Qed.

Lemma appended_keeps a b : appended a b -> keeps_defined a b.
Proof.
  intros (ext & -> & _) i s Hs. exists s.
  split; [apply lookup_app_l_Some; exact Hs|]. split; reflexivity.
Qed.

Lemma keeps_defined_insert (syms : list regex_symbol) i s s' :
  syms !! i = Some s -> expression s = None -> name s' = name s ->
  keeps_defined syms (<[i := s']> syms).
Proof.
  intros Hs He Hn j t Ht. destruct (decide (i = j)) as [<-|Hne].
  - exists s'. rewrite list_lookup_insert_eq by (eapply lookup_lt_Some; exact Hs).
    split; [reflexivity|]. assert (t = s) by congruence. subst t.
    split; [exact Hn|]. intros e E. congruence.
  - exists t. rewrite list_lookup_insert_ne by exact Hne.
    split; [exact Ht|]. split; reflexivity.
Qed.

Lemma moves_refl w : moves w w.
Proof. split; [reflexivity|]. split; [lia | apply keeps_defined_refl]. Qed.

Lemma moves_trans a b c : moves a b -> moves b c -> moves a c.
Proof.
  intros (B1 & P1 & K1) (B2 & P2 & K2). split; [congruence|].
  split; [lia | eapply keeps_defined_trans; eassumption].
Qed.

Lemma descends_moves a b : descends a b -> moves a b.
Proof.
  intros (B & P & A). split; [exact B|]. split; [exact P | apply appended_keeps; exact A].
Qed.

Lemma map_name_insert (l : list regex_symbol) i s s' :
  l !! i = Some s -> name s' = name s -> map name (<[i := s']> l) = map name l.
Proof.
  revert i. induction l as [|x l IH]; intros [|i] Hs Hn; simpl in *; try discriminate.
  - inversion Hs; subst. rewrite Hn. reflexivity.
  - f_equal. apply IH; assumption.
Qed.

Lemma parser_inv_insert w i s s' a :
  parser_inv w ->
  symbols w !! i = Some s ->
  name s' = name s ->
  (forall e, expression s' = Some e -> refs_ok (length (symbols w)) e) ->
  parser_inv (mk_world (parser w) (<[i := s']> (symbols w)) a).
Proof.
  intros (Hp & Hn & Ht) Hs Hnm He. split; [exact Hp|]. split.
  - exact (eq_ind _ (fun l => NoDup l) Hn _ (eq_sym (map_name_insert _ _ _ _ Hs Hnm))).
  - unfold table_refs_ok, regex_symbols in *. simpl. rewrite length_insert.
    rewrite Forall_lookup in Ht. apply Forall_lookup. intros j t Hj.
    destruct (decide (i = j)) as [<-|Hne].
    + rewrite list_lookup_insert_eq in Hj by (eapply lookup_lt_Some; exact Hs).
      inversion Hj; subst. exact He.
    + rewrite list_lookup_insert_ne in Hj by exact Hne. exact (Ht j t Hj).
Qed.

Lemma symbol_spec_step (w0 w1 w' : world) r :
  moves w0 w1 ->
  parser_inv w1 ->
  buf (parser w') = buf (parser w1) ->
  pos (parser w1) <= pos (parser w') ->
  pos (parser w') <= length (buf (parser w1)) ->
  symbols w' = symbols w1 ->
  (r = 0%Z ->
   error (parser w') = error (parser w0) /\ defines (symbols w0) (symbols w')
   /\ has_definition (definition_name w0) (symbols w')) ->
  symbol_spec w0 r w'.
Proof.
  intros Hm Hi Hb Hp1 Hp2 Hs Hr.
  destruct (spec_step w1 w1 w' (descends_refl w1) Hi Hb Hp1 Hp2 Hs) as [Hi' Hd'].
  split; [exact Hi'|]. split; [|exact Hr].
  eapply moves_trans; [exact Hm | apply descends_moves; exact Hd'].
Qed.

Lemma post_bind_ret {A B} (a : A) (k : A -> M B) w Q :
  post (k a) w Q -> post (bind (ret a) k) w Q.
Proof. intros H. exact H. Qed.

Lemma post_bind_assoc {A B C} (m : M A) (k1 : A -> M B) (k2 : B -> M C) w Q :
  post (bind m (fun a => bind (k1 a) k2)) w Q -> post (bind (bind m k1) k2) w Q.
Proof.
  unfold post, bind. destruct (m w) as [a w'| |]; intros H; exact H.
Qed.

Lemma post_bind_get_expression {B} i (k : option regex_node -> M B) w Q :
  i < length (symbols w) ->
  (forall s, symbols w !! i = Some s -> post (k (expression s)) w Q) ->
  post (bind (get_expression i) k) w Q.
Proof.
  intros Hlt H. unfold post, bind, get_expression, bind, get_symbols.
  destruct (symbols w !! i) as [s|] eqn:E; [apply (H s); reflexivity|].
  apply lookup_ge_None in E. lia.
Qed.

Lemma post_bind_set_lexeme {B} i b (k : unit -> M B) w Q :
  i < length (symbols w) ->
  (forall s, symbols w !! i = Some s ->
     post (k tt) (mk_world (parser w)
                           (<[i := mk_symbol (name s) b (expression s)]> (symbols w))
                           (avail w)) Q) ->
  post (bind (set_lexeme i b) k) w Q.
Proof.
  intros Hlt H. unfold post, bind, set_lexeme, bind, get_symbols.
  destruct (symbols w !! i) as [s|] eqn:E; [apply (H s); reflexivity|].
  apply lookup_ge_None in E. lia.
Qed.

Lemma post_bind_set_expression {B} i e (k : unit -> M B) w Q :
  i < length (symbols w) ->
  (forall s, symbols w !! i = Some s ->
     post (k tt) (mk_world (parser w)
                           (<[i := mk_symbol (name s) (lexeme s) (Some e)]> (symbols w))
                           (avail w)) Q) ->
  post (bind (set_expression i e) k) w Q.
Proof.
  intros Hlt H. unfold post, bind, set_expression, bind, get_symbols.
  destruct (symbols w !! i) as [s|] eqn:E; [apply (H s); reflexivity|].
  apply lookup_ge_None in E. lia.
Qed.

(** One step of a function body, also through the conditionals and
    sequences of [parse_symbol]. *)
Ltac pstep' :=
  lazymatch goal with
  | |- post (bind (ret _) _) _ _ => apply post_bind_ret
  | |- post (bind (bind _ _) _) _ _ => apply post_bind_assoc
  | |- post (bind (if ?b then _ else _) _) _ _ => destruct b eqn:?
  | |- post (bind parser_skip_comment _) _ _ =>
      unfold parser_skip_comment, parser_skip_until
  | _ => pstep
  end.

(** The closing goal of a branch of [parse_symbol] with a result other
    than [0]. *)
Ltac psfail w0 w1 Hm Hi :=
  apply (symbol_spec_step w0 w1);
  [exact Hm | exact Hi | reflexivity | bounds | bounds | reflexivity
  | intros ?; discriminate].

Lemma parse_symbol_spec fuel w :
  parser_inv w -> post (parse_symbol fuel) w (symbol_spec w).
Proof.
  intros Hi. pose proof (descends_refl w) as Hd. unfold parse_symbol.
  pstep'.
  assert (Hname : definition_name w
                  = parser_at (parser w)
                      (pos (parser w) + (if char_eqb c REGEX_PARSER_LEXEME then 1 else 0))
                      (prefix_len is_identifier
                         (drop (pos (parser w)
                                + (if char_eqb c REGEX_PARSER_LEXEME then 1 else 0))
                               (buf (parser w))))).
  { unfold definition_name.
    match goal with
    | E : buf (parser w) !! pos (parser w) = Some c |- _ => rewrite E
    end.
    reflexivity. }
  lazymatch goal with
  | |- post (bind (if ?b then parser_skip else ret tt) ?k) _ _ =>
      assert (Hrest : forall W,
                 buf (parser W) = buf (parser w) ->
                 pos (parser W) = pos (parser w) + (if b then 1 else 0) ->
                 pos (parser W) <= length (buf (parser w)) -> symbols W = symbols w ->
                 error (parser W) = error (parser w) ->
                 post (k tt) W (symbol_spec w));
      [|destruct b eqn:Eb; [pstep'|pstep']; apply Hrest; try reflexivity;
        simpl; bounds]
  end.
  intros W Hb Hp1 Hp2 Hs He. cbv beta.
  destruct (spec_step w w W Hd Hi Hb ltac:(lia) Hp2 Hs) as [HiW HdW].
  pstep'. pstep'. pstep'.
  lazymatch goal with
  | |- post _ ?W1 _ =>
      destruct (spec_step w W W1 HdW HiW) as [Hi1 Hd1];
        [reflexivity | bounds | bounds | reflexivity|];
      eapply post_bind_call;
        [apply (get_or_create_regex_symbol_keeps _ _ W1 Hi1)|]
  end.
  { simpl.
    replace (pos (parser W) + _ - pos (parser W))
      with (prefix_len is_identifier (drop (pos (parser W)) (buf (parser W)))) by lia.
    apply (identifier_run_no_NUL (advance (parser W) _)). }
  intros r w2 (Hi2 & Hd2 & Hq2 & Hr2).
  pose proof (descends_moves _ _ (descends_trans _ _ _ Hd1 Hd2)) as Hm2.
  destruct r as [i|]; cbv beta iota; [|pstep'; psfail w w2 Hm2 Hi2].
  destruct (Hr2 i eq_refl) as (Hlt & He2 & Hmax & s0 & Hs0 & Hn0). simpl in He2.
  assert (Hdef : name s0 = definition_name w
                 /\ length (definition_name w) + 1 <= MAX_REGEX_SYMBOL_NAME_LENGTH).
  { rewrite Hn0, Hname. unfold parser_at in *. simpl in *.
    rewrite <- Hb, <- Hp1.
    pose proof (prefix_len_le is_identifier (drop (pos (parser W)) (buf (parser W)))) as Hle.
    replace (pos (parser W)
             + prefix_len is_identifier (drop (pos (parser W)) (buf (parser W)))
             - pos (parser W))
      with (prefix_len is_identifier (drop (pos (parser W)) (buf (parser W)))) in * by lia.
    split; [reflexivity|]. rewrite length_take. lia. }
  destruct Hdef as [Hdef Hlen]. clear Hname Hn0 Hmax.
  apply post_bind_get_expression; [exact Hlt|]. intros s2 Hs2.
  assert (s0 = s2) by (unfold regex_symbols in *; congruence). subst s0. clear Hs0.
  destruct (expression s2) as [e2|] eqn:Ee2.
  { pstep'. pstep'. psfail w w2 Hm2 Hi2. }
  apply post_bind_set_lexeme; [exact Hlt|]. intros s2' Hs2'.
  assert (s2' = s2) by congruence. subst s2'. rewrite Ee2.
  set (lex := char_eqb c REGEX_PARSER_LEXEME).
  set (s3 := mk_symbol (name s2) lex None).
  set (w3 := mk_world (parser w2) (<[i := s3]> (symbols w2)) (avail w2)).
  assert (Hi3 : parser_inv w3).
  { apply (parser_inv_insert w2 i s2); [exact Hi2 | exact Hs2 | reflexivity|].
    intros e E. discriminate. }
  assert (Hm3 : moves w w3).
  { eapply moves_trans; [exact Hm2|]. split; [reflexivity|]. split; [simpl; lia|].
    apply (keeps_defined_insert _ _ s2); [exact Hs2 | exact Ee2 | reflexivity]. }
  assert (Hs3 : symbols w3 !! i = Some s3).
  { simpl. unfold regex_symbols in *. apply list_lookup_insert_eq.
    eapply lookup_lt_Some. exact Hs2. }
  assert (He3 : error (parser w3) = error (parser w)) by (simpl; congruence).
  assert (Hn3 : expression s3 = None) by reflexivity.
  assert (Hdef3 : name s3 = definition_name w) by exact Hdef.
  clearbody w3 s3. clear Hs2 Hi2 Hd2 Hq2 Hr2 Hm2 He2 Hlt.
  pstep'. pstep'; [pstep'; pstep'; psfail w w3 Hm3 Hi3|].
  pstep'.
  lazymatch goal with
  | |- post (bind (if ?b then _ else ret tt) ?k) _ _ =>
      assert (Hrest2 : forall W',
                 buf (parser W') = buf (parser w3) -> pos (parser w3) <= pos (parser W') ->
                 pos (parser W') <= length (buf (parser w3)) -> symbols W' = symbols w3 ->
                 error (parser W') = error (parser w3) ->
                 post (k tt) W' (symbol_spec w));
      [|destruct b; [|pstep'; apply Hrest2; try reflexivity; bounds]]
  end.
  - intros W' Hb' Hp1' Hp2' Hs' He'. cbv beta.
    destruct (spec_step w3 w3 W' (descends_refl w3) Hi3 Hb' Hp1' Hp2' Hs') as [HiW' HdW'].
    pose proof (moves_trans _ _ _ Hm3 (descends_moves _ _ HdW')) as HmW'.
    pstep'; [pstep'; pstep'; psfail w W' HmW' HiW'|].
    eapply post_bind_call; [apply parse_regex_statement_spec; exact HiW'|].
    intros x w5 (Hi5 & Hd5 & Hx5).
    pose proof (moves_trans _ _ _ HmW' (descends_moves _ _ Hd5)) as Hm5.
    destruct x as [expr|]; cbv beta iota; [|pstep'; psfail w w5 Hm5 Hi5].
    destruct (Hx5 expr eq_refl) as [Hr5 He5].
    assert (H5 : symbols w5 !! i = Some s3).
    { destruct Hd5 as (_ & _ & (ext & Ea & _)).
      rewrite Ea. unfold regex_symbols in *. apply lookup_app_l_Some.
      rewrite Hs'. exact Hs3. }
    apply post_bind_set_expression; [eapply lookup_lt_Some; exact H5|].
    intros s5 Hs5. pstep'.
    assert (Es : s5 = s3) by congruence.
    subst s5.
    split; [|split].
    + apply (parser_inv_insert w5 i s3); [exact Hi5 | exact Hs5 | reflexivity|].
      intros e E. inversion E; subst. exact Hr5.
    + eapply moves_trans; [exact Hm5|]. split; [reflexivity|]. split; [simpl; lia|].
      apply (keeps_defined_insert _ _ s3); [exact Hs5 | exact Hn3 | reflexivity].
    + intros _. split; [simpl; congruence|].
      assert (Hnew : <[i := mk_symbol (name s3) (lexeme s3) (Some expr)]> (symbols w5) !! i
                     = Some (mk_symbol (name s3) (lexeme s3) (Some expr))).
      { unfold regex_symbols in *. apply list_lookup_insert_eq.
        eapply lookup_lt_Some. exact Hs5. }
      split;
        [|split; [exact Hlen|];
          exists i, (mk_symbol (name s3) (lexeme s3) (Some expr)), expr;
          split; [exact Hnew|]; split; [exact Hdef3 | reflexivity]].
      exists i, (mk_symbol (name s3) (lexeme s3) (Some expr)), expr.
      split; [|split; [reflexivity|]].
      * exact Hnew.
      * intros s Hs0. destruct Hm3 as (_ & _ & Hk).
        destruct (Hk i s Hs0) as (s1 & Hs1 & _ & Hsame).
        destruct (expression s) as [e0|] eqn:Ee0; [|reflexivity].
        assert (s1 = s) by (apply (Hsame e0); reflexivity). subst s1.
        unfold regex_symbols in *.
        assert (s3 = s) by congruence. subst s3. congruence.
  - do 7 pstep'. pstep'; pstep'; pstep'; apply Hrest2; try reflexivity; bounds.
Qed.

Lemma parse_regex_symbols_loop_spec fuel :
  forall w, parser_inv w ->
    post (parse_regex_symbols_loop fuel) w (fun _ w' => parser_inv w' /\ moves w w').
Proof.
  induction fuel as [|fuel IH]; intros w Hi; [exact I|].
  pose proof (descends_refl w) as Hd.
  cbn [parse_regex_symbols_loop].
  pstep'; [pstep'; split; [exact Hi | apply moves_refl]|].
  pstep'. pstep'. pstep'.
  - assert (Hrest : forall W,
               buf (parser W) = buf (parser w) -> pos (parser w) <= pos (parser W) ->
               pos (parser W) <= length (buf (parser w)) -> symbols W = symbols w ->
               post (parse_regex_symbols_loop fuel) W
                    (fun _ w' => parser_inv w' /\ moves w w')).
    { intros W Hb Hp1 Hp2 Hs.
      destruct (spec_step w w W Hd Hi Hb Hp1 Hp2 Hs) as [HiW HdW].
      eapply post_conseq; [apply IH; exact HiW|].
      intros _ w' [Hi' Hm']. split; [exact Hi'|].
      eapply moves_trans; [apply descends_moves; exact HdW | exact Hm']. }
    do 6 pstep'. pstep'; pstep'; apply Hrest; try reflexivity; bounds.
  - lazymatch goal with
    | |- post _ ?W _ =>
        destruct (spec_step w w W Hd Hi) as [HiW HdW];
          [reflexivity | bounds | bounds | reflexivity|];
        eapply post_bind_call; [apply parse_symbol_spec; exact HiW|]
    end.
    intros r w2 (Hi2 & Hm2 & _).
    pose proof (moves_trans _ _ _ (descends_moves _ _ HdW) Hm2) as Hm.
    pstep'; [pstep'; split; assumption|].
    eapply post_conseq; [apply IH; exact Hi2|].
    intros _ w' [Hi' Hm']. split; [exact Hi'|].
    eapply moves_trans; [exact Hm | exact Hm'].
Qed.

Lemma check_regex_symbols_all_defined (syms : regex_symbols) :
  check_regex_symbols syms = AllDefined <->
  Forall (fun s => expression s <> None) syms.
Proof.
  induction syms as [|s rest IH]; simpl.
  - split; [constructor | reflexivity].
  - destruct (expression s) as [e|] eqn:E.
    + rewrite IH. split.
      * intros H. constructor; [congruence | exact H].
      * intros H. inversion H; assumption.
    + split; [discriminate|]. intros H. inversion H; subst. congruence.
Qed.

Lemma refs_defined_of_refs_ok (syms : list regex_symbol) node :
  Forall (fun s => expression s <> None) syms ->
  refs_ok (length syms) node -> refs_defined syms node.
Proof.
  intros Hall. induction node as [l IHl r IHr|l IHl r IHr|a b|b IHb|i]; simpl.
  - intros [? ?]. split; auto.
  - intros [? ?]. split; auto.
  - trivial.
  - exact IHb.
  - intros Hlt. destruct (lookup_lt_is_Some_2 syms i Hlt) as [s Hs].
    rewrite Forall_lookup in Hall. pose proof (Hall i s Hs) as Hne.
    destruct (expression s) as [e|] eqn:E; [|congruence].
    exists s, e. split; assumption.
Qed.

Lemma parse_regex_symbols_returns fuel budget source syms w' :
  parse_regex_symbols fuel budget source = Done (Some syms) w' ->
  parser_inv w' /\ symbols w' = syms /\ buf (parser w') = source
  /\ error (parser w') = None
  /\ Forall (fun s => expression s <> None) syms.
Proof.
  unfold parse_regex_symbols, parse_regex_symbols_body, read_regex_file, initial_world.
  destruct budget as [|[|b]]; [discriminate | discriminate|].
  set (w0 := mk_world (mk_parser source 0 None 1 1) [] b).
  assert (Hi0 : parser_inv w0).
  { split; [simpl; lia|]. split; [constructor | constructor]. }
  pose proof (parse_regex_symbols_loop_spec fuel w0 Hi0) as Hl.
  unfold post in Hl.
  intros E.
  change (match parse_regex_symbols_loop fuel w0 with
          | Done _ w1 => parse_regex_symbols_finish w1
          | Aborted why => Aborted why
          | OutOfFuel => OutOfFuel
          end = Done (Some syms) w') in E.
  destruct (parse_regex_symbols_loop fuel w0) as [[] w1| |]; [|discriminate|discriminate].
  destruct Hl as [Hi1 (Hb1 & _ & _)].
  unfold parse_regex_symbols_finish, bind, get_parser, get_symbols, ret, parser_ok in E.
  destruct (error (parser w1)) eqn:Ee; simpl in E; [discriminate|].
  destruct (check_regex_symbols (symbols w1)) eqn:Ec; [|discriminate].
  inversion E; subst.
  split; [exact Hi1|]. split; [reflexivity|]. split; [exact Hb1|].
  split; [exact Ee|]. apply check_regex_symbols_all_defined. exact Ec.
Qed.

(** ** What [parse_regex_symbols] returns *)

Lemma parse_regex_symbols_aborts fuel budget source why :
  parse_regex_symbols fuel budget source = Aborted why ->
  why = AssertPosNotLen \/ (why = NullDereference /\ budget = 1).
Proof.
  unfold parse_regex_symbols, parse_regex_symbols_body, read_regex_file, initial_world.
  destruct budget as [|[|b]]; [discriminate | |].
  - intros E. right. split; [|reflexivity]. vm_compute in E. congruence.
  - set (w0 := mk_world (mk_parser source 0 None 1 1) [] b).
    assert (Hi0 : parser_inv w0).
    { split; [simpl; lia|]. split; [constructor | constructor]. }
    pose proof (parse_regex_symbols_loop_spec fuel w0 Hi0) as Hl.
    unfold post in Hl. intros E.
    change (match parse_regex_symbols_loop fuel w0 with
            | Done _ w1 => parse_regex_symbols_finish w1
            | Aborted why => Aborted why
            | OutOfFuel => OutOfFuel
            end = Aborted why) in E.
    destruct (parse_regex_symbols_loop fuel w0) as [[] w1|why'|]; [| |discriminate].
    + unfold parse_regex_symbols_finish, bind, get_parser, get_symbols, ret in E.
      destruct (negb (parser_ok (parser w1))); [discriminate|].
      destruct (check_regex_symbols (symbols w1)); discriminate.
    + left. congruence.
Qed.

Lemma parser_inv_empty_table p b :
  pos p <= len p -> parser_inv (mk_world p [] b).
Proof. intros H. split; [exact H|]. split; constructor. Qed.


(** X1: the symbols of a table that [parse_regex_symbols] returns have
    pairwise different names. *)
Theorem parse_regex_symbols_names_distinct fuel budget source syms w' :
  parse_regex_symbols fuel budget source = Done (Some syms) w' ->
  NoDup (map name syms).
Proof.
  intros E. destruct (parse_regex_symbols_returns _ _ _ _ _ E) as ((_ & Hn & _) & Hs & _).
  rewrite <- Hs. exact Hn.
Qed.

Lemma parse_regex_symbols_names_distinct_witness :
  parse_regex_symbols 40 12 reference_source
  = Done (Some reference_table) (reference_world_after 4)
  /\ NoDup (map name reference_table).
Proof.
  assert (E : parse_regex_symbols 40 12 reference_source
              = Done (Some reference_table) (reference_world_after 4))
    by (vm_compute; reflexivity).
  split; [exact E|].
  exact (parse_regex_symbols_names_distinct 40 12 reference_source reference_table
           (reference_world_after 4) E).
Defined.

(** X2: in a table that [parse_regex_symbols] returns, every symbol has an
    expression, and every reference in it is to a symbol of the table, which
    so has an expression as well. *)
Theorem parse_regex_symbols_references_defined fuel budget source syms w' :
  parse_regex_symbols fuel budget source = Done (Some syms) w' ->
  Forall (fun s => exists e, expression s = Some e /\ refs_defined syms e) syms.
Proof.
  intros E.
  destruct (parse_regex_symbols_returns _ _ _ _ _ E) as ((_ & _ & Ht) & Hs & _ & _ & Hall).
  rewrite Hs in Ht. unfold table_refs_ok in Ht.
  rewrite Forall_lookup in Ht, Hall. apply Forall_lookup. intros i s Hi.
  pose proof (Hall i s Hi) as Hne.
  destruct (expression s) as [e|] eqn:Ee; [|congruence].
  exists e. split; [reflexivity|].
  apply refs_defined_of_refs_ok; [apply Forall_lookup; exact Hall|].
  apply (Ht i s Hi). exact Ee.
Qed.

Lemma parse_regex_symbols_references_defined_witness :
  parse_regex_symbols 40 12 reference_source
  = Done (Some reference_table) (reference_world_after 4)
  /\ Forall (fun s => exists e, expression s = Some e /\ refs_defined reference_table e)
            reference_table.
Proof.
  assert (E : parse_regex_symbols 40 12 reference_source
              = Done (Some reference_table) (reference_world_after 4))
    by (vm_compute; reflexivity).
  split; [exact E|].
  exact (parse_regex_symbols_references_defined 40 12 reference_source reference_table
           (reference_world_after 4) E).
Defined.

(** X3: [parse_regex_symbols] stops without returning in two ways only: at
    a failed [assert(parser->pos != parser->len)] of [parser_peek] or
    [parser_skip], and, when the one allocation that is left went to the
    buffer, at the store through the NULL that [malloc] returned for the
    table.  So [parser_peek] and [parser_skip] never read [buf[pos]] with
    [pos] beyond [len], and [parse_symbol] reaches no symbol through a NULL
    pointer.  The reads of a name in [get_or_create_regex_symbol] are no
    part of this: the embedding has no outcome in which they fail. *)
Theorem parse_regex_symbols_stops_only_at_assert fuel budget source why :
  parse_regex_symbols fuel budget source = Aborted why ->
  why = AssertPosNotLen \/ (why = NullDereference /\ budget = 1).
Proof. apply parse_regex_symbols_aborts. Qed.

Lemma parse_regex_symbols_stops_only_at_assert_witness :
  parse_regex_symbols 20 20 trailing_newline_source = Aborted AssertPosNotLen
  /\ (AssertPosNotLen = AssertPosNotLen
      \/ (AssertPosNotLen = NullDereference /\ 20 = 1)).
Proof.
  assert (E : parse_regex_symbols 20 20 trailing_newline_source = Aborted AssertPosNotLen)
    by (vm_compute; reflexivity).
  split; [exact E|].
  exact (parse_regex_symbols_stops_only_at_assert 20 20 trailing_newline_source _ E).
Defined.

(** X4: [parse_regex_statement] leaves the buffer as it is, moves the
    position forward and not beyond the end of the buffer, and changes the
    table only by appending symbols that have no expression and are no
    lexemes; the names stay pairwise different. *)
Theorem parse_regex_statement_extends_table fuel w r w' :
  parser_inv w ->
  parse_regex_statement fuel w = Done r w' ->
  buf (parser w') = buf (parser w)
  /\ pos (parser w) <= pos (parser w') /\ pos (parser w') <= len (parser w')
  /\ appended (symbols w) (symbols w')
  /\ NoDup (map name (symbols w')).
Proof.
  intros Hi E.
  destruct (post_Done _ _ _ _ _ (parse_regex_statement_spec fuel w Hi) E)
    as ((Hp & Hn & _) & (Hb & Hq & Ha) & _).
  repeat split; assumption.
Qed.

Lemma parse_regex_statement_extends_table_witness :
  parser_inv statement_world
  /\ parse_regex_statement 20 statement_world
     = Done (Some (Branch (Reference 0) (Loop (Range 97 122)))) statement_world_after
  /\ buf (parser statement_world_after) = buf (parser statement_world)
  /\ pos (parser statement_world) <= pos (parser statement_world_after)
  /\ pos (parser statement_world_after) <= len (parser statement_world_after)
  /\ appended (symbols statement_world) (symbols statement_world_after)
  /\ NoDup (map name (symbols statement_world_after)).
Proof.
  assert (Hi : parser_inv statement_world)
    by (apply parser_inv_empty_table; unfold len; simpl; lia).
  assert (E : parse_regex_statement 20 statement_world
              = Done (Some (Branch (Reference 0) (Loop (Range 97 122))))
                     statement_world_after)
    by (vm_compute; reflexivity).
  split; [exact Hi|]. split; [exact E|].
  exact (parse_regex_statement_extends_table 20 statement_world _ _ Hi E).
Defined.

(** X5: when [parse_regex_statement] returns a node, every reference in it
    is to a symbol of the table, and no error was set. *)
Theorem parse_regex_statement_node_is_sound fuel w node w' :
  parser_inv w ->
  parse_regex_statement fuel w = Done (Some node) w' ->
  refs_ok (length (symbols w')) node /\ error (parser w') = error (parser w).
Proof.
  intros Hi E.
  destruct (post_Done _ _ _ _ _ (parse_regex_statement_spec fuel w Hi) E)
    as (_ & _ & H).
  exact (H node eq_refl).
Qed.

Lemma parse_regex_statement_node_is_sound_witness :
  parser_inv statement_world
  /\ parse_regex_statement 20 statement_world
     = Done (Some (Branch (Reference 0) (Loop (Range 97 122)))) statement_world_after
  /\ refs_ok (length (symbols statement_world_after))
             (Branch (Reference 0) (Loop (Range 97 122)))
  /\ error (parser statement_world_after) = error (parser statement_world).
Proof.
  assert (Hi : parser_inv statement_world)
    by (apply parser_inv_empty_table; unfold len; simpl; lia).
  assert (E : parse_regex_statement 20 statement_world
              = Done (Some (Branch (Reference 0) (Loop (Range 97 122))))
                     statement_world_after)
    by (vm_compute; reflexivity).
  split; [exact Hi|]. split; [exact E|].
  exact (parse_regex_statement_node_is_sound 20 statement_world _ _ Hi E).
Defined.

Lemma second_symbol_world_inv : parser_inv second_symbol_world.
Proof.
  split; [unfold len; simpl; lia|]. split.
  - apply NoDup_singleton.
  - constructor; [|constructor]. intros e E. inversion E. exact I.
Qed.

Lemma second_symbol_world_run :
  parse_symbol 20 second_symbol_world = Done 0%Z second_symbol_world_after.
Proof. vm_compute. reflexivity. Qed.

(** X6: [parse_symbol] keeps every symbol of the table at its place and
    under its name, and leaves a symbol that has an expression as it is;
    the names stay pairwise different and the references inside the
    table. *)
Theorem parse_symbol_keeps_defined_symbols fuel w r w' :
  parser_inv w ->
  parse_symbol fuel w = Done r w' ->
  parser_inv w' /\ keeps_defined (symbols w) (symbols w').
Proof.
  intros Hi E.
  destruct (post_Done _ _ _ _ _ (parse_symbol_spec fuel w Hi) E)
    as (Hi' & (_ & _ & Hk) & _).
  split; assumption.
Qed.

Lemma parse_symbol_keeps_defined_symbols_witness :
  parser_inv second_symbol_world
  /\ parse_symbol 20 second_symbol_world = Done 0%Z second_symbol_world_after
  /\ parser_inv second_symbol_world_after
  /\ keeps_defined (symbols second_symbol_world) (symbols second_symbol_world_after).
Proof.
  split; [exact second_symbol_world_inv|]. split; [exact second_symbol_world_run|].
  exact (parse_symbol_keeps_defined_symbols 20 second_symbol_world _ _
           second_symbol_world_inv second_symbol_world_run).
Defined.

(** X7: when [parse_symbol] returns 0, it has given an expression to a
    symbol that had none or was not in the table, and has set no error. *)
Theorem parse_symbol_defines_a_symbol fuel w w' :
  parser_inv w ->
  parse_symbol fuel w = Done 0%Z w' ->
  error (parser w') = error (parser w) /\ defines (symbols w) (symbols w').
Proof.
  intros Hi E.
  destruct (post_Done _ _ _ _ _ (parse_symbol_spec fuel w Hi) E) as (_ & _ & H).
  destruct (H eq_refl) as (He & Hd & _). split; assumption.
Qed.

Lemma parse_symbol_defines_a_symbol_witness :
  parser_inv second_symbol_world
  /\ parse_symbol 20 second_symbol_world = Done 0%Z second_symbol_world_after
  /\ error (parser second_symbol_world_after) = error (parser second_symbol_world)
  /\ defines (symbols second_symbol_world) (symbols second_symbol_world_after).
Proof.
  split; [exact second_symbol_world_inv|]. split; [exact second_symbol_world_run|].
  exact (parse_symbol_defines_a_symbol 20 second_symbol_world _
           second_symbol_world_inv second_symbol_world_run).
Defined.

(** ** A second definition of a name *)

Lemma post_bind_ret_r {A} (m : M A) w (Q : A -> world -> Prop) :
  post (bind m (fun a => ret a)) w Q -> post m w Q.
Proof. unfold post, bind, ret. destruct (m w); intros H; exact H. Qed.

Lemma parser_skip_whitespace_keeps w :
  parser_inv w ->
  post parser_skip_whitespace w (fun _ w' => parser_inv w' /\ descends w w').
Proof.
  intros Hi. apply post_bind_ret_r. pstep. pstep.
  apply (spec_step w w); [apply descends_refl | exact Hi | reflexivity | bounds | bounds
                         | reflexivity].
Qed.

Lemma parser_skip_comment_keeps w :
  parser_inv w ->
  post parser_skip_comment w (fun _ w' => parser_inv w' /\ descends w w').
Proof.
  intros Hi. apply post_bind_ret_r.
  assert (Hrest : forall W,
             buf (parser W) = buf (parser w) -> pos (parser w) <= pos (parser W) ->
             pos (parser W) <= length (buf (parser w)) -> symbols W = symbols w ->
             post (ret tt) W (fun _ w' => parser_inv w' /\ descends w w')).
  { intros W Hb Hp1 Hp2 Hs. apply post_ret.
    apply (spec_step w w); [apply descends_refl | exact Hi | exact Hb | exact Hp1
                           | exact Hp2 | exact Hs]. }
  do 6 pstep'. pstep'; pstep'; apply Hrest; try reflexivity; bounds.
Qed.

(** What the loop of [parse_regex_symbols] keeps as long as it goes on. *)
Lemma reaches_keeps w w' :
  parser_inv w -> reaches w w' ->
  parser_inv w' /\ keeps_defined (symbols w) (symbols w').
Proof.
  intros Hi Hr. induction Hr as [|w1 w2 _ [Hi1 Hk1] E|w1 w2 _ [Hi1 Hk1] E
                                |fuel w1 w2 _ [Hi1 Hk1] E].
  - split; [exact Hi | apply keeps_defined_refl].
  - destruct (post_Done _ _ _ _ _ (parser_skip_whitespace_keeps w1 Hi1) E) as [Hi2 Hd2].
    split; [exact Hi2|]. eapply keeps_defined_trans; [exact Hk1|].
    apply appended_keeps. apply Hd2.
  - destruct (post_Done _ _ _ _ _ (parser_skip_comment_keeps w1 Hi1) E) as [Hi2 Hd2].
    split; [exact Hi2|]. eapply keeps_defined_trans; [exact Hk1|].
    apply appended_keeps. apply Hd2.
  - destruct (post_Done _ _ _ _ _ (parse_symbol_spec fuel w1 Hi1) E)
      as (Hi2 & (_ & _ & Hk2) & _).
    split; [exact Hi2|]. eapply keeps_defined_trans; eassumption.
Qed.

(** In a table of pairwise different names a name is at one place. *)
Lemma NoDup_names_lookup (syms : list regex_symbol) :
  NoDup (map name syms) ->
  forall i j a b, syms !! i = Some a -> syms !! j = Some b -> name a = name b -> i = j.
Proof.
  intros Hn i j a b Ha Hb E.
  change (map name syms) with (name <$> syms) in Hn.
  apply (NoDup_lookup (name <$> syms) i j (name a) Hn).
  - rewrite list_lookup_fmap. unfold regex_symbols in *. rewrite Ha. reflexivity.
  - rewrite list_lookup_fmap. unfold regex_symbols in *. rewrite Hb, E. reflexivity.
Qed.

(** [parse_regex_symbols] enters its loop in [loop_entry_world]: two
    allocations, of the buffer and of the table, come before. *)
Lemma parse_regex_symbols_enters_loop fuel budget source :
  parse_regex_symbols fuel (S (S budget)) source
  = (parse_regex_symbols_loop fuel ;;; parse_regex_symbols_finish)
      (loop_entry_world source budget).
Proof. reflexivity. Qed.

(** A second definition of a name, in whatever state the parser comes to
    it: let [parse_symbol] return [0] in [w], a state that the parser
    reaches in the file [source], and let the parser go on from there to a
    state [w2] with a byte [c] at the position, in which the name of a
    definition is the one defined in [w].  Then [parse_symbol] returns [-1]
    in [w2], behind that name and with the parser error
    "multiple definitions for symbol", and the symbol of that name is in the
    table as the first definition left it. *)
Lemma second_definition_is_rejected source budget fuel fuel' (w w1 w2 : world) c :
  reaches (loop_entry_world source budget) w ->
  parse_symbol fuel w = Done 0%Z w1 ->
  reaches w1 w2 ->
  buf (parser w2) !! pos (parser w2) = Some c ->
  definition_name w2 = definition_name w ->
  let k := if char_eqb c REGEX_PARSER_LEXEME then 1 else 0 in
  let w3 := with_parser w2 (with_error (advance (parser w2)
                                                (k + length (definition_name w)))
                                       "multiple definitions for symbol") in
  parse_symbol fuel' w2 = Done (-1)%Z w3
  /\ (is_whitespace c = false -> c <> REGEX_PARSER_COMMENT ->
      parse_regex_symbols_loop (S fuel') w2 = Done tt w3)
  /\ parse_regex_symbols_finish w3 = Done None w3
  /\ exists i s e,
       symbols w1 !! i = Some s /\ name s = definition_name w
       /\ expression s = Some e /\ symbols w3 !! i = Some s.
Proof.
  intros Hr0 E1 Hr Hc Hname k w3.
  assert (Hi0 : parser_inv (loop_entry_world source budget))
    by (apply parser_inv_empty_table; unfold len; simpl; lia).
  destruct (reaches_keeps _ _ Hi0 Hr0) as [Hi _].
  destruct (post_Done _ _ _ _ _ (parse_symbol_spec fuel w Hi) E1) as (Hi1 & _ & H).
  destruct (H eq_refl) as (_ & _ & Hlen & i & s & e & Hs & Hn & He).
  destruct (reaches_keeps _ _ Hi1 Hr) as [Hi2 Hk].
  destruct (Hk i s Hs) as (s' & Hs' & _ & Hsame).
  assert (s' = s) by (apply (Hsame e); exact He). subst s'.
  set (n := prefix_len is_identifier (drop (pos (parser w2) + k) (buf (parser w2)))).
  assert (Hdn : definition_name w2 = parser_at (parser w2) (pos (parser w2) + k) n).
  { unfold definition_name. rewrite Hc. reflexivity. }
  assert (Hln : length (definition_name w) = n).
  { rewrite <- Hname, Hdn. unfold parser_at. rewrite length_take.
    pose proof (prefix_len_le is_identifier (drop (pos (parser w2) + k) (buf (parser w2)))).
    fold n in H0. lia. }
  destruct (parse_symbol_at_defined_name fuel' w2 c i s e Hc) as (Hsym & _ & Hloop & Hfin).
  - fold k n. lia.
  - exact Hs'.
  - fold k n. congruence.
  - fold k n. intros j s'' Hj Hs'' Hn''.
    assert (j = i); [|lia].
    apply (NoDup_names_lookup (symbols w2) (proj1 (proj2 Hi2)) j i s'' s Hs'' Hs').
    congruence.
  - exact He.
  - fold k n in Hsym, Hloop, Hfin. subst w3. rewrite Hln.
    split; [exact Hsym|]. split; [exact Hloop|]. split; [exact Hfin|].
    exists i, s, e. split; [exact Hs|]. split; [exact Hn|]. split; [exact He | exact Hs'].
Qed.

Lemma turn_reaches fuel w w' : turn fuel w w' -> reaches w w'.
Proof.
  intros [w1 _ Hw _ Hc|w1 c (_ & Hw & _ & _) Hs].
  - apply (reaches_comment _ w1); [|exact Hc].
    apply (reaches_whitespace _ w); [apply reaches_here | exact Hw].
  - apply (reaches_symbol _ fuel w1); [|exact Hs].
    apply (reaches_whitespace _ w); [apply reaches_here | exact Hw].
Qed.

Lemma reaches_trans a b c : reaches a b -> reaches b c -> reaches a c.
Proof.
  intros Hab Hbc. induction Hbc as [|w1 w2 _ IH E|w1 w2 _ IH E|fuel w1 w2 _ IH E].
  - exact Hab.
  - exact (reaches_whitespace _ _ _ IH E).
  - exact (reaches_comment _ _ _ IH E).
  - exact (reaches_symbol _ _ _ _ IH E).
Qed.

Lemma turns_reaches fuel w fuel' w' : turns fuel w fuel' w' -> reaches w w'.
Proof.
  induction 1 as [fuel w|fuel w w1 fuel' w' Ht _ IH]; [apply reaches_here|].
  exact (reaches_trans _ _ _ (turn_reaches _ _ _ Ht) IH).
Qed.

(** The call of [parse_symbol] in a turn of the loop. *)
Lemma parse_regex_symbols_loop_at_definition fuel w w1 c :
  at_definition w w1 c ->
  parse_regex_symbols_loop (S fuel) w
  = (r <- parse_symbol fuel ;;
     if negb (Z.eqb r 0) then ret tt else parse_regex_symbols_loop fuel) w1.
Proof.
  intros (Hm & Hw & Hc & Hne). rewrite parse_regex_symbols_loop_S.
  unfold bind at 1. rewrite parser_has_more_eq.
  destruct (Nat.eqb_spec (pos (parser w)) (len (parser w))) as [E|_]; [contradiction|].
  cbn [negb]. rewrite (bind_Done _ _ _ _ _ Hw).
  rewrite (bind_Done _ _ _ _ _ (parser_peek_at _ _ Hc)).
  rewrite (char_eqb_neq _ _ Hne). reflexivity.
Qed.

(** After a turn the loop is what it is from the next state on. *)
Lemma turn_loop fuel w w' :
  turn fuel w w' ->
  parse_regex_symbols_loop (S fuel) w = parse_regex_symbols_loop fuel w'.
Proof.
  intros [w1 Hm Hw Hc Hs|w1 c Hd Hs].
  - rewrite parse_regex_symbols_loop_S.
    unfold bind at 1. rewrite parser_has_more_eq.
    destruct (Nat.eqb_spec (pos (parser w)) (len (parser w))) as [E|_]; [contradiction|].
    cbn [negb]. rewrite (bind_Done _ _ _ _ _ Hw).
    rewrite (bind_Done _ _ _ _ _ (parser_peek_at _ _ Hc)).
    rewrite char_eqb_refl. rewrite (bind_Done _ _ _ _ _ Hs). reflexivity.
  - rewrite (parse_regex_symbols_loop_at_definition fuel w w1 c Hd).
    rewrite (bind_Done _ _ _ _ _ Hs). reflexivity.
Qed.

Lemma turns_loop fuel w fuel' w' :
  turns fuel w fuel' w' ->
  parse_regex_symbols_loop fuel w = parse_regex_symbols_loop fuel' w'.
Proof.
  induction 1 as [fuel w|fuel w w1 fuel' w' Ht _ IH]; [reflexivity|].
  rewrite (turn_loop _ _ _ Ht). exact IH.
Qed.

(** C7.  A grammar with two definitions of one name fails to parse, with
    the error of the second definition.  Let [parse_regex_symbols], called
    for the file [source], come in its loop, after some turns, to a
    definition, read in the state [w], for which [parse_symbol] returns [0];
    and let the loop, after some more turns, come to a definition, read in
    the state [w2], of which the name (the identifier characters behind an
    optional [@]) is that of the definition read in [w].  Then
    [parse_symbol] returns [-1] in [w2], behind that name and with the
    parser error "multiple definitions for symbol"; [parse_regex_symbols]
    returns NULL in that state; and the symbol of that name is in the table
    as the first definition left it, with the expression that one gave
    it. *)
Theorem duplicate_definition_is_rejected source budget fuel0 fuel fuel'
        (wa w w1 wb w2 : world) c0 c :
  turns fuel0 (loop_entry_world source budget) (S fuel) wa ->
  at_definition wa w c0 ->
  parse_symbol fuel w = Done 0%Z w1 ->
  turns fuel w1 (S fuel') wb ->
  at_definition wb w2 c ->
  definition_name w2 = definition_name w ->
  let k := if char_eqb c REGEX_PARSER_LEXEME then 1 else 0 in
  let w3 := with_parser w2 (with_error (advance (parser w2)
                                                (k + length (definition_name w)))
                                       "multiple definitions for symbol") in
  parse_symbol fuel' w2 = Done (-1)%Z w3
  /\ parse_regex_symbols fuel0 (S (S budget)) source = Done None w3
  /\ exists i s e,
       symbols w1 !! i = Some s /\ name s = definition_name w
       /\ expression s = Some e /\ symbols w3 !! i = Some s.
Proof.
  intros Ht0 Hd0 E1 Ht Hd Hname k w3.
  assert (Hr0 : reaches (loop_entry_world source budget) w).
  { apply (reaches_whitespace _ wa); [|apply Hd0].
    exact (turns_reaches _ _ _ _ Ht0). }
  assert (Hr : reaches w1 w2).
  { apply (reaches_whitespace _ wb); [|apply Hd].
    exact (turns_reaches _ _ _ _ Ht). }
  destruct (second_definition_is_rejected source budget fuel fuel' w w1 w2 c
              Hr0 E1 Hr (proj1 (proj2 (proj2 Hd))) Hname)
    as (Hsym & _ & Hfin & Hkept).
  fold k w3 in Hsym, Hfin, Hkept.
  split; [exact Hsym|]. split; [|exact Hkept].
  rewrite parse_regex_symbols_enters_loop.
  assert (Hloop : parse_regex_symbols_loop fuel0 (loop_entry_world source budget)
                  = Done tt w3).
  { rewrite (turns_loop _ _ _ _ Ht0).
    rewrite (parse_regex_symbols_loop_at_definition fuel wa w c0 Hd0).
    rewrite (bind_Done _ _ _ _ _ E1). change (negb (0 =? 0)%Z) with false. cbv iota.
    rewrite (turns_loop _ _ _ _ Ht).
    rewrite (parse_regex_symbols_loop_at_definition fuel' wb w2 c Hd).
    rewrite (bind_Done _ _ _ _ _ Hsym). reflexivity. }
  rewrite (bind_Done _ _ _ _ _ Hloop). exact Hfin.
Qed.

Lemma duplicate_definition_is_rejected_witness :
  turns 22 (loop_entry_world redefinition_source 9) 21 (redefinition_world 6 1 [] 9)
  /\ at_definition (redefinition_world 6 1 [] 9) (redefinition_world 6 1 [] 9) "@"
  /\ parse_symbol 20 (redefinition_world 6 1 [] 9)
     = Done 0%Z (redefinition_world 13 8 [symbol_a] 7)
  /\ turns 20 (redefinition_world 13 8 [symbol_a] 7)
            19 (redefinition_world 20 15 [symbol_a; symbol_b] 5)
  /\ at_definition (redefinition_world 20 15 [symbol_a; symbol_b] 5)
                   (redefinition_world 21 16 [symbol_a; symbol_b] 5) "@"
  /\ definition_name (redefinition_world 21 16 [symbol_a; symbol_b] 5)
     = definition_name (redefinition_world 6 1 [] 9)
  /\ parse_symbol 18 (redefinition_world 21 16 [symbol_a; symbol_b] 5)
     = Done (-1)%Z redefinition_world_after
  /\ parse_regex_symbols 22 11 redefinition_source = Done None redefinition_world_after
  /\ exists i s e,
       symbols (redefinition_world 13 8 [symbol_a] 7) !! i = Some s
       /\ name s = definition_name (redefinition_world 6 1 [] 9)
       /\ expression s = Some e
       /\ symbols redefinition_world_after !! i = Some s.
Proof.
  assert (H0 : turns 22 (loop_entry_world redefinition_source 9)
                     21 (redefinition_world 6 1 [] 9)).
  { apply (turns_next 21 _ (redefinition_world 6 1 [] 9)); [|apply turns_none].
    apply (turn_comment 21 _ _ (loop_entry_world redefinition_source 9)).
    - unfold len. simpl. lia.
    - vm_compute. reflexivity.
    - reflexivity.
    - vm_compute. reflexivity. }
  assert (H1 : at_definition (redefinition_world 6 1 [] 9) (redefinition_world 6 1 [] 9) "@").
  { split; [unfold len; simpl; lia|]. split; [vm_compute; reflexivity|].
    split; [reflexivity | discriminate]. }
  assert (H2 : parse_symbol 20 (redefinition_world 6 1 [] 9)
               = Done 0%Z (redefinition_world 13 8 [symbol_a] 7))
    by (vm_compute; reflexivity).
  assert (H3 : turns 20 (redefinition_world 13 8 [symbol_a] 7)
                     19 (redefinition_world 20 15 [symbol_a; symbol_b] 5)).
  { apply (turns_next 19 _ (redefinition_world 20 15 [symbol_a; symbol_b] 5));
      [|apply turns_none].
    apply (turn_definition 19 _ _ (redefinition_world 14 9 [symbol_a] 7) "b").
    - split; [unfold len; simpl; lia|]. split; [vm_compute; reflexivity|].
      split; [reflexivity | discriminate].
    - vm_compute. reflexivity. }
  assert (H4 : at_definition (redefinition_world 20 15 [symbol_a; symbol_b] 5)
                             (redefinition_world 21 16 [symbol_a; symbol_b] 5) "@").
  { split; [unfold len; simpl; lia|]. split; [vm_compute; reflexivity|].
    split; [reflexivity | discriminate]. }
  assert (H5 : definition_name (redefinition_world 21 16 [symbol_a; symbol_b] 5)
               = definition_name (redefinition_world 6 1 [] 9))
    by (vm_compute; reflexivity).
  split; [exact H0|]. split; [exact H1|]. split; [exact H2|]. split; [exact H3|].
  split; [exact H4|]. split; [exact H5|].
  exact (duplicate_definition_is_rejected redefinition_source 9 22 20 18 _ _ _ _ _ "@" "@"
           H0 H1 H2 H3 H4 H5).
Defined.

(** * What the functions do *)

(** ** The skipping primitives *)

Lemma prefix_len_stops pred (l : list ascii) c :
  l !! prefix_len pred l = Some c -> pred c = false.
Proof.
  induction l as [|a l IH]; simpl; [discriminate|].
  destruct (pred a) eqn:E; simpl; [exact IH|].
  intros H. inversion H; subst. exact E.
Qed.

Lemma prefix_len_before pred (l : list ascii) i c :
  i < prefix_len pred l -> l !! i = Some c -> pred c = true.
Proof.
  revert i. induction l as [|a l IH]; intros i; simpl; [lia|].
  destruct (pred a) eqn:E; [|lia].
  destruct i as [|i]; simpl.
  - intros _ H. inversion H; subst. exact E.
  - intros Hlt. apply IH. lia.
Qed.

(** X8: from a position inside the buffer or at its end,
    [parser_skip_while] returns; it has skipped characters that satisfy
    the predicate, and stands at the end of the buffer or at a character
    that does not satisfy it; buffer, error and symbols are as before. *)
Theorem parser_skip_while_stops_at_first_mismatch pred w :
  pos (parser w) <= len (parser w) ->
  exists w',
    parser_skip_while pred w = Done tt w'
    /\ buf (parser w') = buf (parser w)
    /\ error (parser w') = error (parser w)
    /\ symbols w' = symbols w
    /\ pos (parser w) <= pos (parser w') /\ pos (parser w') <= len (parser w)
    /\ (forall i c, pos (parser w) <= i -> i < pos (parser w') ->
                    buf (parser w) !! i = Some c -> pred c = true)
    /\ (forall c, buf (parser w) !! pos (parser w') = Some c -> pred c = false).
Proof.
  intros Hle. eexists. split; [apply parser_skip_while_eq; exact Hle|].
  pose proof (skip_bound w pred Hle) as Hb. simpl.
  split; [reflexivity|]. split; [reflexivity|]. split; [reflexivity|].
  split; [lia|]. split; [exact Hb|]. split.
  - intros i c H1 H2 Hc.
    apply (prefix_len_before pred (drop (pos (parser w)) (buf (parser w)))
             (i - pos (parser w))); [lia|].
    rewrite lookup_drop. replace (pos (parser w) + (i - pos (parser w))) with i by lia.
    exact Hc.
  - intros c Hc.
    apply (prefix_len_stops pred (drop (pos (parser w)) (buf (parser w)))).
    rewrite lookup_drop. exact Hc.
Qed.

Lemma parser_skip_while_stops_at_first_mismatch_witness :
  pos (parser blanks_world) <= len (parser blanks_world)
  /\ exists w',
       parser_skip_while is_whitespace blanks_world = Done tt w'
       /\ buf (parser w') = buf (parser blanks_world)
       /\ error (parser w') = error (parser blanks_world)
       /\ symbols w' = symbols blanks_world
       /\ pos (parser blanks_world) <= pos (parser w')
       /\ pos (parser w') <= len (parser blanks_world)
       /\ (forall i c, pos (parser blanks_world) <= i -> i < pos (parser w') ->
                       buf (parser blanks_world) !! i = Some c -> is_whitespace c = true)
       /\ (forall c, buf (parser blanks_world) !! pos (parser w') = Some c ->
                     is_whitespace c = false).
Proof.
  assert (H : pos (parser blanks_world) <= len (parser blanks_world))
    by (unfold len; simpl; lia).
  split; [exact H|].
  exact (parser_skip_while_stops_at_first_mismatch is_whitespace blanks_world H).
Defined.

Lemma prefix_len_app_stop pred (body tail : list ascii) :
  Forall (fun c => pred c = true) body ->
  match tail with [] => True | c :: _ => pred c = false end ->
  prefix_len pred (body ++ tail) = length body.
Proof.
  intros Hb Ht. induction Hb as [|c body Hc _ IH]; simpl.
  - destruct tail as [|c tail]; simpl; [reflexivity|]. rewrite Ht. reflexivity.
  - rewrite Hc, IH. reflexivity.
Qed.

Lemma drop_S_of_drop (l : list ascii) i c rest :
  drop i l = c :: rest -> drop (S i) l = rest /\ l !! i = Some c /\ i < length l.
Proof.
  intros H. assert (Hc : l !! i = Some c).
  { rewrite <- (Nat.add_0_r i), <- lookup_drop, H. reflexivity. }
  split; [|split; [exact Hc | eapply lookup_lt_Some; exact Hc]].
  rewrite <- (Nat.add_1_r i), <- drop_drop, H. reflexivity.
Qed.

(** X9: at a comment of the characters [body], none a newline, that the
    newline [tail] ends, or the end of the buffer ([tail] is empty),
    [parser_skip_comment] skips the first character, the comment and its
    newline, and nothing behind it. *)
Theorem parser_skip_comment_skips_the_line w c0 body tail :
  drop (pos (parser w)) (buf (parser w)) = c0 :: body ++ tail ->
  Forall (fun c => is_newline c = false) body ->
  match tail with [] => True | nl :: _ => is_newline nl = true end ->
  parser_skip_comment w
  = Done tt (with_parser w (advance (parser w)
               (1 + length body + match tail with [] => 0 | _ => 1 end))).
Proof.
  intros Hd Hb Ht.
  destruct (drop_S_of_drop _ _ _ _ Hd) as (Hd1 & Hc0 & Hlt).
  unfold parser_skip_comment, parser_skip_until.
  unfold bind at 1. rewrite (parser_skip_at _ _ Hc0).
  set (w1 := with_parser w (advance (parser w) 1)).
  assert (Hd1' : drop (pos (parser w1)) (buf (parser w1)) = body ++ tail).
  { simpl. rewrite Nat.add_1_r. exact Hd1. }
  assert (Hlen : length (buf (parser w)) = pos (parser w) + 1 + length (body ++ tail)).
  { rewrite <- Hd1, length_drop. lia. }
  rewrite length_app in Hlen.
  unfold bind at 1. rewrite parser_skip_while_eq by (unfold len; simpl; lia).
  rewrite Hd1'.
  rewrite (prefix_len_app_stop (fun c => negb (is_newline c)) body tail).
  - set (w2 := with_parser w1 (advance (parser w1) (length body))).
    assert (Hd2 : drop (pos (parser w2)) (buf (parser w2)) = tail).
    { simpl.
      replace (pos (parser w) + 1 + length body)
        with (S (pos (parser w)) + length body) by lia.
      rewrite <- drop_drop, Hd1, drop_app_length. reflexivity. }
    unfold bind. rewrite parser_has_more_eq.
    assert (Ew2 : w2 = with_parser w (advance (parser w) (1 + length body))).
    { unfold w2, w1. simpl. rewrite advance_advance. reflexivity. }
    destruct tail as [|nl tail].
    + assert (E : pos (parser w2) = len (parser w2)).
      { unfold len. simpl. simpl in Hlen. lia. }
      rewrite E, Nat.eqb_refl. simpl. rewrite Ew2, Nat.add_0_r. reflexivity.
    + destruct (drop_S_of_drop _ _ _ _ Hd2) as (_ & Hnl & Hlt2).
      destruct (Nat.eqb_spec (pos (parser w2)) (len (parser w2))) as [E|E];
        [unfold len in E; lia|].
      simpl. rewrite (parser_skip_at _ _ Hnl). rewrite Ew2. simpl.
      rewrite advance_advance. reflexivity.
  - eapply Forall_impl; [exact Hb|]. intros c Hc. simpl in Hc. rewrite Hc. reflexivity.
  - destruct tail as [|nl tail]; [exact I|]. rewrite Ht. reflexivity.
Qed.

Lemma parser_skip_comment_skips_the_line_witness :
  drop (pos (parser comment_world)) (buf (parser comment_world))
  = "#"%char :: [" "; "c"]%char ++ [newline; "a"; ";"]%char
  /\ Forall (fun c => is_newline c = false) [" "; "c"]%char
  /\ is_newline newline = true
  /\ parser_skip_comment comment_world
     = Done tt (with_parser comment_world (advance (parser comment_world) (1 + 2 + 1))).
Proof.
  assert (Hd : drop (pos (parser comment_world)) (buf (parser comment_world))
               = "#"%char :: [" "; "c"]%char ++ [newline; "a"; ";"]%char) by reflexivity.
  assert (Hb : Forall (fun c => is_newline c = false) [" "; "c"]%char)
    by (repeat constructor).
  assert (Ht : is_newline newline = true) by reflexivity.
  split; [exact Hd|]. split; [exact Hb|]. split; [exact Ht|].
  exact (parser_skip_comment_skips_the_line comment_world _ _ _ Hd Hb Ht).
Defined.

Lemma char_eqb_eq a b : char_eqb a b = true <-> a = b.
Proof. apply Ascii.eqb_eq. Qed.

Lemma skip_until_with_escape_loop_eq pred fuel :
  forall escaped w,
    pos (parser w) <= len (parser w) ->
    len (parser w) - pos (parser w) < fuel ->
    skip_until_with_escape_loop fuel pred escaped w
    = Done tt (with_parser w (advance (parser w)
                 (escape_prefix_len pred escaped (drop (pos (parser w)) (buf (parser w)))))).
Proof.
  induction fuel as [|fuel IH]; intros escaped w Hle Hf; [lia|].
  cbn [skip_until_with_escape_loop]. unfold bind at 1. rewrite parser_has_more_eq.
  destruct (Nat.eqb_spec (pos (parser w)) (len (parser w))) as [E|E]; cbn [negb].
  - unfold len in E. rewrite E, drop_all. simpl.
    rewrite advance_0, with_parser_id. reflexivity.
  - assert (Hlt : pos (parser w) < length (buf (parser w))) by (unfold len in *; lia).
    destruct (lookup_lt_is_Some_2 _ _ Hlt) as [c Hc].
    unfold bind at 1. rewrite (parser_peek_at _ _ Hc).
    rewrite (lookup_drop_cons _ _ _ Hc). cbn [escape_prefix_len].
    assert (Hnext : forall e,
               (parser_skip ;;; skip_until_with_escape_loop fuel pred e) w
               = Done tt (with_parser w (advance (parser w)
                   (S (escape_prefix_len pred e (drop (S (pos (parser w))) (buf (parser w)))))))).
    { intros e. unfold bind. rewrite (parser_skip_at _ _ Hc).
      rewrite IH by (unfold len in *; simpl; lia).
      simpl. rewrite advance_advance. simpl.
      replace (pos (parser w) + 1) with (S (pos (parser w))) by lia. reflexivity. }
    destruct (char_eqb c REGEX_PARSER_ESCAPE); [apply Hnext|].
    destruct (negb escaped && pred c); [|apply Hnext].
    rewrite advance_0, with_parser_id. reflexivity.
Qed.

Lemma escape_prefix_len_le pred escaped l : escape_prefix_len pred escaped l <= length l.
Proof.
  revert escaped. induction l as [|c l IH]; intros escaped; simpl; [lia|].
  destruct (char_eqb c REGEX_PARSER_ESCAPE); [specialize (IH true); lia|].
  destruct (negb escaped && pred c); [lia | specialize (IH false); lia].
Qed.

(** Where the skip ends, and that no earlier character ends it, with the
    characters before [l] summed up in [escaped]. *)
Lemma escape_prefix_len_spec pred (l : list ascii) :
  forall escaped,
    let n := escape_prefix_len pred escaped l in
    (n = length l
     \/ exists c, l !! n = Some c /\ pred c = true /\ c <> REGEX_PARSER_ESCAPE
                  /\ match n with
                     | O => escaped = false
                     | S m => l !! m <> Some REGEX_PARSER_ESCAPE
                     end)
    /\ forall i c, i < n -> l !! i = Some c ->
         c = REGEX_PARSER_ESCAPE \/ pred c = false
         \/ match i with
            | O => escaped = true
            | S j => l !! j = Some REGEX_PARSER_ESCAPE
            end.
Proof.
  induction l as [|a l IH]; intros escaped; cbn zeta.
  - split; [left; reflexivity | intros i c Hi; simpl in Hi; lia].
  - cbn [escape_prefix_len length].
    destruct (char_eqb a REGEX_PARSER_ESCAPE) eqn:Ea.
    + apply char_eqb_eq in Ea. subst a.
      destruct (IH true) as [Hend Hbefore]. split.
      * destruct Hend as [Hend|(c & Hc & Hp & Hne & Hprev)]; [left; lia|].
        right. exists c. split; [exact Hc|]. split; [exact Hp|]. split; [exact Hne|].
        destruct (escape_prefix_len pred true l) as [|m]; [discriminate | exact Hprev].
      * intros [|i] c Hi Hc; simpl in Hc.
        -- left. congruence.
        -- destruct (Hbefore i c ltac:(lia) Hc) as [H|[H|H]]; [auto | auto|].
           right. right. destruct i as [|j]; [reflexivity | exact H].
    + assert (Hane : a <> REGEX_PARSER_ESCAPE).
      { intros E. subst a. rewrite char_eqb_refl in Ea. discriminate. }
      destruct (negb escaped && pred a) eqn:Es.
      * apply andb_true_iff in Es. destruct Es as [Hesc Hp].
        apply negb_true_iff in Hesc. split.
        -- right. exists a. split; [reflexivity|]. split; [exact Hp|].
           split; [exact Hane | exact Hesc].
        -- intros i c Hi. lia.
      * destruct (IH false) as [Hend Hbefore]. split.
        -- destruct Hend as [Hend|(c & Hc & Hp & Hne & Hprev)]; [left; lia|].
           right. exists c. split; [exact Hc|]. split; [exact Hp|]. split; [exact Hne|].
           destruct (escape_prefix_len pred false l) as [|m]; [|exact Hprev].
           simpl. congruence.
        -- intros [|i] c Hi Hc; simpl in Hc.
           ++ inversion Hc; subst c. right.
              apply andb_false_iff in Es. destruct Es as [Hesc|Hp]; [|left; exact Hp].
              right. apply negb_false_iff in Hesc. exact Hesc.
           ++ destruct (Hbefore i c ltac:(lia) Hc) as [H|[H|H]]; [auto | auto|].
              destruct i as [|j]; [discriminate|]. right. right. exact H.
Qed.

(** X10: from a position inside the buffer or at its end,
    [parser_skip_until_with_escape] returns; it stands at the end of the
    buffer or at the first character from the start that satisfies the
    predicate, is not the escape character and does not follow one. *)
Theorem parser_skip_until_with_escape_stops_unescaped pred w :
  pos (parser w) <= len (parser w) ->
  exists w',
    parser_skip_until_with_escape pred w = Done tt w'
    /\ buf (parser w') = buf (parser w)
    /\ error (parser w') = error (parser w)
    /\ symbols w' = symbols w
    /\ pos (parser w) <= pos (parser w') /\ pos (parser w') <= len (parser w)
    /\ (pos (parser w') = len (parser w)
        \/ ends_escaped_skip pred (buf (parser w)) (pos (parser w)) (pos (parser w')))
    /\ forall i, pos (parser w) <= i -> i < pos (parser w') ->
         ~ ends_escaped_skip pred (buf (parser w)) (pos (parser w)) i.
Proof.
  intros Hle. eexists. split.
  { unfold parser_skip_until_with_escape.
    apply skip_until_with_escape_loop_eq; [exact Hle | lia]. }
  set (l := drop (pos (parser w)) (buf (parser w))).
  pose proof (escape_prefix_len_le pred false l) as Hn.
  destruct (escape_prefix_len_spec pred l false) as [Hend Hbefore].
  assert (Hl : length l = len (parser w) - pos (parser w))
    by (unfold l, len; apply length_drop).
  assert (Hlk : forall i, l !! i = buf (parser w) !! (pos (parser w) + i))
    by (intros i; unfold l; apply lookup_drop).
  simpl. fold l.
  split; [reflexivity|]. split; [reflexivity|]. split; [reflexivity|].
  split; [lia|]. split; [lia|]. split.
  - destruct Hend as [Hend|(c & Hc & Hp & Hne & Hprev)]; [left; lia|].
    right. exists c. rewrite Hlk in Hc. split; [exact Hc|]. split; [exact Hp|].
    split; [exact Hne|].
    destruct (escape_prefix_len pred false l) as [|m]; [left; lia|].
    right. rewrite Hlk in Hprev.
    replace (pos (parser w) + S m - 1) with (pos (parser w) + m) by lia. exact Hprev.
  - intros i H1 H2 (c & Hc & Hp & Hne & Hprev).
    assert (Hi : i = pos (parser w) + (i - pos (parser w))) by lia.
    rewrite Hi, <- Hlk in Hc.
    destruct (Hbefore (i - pos (parser w)) c ltac:(lia) Hc) as [H|[H|H]];
      [contradiction | congruence|].
    destruct (i - pos (parser w)) as [|j] eqn:Ej; [discriminate|].
    destruct Hprev as [Hprev|Hprev]; [lia|].
    apply Hprev. rewrite Hlk in H.
    replace (i - 1) with (pos (parser w) + j) by lia. exact H.
Qed.

Lemma parser_skip_until_with_escape_stops_unescaped_witness :
  pos (parser escaped_text_world) <= len (parser escaped_text_world)
  /\ exists w',
       parser_skip_until_with_escape is_literal escaped_text_world = Done tt w'
       /\ buf (parser w') = buf (parser escaped_text_world)
       /\ error (parser w') = error (parser escaped_text_world)
       /\ symbols w' = symbols escaped_text_world
       /\ pos (parser escaped_text_world) <= pos (parser w')
       /\ pos (parser w') <= len (parser escaped_text_world)
       /\ (pos (parser w') = len (parser escaped_text_world)
           \/ ends_escaped_skip is_literal (buf (parser escaped_text_world))
                (pos (parser escaped_text_world)) (pos (parser w')))
       /\ forall i, pos (parser escaped_text_world) <= i -> i < pos (parser w') ->
            ~ ends_escaped_skip is_literal (buf (parser escaped_text_world))
                (pos (parser escaped_text_world)) i.
Proof.
  assert (H : pos (parser escaped_text_world) <= len (parser escaped_text_world))
    by (unfold len; simpl; lia).
  split; [exact H|].
  exact (parser_skip_until_with_escape_stops_unescaped is_literal escaped_text_world H).
Defined.

(** ** Ranges *)

Lemma post_and {A} (m : M A) w (Q1 Q2 : A -> world -> Prop) :
  post m w Q1 -> post m w Q2 -> post m w (fun a w' => Q1 a w' /\ Q2 a w').
Proof.
  unfold post. destruct (m w); intros H1 H2; [split; assumption | exact H1 | exact I].
Qed.

(** The closing goal of a branch that has to have set the error when it
    returns NULL. *)
Ltac pflag := cbv beta; intros ?; first [discriminate | simpl; discriminate | assumption].

Lemma parse_regex_range_bound_flags w :
  parser_inv w ->
  post parse_regex_range_bound w (fun r w' => r = None -> error (parser w') <> None).
Proof.
  intros Hi. unfold parse_regex_range_bound. repeat pstep; pflag.
Qed.

(** A call of [parse_regex_range_bound] from the state of the goal. *)
Ltac pbound w0 w1 Hd Hi w2 Hd2 Hi2 Hf2 :=
  lazymatch goal with
  | |- post (bind _ _) ?W _ =>
      let Hx := fresh "Hx" in
      let r := fresh "r" in
      let He := fresh "He" in
      assert (Hx : parser_inv W /\ descends w0 W)
        by (apply (spec_step w0 w1 W Hd Hi); [reflexivity | bounds | bounds | reflexivity]);
      eapply post_bind_call;
        [apply post_and;
           [apply parse_regex_range_bound_spec | apply parse_regex_range_bound_flags];
           exact (proj1 Hx)|];
      intros r w2 [(Hi2 & Hd2 & He) Hf2];
      apply (descends_trans _ _ _ (proj2 Hx)) in Hd2;
      destruct r; cbv beta iota; [|pstep; intros _; exact (Hf2 eq_refl)]
  end.

Lemma parse_regex_range_flags w :
  parser_inv w ->
  post parse_regex_range w (fun r w' => r = None -> error (parser w') <> None).
Proof.
  intros Hi. pose proof (descends_refl w) as Hd. unfold parse_regex_range.
  pstep. pstep.
  pbound w w Hd Hi w2 Hd2 Hi2 Hf2.
  pstep. pstep; [pstep; pstep; pflag|].
  pstep. pstep; [pstep; pstep; pflag|].
  pstep. pstep.
  pbound w w2 Hd2 Hi2 w3 Hd3 Hi3 Hf3.
  pstep. pstep; [pstep; pstep; pflag|].
  pstep. pstep; [pstep; pstep; pflag|].
  pstep. pstep; [pstep; pstep; pflag|].
  pstep. pflag.
Qed.

(** X11: when [parse_regex_range] returns NULL, it has set the parser
    error, also when it is the allocation of the node that failed. *)
Theorem parse_regex_range_failure_sets_error w w' :
  parser_inv w ->
  parse_regex_range w = Done None w' ->
  exists msg, error (parser w') = Some msg.
Proof.
  intros Hi E.
  pose proof (post_Done _ _ _ _ _ (parse_regex_range_flags w Hi) E eq_refl) as H.
  destruct (error (parser w')) as [msg|]; [exists msg; reflexivity | contradiction].
Qed.

Lemma parse_regex_range_failure_sets_error_witness :
  parser_inv open_range_world
  /\ parse_regex_range open_range_world = Done None open_range_world_after
  /\ exists msg, error (parser open_range_world_after) = Some msg.
Proof.
  assert (Hi : parser_inv open_range_world)
    by (apply parser_inv_empty_table; unfold len; simpl; lia).
  assert (E : parse_regex_range open_range_world = Done None open_range_world_after)
    by (vm_compute; reflexivity).
  split; [exact Hi|]. split; [exact E|].
  exact (parse_regex_range_failure_sets_error open_range_world _ Hi E).
Defined.

Lemma remaining_skipped w k :
  remaining (skipped w k) = drop k (remaining w).
Proof. unfold remaining, skipped. simpl. rewrite drop_drop. reflexivity. Qed.

Lemma skipped_skipped w a b : skipped (skipped w a) b = skipped w (a + b).
Proof. unfold skipped. simpl. rewrite advance_advance. reflexivity. Qed.

Lemma remaining_lookup w c r :
  remaining w = c :: r -> buf (parser w) !! pos (parser w) = Some c.
Proof. unfold remaining. intros H. apply drop_S_of_drop in H. tauto. Qed.

Lemma bind_has_more_remaining {B} (k : bool -> M B) w c r :
  remaining w = c :: r -> bind parser_has_more k w = k true w.
Proof.
  intros H. apply remaining_lookup, lookup_lt_Some in H.
  unfold bind. rewrite parser_has_more_eq.
  destruct (Nat.eqb_spec (pos (parser w)) (len (parser w))) as [E|E];
    [unfold len in E; lia | reflexivity].
Qed.

Lemma bind_peek_remaining {B} (k : ascii -> M B) w c r :
  remaining w = c :: r -> bind parser_peek k w = k c w.
Proof.
  intros H. unfold bind. rewrite (parser_peek_at _ _ (remaining_lookup _ _ _ H)).
  reflexivity.
Qed.

Lemma bind_skip_remaining {B} (k : unit -> M B) w c r :
  remaining w = c :: r -> bind parser_skip k w = k tt (skipped w 1).
Proof.
  intros H. unfold bind. rewrite (parser_skip_at _ _ (remaining_lookup _ _ _ H)).
  reflexivity.
Qed.

Lemma bind_skip_whitespace_remaining {B} (k : unit -> M B) w ws c r :
  remaining w = ws ++ c :: r ->
  Forall (fun x => is_whitespace x = true) ws ->
  is_whitespace c = false ->
  bind parser_skip_whitespace k w = k tt (skipped w (length ws)).
Proof.
  intros H Hws Hc. unfold bind, parser_skip_whitespace.
  assert (Hle : pos (parser w) <= len (parser w)).
  { unfold remaining in H. unfold len.
    destruct (Nat.le_gt_cases (pos (parser w)) (length (buf (parser w)))) as [?|Hgt];
      [assumption|].
    rewrite drop_ge in H by lia. destruct ws; discriminate. }
  rewrite parser_skip_while_eq by exact Hle.
  fold (remaining w). rewrite H.
  rewrite (prefix_len_app_stop is_whitespace ws (c :: r) Hws Hc). reflexivity.
Qed.

Lemma parse_regex_range_bound_plain {B} (k : option ascii -> M B) w c r :
  remaining w = c :: r ->
  c <> REGEX_PARSER_ESCAPE -> c <> REGEX_PARSER_RANGE_END ->
  bind parse_regex_range_bound k w = k (Some c) (skipped w 1).
Proof.
  intros H H1 H2. unfold bind at 1, parse_regex_range_bound.
  rewrite (bind_has_more_remaining _ _ _ _ H). cbn [negb].
  rewrite (bind_peek_remaining _ _ _ _ H).
  rewrite (bind_skip_remaining _ _ _ _ H).
  rewrite (char_eqb_neq _ _ H1), (char_eqb_neq _ _ H2). reflexivity.
Qed.

(** X12: at a range of the bounds [a] and [b], with white space where
    [parse_regex_range] allows it, and with memory for a node,
    [parse_regex_range] returns the range node of [a] and [b], the end as
    it is written, and stands behind the closing bracket. *)
Theorem parse_regex_range_reads_bounds w c0 ws1 a ws2 ws3 b ws4 rest n :
  remaining w
  = c0 :: ws1 ++ a :: ws2 ++ REGEX_PARSER_RANGE_SEPARATOR
       :: ws3 ++ b :: ws4 ++ REGEX_PARSER_RANGE_END :: rest ->
  Forall (fun x => is_whitespace x = true) (ws1 ++ ws2 ++ ws3 ++ ws4) ->
  bound_char a -> bound_char b ->
  avail w = S n ->
  parse_regex_range w
  = Done (Some (Range (int_of_char a) (int_of_char b)))
         (mk_world (advance (parser w)
                      (5 + length ws1 + length ws2 + length ws3 + length ws4))
                   (symbols w) n).
Proof.
  intros H Hws (Ha0 & Ha1 & Ha2) (Hb0 & Hb1 & Hb2) Hn.
  rewrite !Forall_app in Hws. destruct Hws as (Hw1 & Hw2 & Hw3 & Hw4).
  unfold parse_regex_range.
  rewrite (bind_skip_remaining _ _ _ _ H).
  pose proof (remaining_skipped w 1) as R1. rewrite H in R1. simpl in R1.
  rewrite (bind_skip_whitespace_remaining _ _ _ _ _ R1 Hw1 Ha0).
  rewrite skipped_skipped.
  assert (R2 : remaining (skipped w (1 + length ws1))
               = a :: ws2 ++ REGEX_PARSER_RANGE_SEPARATOR
                   :: ws3 ++ b :: ws4 ++ REGEX_PARSER_RANGE_END :: rest).
  { rewrite remaining_skipped, H. simpl. rewrite drop_app_length. reflexivity. }
  rewrite (parse_regex_range_bound_plain _ _ _ _ R2 Ha1 Ha2). cbv beta iota.
  rewrite skipped_skipped.
  assert (R3 : remaining (skipped w (1 + length ws1 + 1))
               = ws2 ++ REGEX_PARSER_RANGE_SEPARATOR
                   :: ws3 ++ b :: ws4 ++ REGEX_PARSER_RANGE_END :: rest).
  { rewrite <- skipped_skipped, remaining_skipped, R2. reflexivity. }
  rewrite (bind_skip_whitespace_remaining _ _ _ _ _ R3 Hw2 eq_refl).
  rewrite skipped_skipped.
  assert (R4 : remaining (skipped w (1 + length ws1 + 1 + length ws2))
               = REGEX_PARSER_RANGE_SEPARATOR
                   :: ws3 ++ b :: ws4 ++ REGEX_PARSER_RANGE_END :: rest).
  { rewrite <- skipped_skipped, remaining_skipped, R3, drop_app_length. reflexivity. }
  rewrite (bind_has_more_remaining _ _ _ _ R4). cbn [negb].
  rewrite (bind_peek_remaining _ _ _ _ R4). rewrite char_eqb_refl. cbn [negb].
  rewrite (bind_skip_remaining _ _ _ _ R4). rewrite skipped_skipped.
  assert (R5 : remaining (skipped w (1 + length ws1 + 1 + length ws2 + 1))
               = ws3 ++ b :: ws4 ++ REGEX_PARSER_RANGE_END :: rest).
  { rewrite <- skipped_skipped, remaining_skipped, R4. reflexivity. }
  rewrite (bind_skip_whitespace_remaining _ _ _ _ _ R5 Hw3 Hb0).
  rewrite skipped_skipped.
  assert (R6 : remaining (skipped w (1 + length ws1 + 1 + length ws2 + 1 + length ws3))
               = b :: ws4 ++ REGEX_PARSER_RANGE_END :: rest).
  { rewrite <- skipped_skipped, remaining_skipped, R5, drop_app_length. reflexivity. }
  rewrite (parse_regex_range_bound_plain _ _ _ _ R6 Hb1 Hb2). cbv beta iota.
  rewrite skipped_skipped.
  assert (R7 : remaining (skipped w (1 + length ws1 + 1 + length ws2 + 1 + length ws3 + 1))
               = ws4 ++ REGEX_PARSER_RANGE_END :: rest).
  { rewrite <- skipped_skipped, remaining_skipped, R6. reflexivity. }
  rewrite (bind_skip_whitespace_remaining _ _ _ _ _ R7 Hw4 eq_refl).
  rewrite skipped_skipped.
  assert (R8 : remaining (skipped w (1 + length ws1 + 1 + length ws2 + 1 + length ws3 + 1
                                     + length ws4))
               = REGEX_PARSER_RANGE_END :: rest).
  { rewrite <- skipped_skipped, remaining_skipped, R7, drop_app_length. reflexivity. }
  rewrite (bind_has_more_remaining _ _ _ _ R8). cbn [negb].
  rewrite (bind_peek_remaining _ _ _ _ R8). rewrite char_eqb_refl. cbn [negb].
  rewrite (bind_skip_remaining _ _ _ _ R8). rewrite skipped_skipped.
  unfold bind, create_regex_node, malloc, skipped. simpl. rewrite Hn. simpl.
  unfold ret. f_equal. f_equal. f_equal. lia.
Qed.

Lemma parse_regex_range_reads_bounds_witness :
  remaining range_world
  = "["%char :: [" "%char] ++ "a"%char :: [" "%char] ++ REGEX_PARSER_RANGE_SEPARATOR
      :: [" "%char] ++ "z"%char :: [" "%char] ++ REGEX_PARSER_RANGE_END :: [";"%char]
  /\ Forall (fun x => is_whitespace x = true)
            ([" "%char] ++ [" "%char] ++ [" "%char] ++ [" "%char])
  /\ bound_char "a" /\ bound_char "z"
  /\ avail range_world = 1
  /\ parse_regex_range range_world
     = Done (Some (Range (int_of_char "a") (int_of_char "z")))
            (mk_world (advance (parser range_world) (5 + 1 + 1 + 1 + 1))
                      (symbols range_world) 0).
Proof.
  assert (H : remaining range_world
    = "["%char :: [" "%char] ++ "a"%char :: [" "%char] ++ REGEX_PARSER_RANGE_SEPARATOR
      :: [" "%char] ++ "z"%char :: [" "%char] ++ REGEX_PARSER_RANGE_END :: [";"%char])
    by reflexivity.
  assert (Hws : Forall (fun x => is_whitespace x = true)
                  ([" "%char] ++ [" "%char] ++ [" "%char] ++ [" "%char]))
    by (repeat constructor).
  assert (Ha : bound_char "a") by (repeat split; discriminate).
  assert (Hb : bound_char "z") by (repeat split; discriminate).
  assert (Hn : avail range_world = 1) by reflexivity.
  split; [exact H|]. split; [exact Hws|]. split; [exact Ha|]. split; [exact Hb|].
  split; [exact Hn|].
  exact (parse_regex_range_reads_bounds range_world _ _ _ _ _ _ _ _ _ H Hws Ha Hb Hn).
Defined.

(** ** Literals *)

(** X13: a literal of the characters [c :: cs], none of them a double
    quote or an escape, with memory for its nodes, parses to the range
    nodes [start = c, end = c + 1] of its characters, chained to the right
    by sequence nodes; the parser stands behind the closing quote and
    [2 * length cs + 1] allocations are used. *)
Theorem parse_literal_builds_the_sequence fuel w c cs rest a :
  remaining w = REGEX_PARSER_LITERAL :: (c :: cs) ++ REGEX_PARSER_LITERAL :: rest ->
  Forall plain (c :: cs) ->
  avail w = 1 + 2 * length cs + a ->
  S (length cs) < fuel ->
  parse_literal fuel w
  = Done (Some (literal_tree c cs))
         (mk_world (advance (parser w) (length cs + 3)) (symbols w) a).
Proof. apply parse_literal_plain. Qed.

Lemma parse_literal_builds_the_sequence_witness :
  remaining literal_world
  = REGEX_PARSER_LITERAL :: ("a" :: ["b"; "c"])%char ++ REGEX_PARSER_LITERAL :: [";"%char]
  /\ Forall plain ("a" :: ["b"; "c"])%char
  /\ avail literal_world = 1 + 2 * 2 + 0
  /\ 3 < 4
  /\ parse_literal 4 literal_world
     = Done (Some (literal_tree "a" ["b"; "c"]%char))
            (mk_world (advance (parser literal_world) (2 + 3)) (symbols literal_world) 0).
Proof.
  assert (H : remaining literal_world
              = REGEX_PARSER_LITERAL :: ("a" :: ["b"; "c"])%char
                  ++ REGEX_PARSER_LITERAL :: [";"%char]) by reflexivity.
  assert (Hp : Forall plain ("a" :: ["b"; "c"])%char)
    by (repeat constructor; discriminate).
  assert (Ha : avail literal_world = 1 + 2 * 2 + 0) by reflexivity.
  assert (Hf : 3 < 4) by lia.
  split; [exact H|]. split; [exact Hp|]. split; [exact Ha|]. split; [exact Hf|].
  exact (parse_literal_builds_the_sequence 4 literal_world _ _ _ 0 H Hp Ha Hf).
Defined.

(** X14: at a literal without characters [parse_literal] returns NULL and
    stands behind the closing quote; the parser error is as it was, and no
    memory was used. *)
Theorem parse_literal_empty_is_null_without_error fuel w rest :
  remaining w = REGEX_PARSER_LITERAL :: REGEX_PARSER_LITERAL :: rest ->
  0 < fuel ->
  exists w',
    parse_literal fuel w = Done None w'
    /\ error (parser w') = error (parser w)
    /\ pos (parser w') = pos (parser w) + 2
    /\ avail w' = avail w.
Proof.
  intros H Hf. eexists. split.
  - unfold parse_literal. rewrite (bind_skip_remaining _ _ _ _ H).
    apply (parse_literal_loop_plain [] fuel empty_tree (skipped w 1) rest (avail w)).
    + fold (remaining (skipped w 1)). rewrite remaining_skipped, H. reflexivity.
    + constructor.
    + reflexivity.
    + simpl. exact Hf.
  - simpl. split; [reflexivity|]. split; [lia | reflexivity].
Qed.

Lemma parse_literal_empty_is_null_without_error_witness :
  remaining empty_literal_world
  = REGEX_PARSER_LITERAL :: REGEX_PARSER_LITERAL :: [";"%char]
  /\ 0 < 1
  /\ exists w',
       parse_literal 1 empty_literal_world = Done None w'
       /\ error (parser w') = error (parser empty_literal_world)
       /\ pos (parser w') = pos (parser empty_literal_world) + 2
       /\ avail w' = avail empty_literal_world.
Proof.
  assert (H : remaining empty_literal_world
              = REGEX_PARSER_LITERAL :: REGEX_PARSER_LITERAL :: [";"%char]) by reflexivity.
  assert (Hf : 0 < 1) by lia.
  split; [exact H|]. split; [exact Hf|].
  exact (parse_literal_empty_is_null_without_error 1 empty_literal_world _ H Hf).
Defined.

Lemma parse_literal_loop_unterminated body :
  forall fuel tree w a,
    remaining w = body ->
    pos (parser w) <= len (parser w) ->
    Forall plain body ->
    avail w = literal_cost tree body + a ->
    length body < fuel ->
    parse_literal_loop fuel tree false w
    = Done None
           (mk_world (with_error (advance (parser w) (length body))
                                 "expected literal delimiter")
                     (symbols w) a).
Proof.
  induction body as [|c body IH]; intros fuel tree w a Hd Hle Hp Ha Hf.
  - destruct fuel as [|fuel]; [simpl in Hf; lia|].
    assert (E : pos (parser w) = len (parser w)).
    { unfold remaining in Hd. apply (f_equal length) in Hd.
      rewrite length_drop in Hd. simpl in Hd. unfold len in *. lia. }
    simpl. unfold bind at 1. rewrite parser_has_more_eq, E, Nat.eqb_refl. simpl.
    rewrite advance_0. simpl in Ha. subst a. reflexivity.
  - destruct fuel as [|fuel]; [simpl in Hf; lia|].
    pose proof (remaining_lookup _ _ _ Hd) as Hc.
    assert (Hd' : remaining (skipped w 1) = body)
      by (rewrite remaining_skipped, Hd; reflexivity).
    apply Forall_cons in Hp. destruct Hp as [[Hq He] Hp'].
    cbn [parse_literal_loop].
    rewrite (bind_has_more_remaining _ _ _ _ Hd). cbn [negb].
    rewrite (bind_peek_remaining _ _ _ _ Hd).
    rewrite (char_eqb_neq _ _ He), (char_eqb_neq _ _ Hq). cbn [andb negb].
    assert (Hstep : forall tree' a',
               avail (mk_world (parser w) (symbols w) a') = literal_cost tree' body + a ->
               (parser_skip ;;; parse_literal_loop fuel tree' false)
                 (mk_world (parser w) (symbols w) a')
               = Done None
                   (mk_world (with_error (advance (parser w) (length (c :: body)))
                                         "expected literal delimiter")
                             (symbols w) a)).
    { intros tree' a' Ha'.
      assert (Hd0 : remaining (mk_world (parser w) (symbols w) a') = c :: body)
        by exact Hd.
      rewrite (bind_skip_remaining _ _ _ _ Hd0).
      rewrite (IH fuel tree' _ a); simpl.
      - rewrite advance_advance. reflexivity.
      - exact Hd'.
      - apply lookup_lt_Some in Hc. unfold len. simpl. lia.
      - exact Hp'.
      - exact Ha'.
      - simpl in Hf. lia. }
    destruct w as [p syms av]. simpl in Ha, Hstep.
    destruct tree as [sp [lf|]]; simpl in Ha; subst av.
    + unfold bind at 1, create_regex_node, malloc. simpl.
      unfold bind at 1, add_to_regex_tree. simpl.
      unfold bind at 1, create_regex_node, malloc. simpl.
      apply Hstep. simpl. destruct body; simpl; lia.
    + unfold bind at 1, create_regex_node, malloc. simpl.
      unfold bind at 1, add_to_regex_tree. simpl.
      apply Hstep. simpl. destruct body; simpl; lia.
Qed.

(** X15: at a literal that the end of the buffer cuts off, with memory for
    the nodes of its characters, [parse_literal] returns NULL at the end of
    the buffer with the error that a delimiter was expected. *)
Theorem parse_literal_unterminated_sets_error fuel w body a :
  remaining w = REGEX_PARSER_LITERAL :: body ->
  Forall plain body ->
  avail w = literal_cost empty_tree body + a ->
  length body < fuel ->
  exists w',
    parse_literal fuel w = Done None w'
    /\ error (parser w') = Some "expected literal delimiter"%string
    /\ pos (parser w') = len (parser w).
Proof.
  intros H Hp Ha Hf. eexists. split.
  - unfold parse_literal. rewrite (bind_skip_remaining _ _ _ _ H).
    apply (parse_literal_loop_unterminated body fuel empty_tree (skipped w 1) a).
    + rewrite remaining_skipped, H. reflexivity.
    + pose proof (remaining_lookup _ _ _ H) as Hc. apply lookup_lt_Some in Hc.
      unfold len. simpl. lia.
    + exact Hp.
    + exact Ha.
    + exact Hf.
  - simpl. split; [reflexivity|].
    unfold remaining in H. apply (f_equal length) in H.
    rewrite length_drop in H. simpl in H. unfold len. lia.
Qed.

Lemma parse_literal_unterminated_sets_error_witness :
  remaining open_literal_world = REGEX_PARSER_LITERAL :: ["a"; "b"]%char
  /\ Forall plain ["a"; "b"]%char
  /\ avail open_literal_world = literal_cost empty_tree ["a"; "b"]%char + 0
  /\ 2 < 3
  /\ exists w',
       parse_literal 3 open_literal_world = Done None w'
       /\ error (parser w') = Some "expected literal delimiter"%string
       /\ pos (parser w') = len (parser open_literal_world).
Proof.
  assert (H : remaining open_literal_world = REGEX_PARSER_LITERAL :: ["a"; "b"]%char)
    by reflexivity.
  assert (Hp : Forall plain ["a"; "b"]%char) by (repeat constructor; discriminate).
  assert (Ha : avail open_literal_world = literal_cost empty_tree ["a"; "b"]%char + 0)
    by reflexivity.
  assert (Hf : 2 < 3) by lia.
  split; [exact H|]. split; [exact Hp|]. split; [exact Ha|]. split; [exact Hf|].
  exact (parse_literal_unterminated_sets_error 3 open_literal_world _ 0 H Hp Ha Hf).
Defined.

(** ** The automaton buffer *)

Lemma set_state_shape n i f :
  nfa_len (set_state n i f) = nfa_len n
  /\ nfa_size (set_state n i f) = nfa_size n
  /\ nfa_symbols (set_state n i f) = nfa_symbols n.
Proof.
  unfold set_state, nfa_len. destruct (nfa_states n !! i); simpl;
    [rewrite length_insert|]; auto.
Qed.

Lemma nfa_len_set_state n i f : nfa_len (set_state n i f) = nfa_len n.
Proof. apply set_state_shape. Qed.

Lemma nfa_size_set_state n i f : nfa_size (set_state n i f) = nfa_size n.
Proof. apply set_state_shape. Qed.

Lemma nfa_symbols_set_state n i f : nfa_symbols (set_state n i f) = nfa_symbols n.
Proof. apply set_state_shape. Qed.

Lemma set_state_fit n i f : states_fit n -> states_fit (set_state n i f).
Proof.
  unfold states_fit. destruct (set_state_shape n i f) as (-> & -> & _). auto.
Qed.

Lemma add_regex_state_cases n avail :
  states_fit n ->
  match add_regex_state n avail with
  | None => nfa_len n = nfa_size n /\ avail = 0
  | Some (id, n', avail') =>
      id = nfa_len n
      /\ nfa_states n' = nfa_states n ++ [fresh_state]
      /\ nfa_symbols n' = nfa_symbols n
      /\ states_fit n'
      /\ nfa_size n <= nfa_size n'
      /\ (avail' = avail \/ (nfa_len n = nfa_size n /\ avail = S avail'))
  end.
Proof.
  unfold states_fit, add_regex_state, nfa_len, INITIAL_REGEX_NFA_BUFFER_SIZE. intros Hfit.
  destruct (Nat.eqb_spec (length (nfa_states n)) (nfa_size n)) as [E|E].
  - destruct avail as [|avail']; [split; [exact E | reflexivity]|].
    cbv zeta. simpl. rewrite length_app. simpl.
    destruct (Nat.eqb_spec (nfa_size n) 0) as [E0|E0];
      repeat split; try reflexivity; lia.
  - simpl. rewrite length_app. simpl. repeat split; try reflexivity; lia.
Qed.

(** X16: on an automaton whose states in use fit its buffer,
    [add_regex_state] fails only when the buffer is full and [realloc]
    fails; else it returns the former length as the id of a state it puts
    behind the states in use, which stay as they are, and the states in use
    still fit the buffer, which does not shrink. *)
Theorem add_regex_state_keeps_the_buffer n avail :
  states_fit n ->
  match add_regex_state n avail with
  | None => nfa_len n = nfa_size n /\ avail = 0
  | Some (id, n', avail') =>
      id = nfa_len n
      /\ nfa_states n' = nfa_states n ++ [fresh_state]
      /\ nfa_symbols n' = nfa_symbols n
      /\ states_fit n'
      /\ nfa_size n <= nfa_size n'
      /\ (avail' = avail \/ (nfa_len n = nfa_size n /\ avail = S avail'))
  end.
Proof. apply add_regex_state_cases. Qed.

Lemma add_regex_state_keeps_the_buffer_witness :
  states_fit full_nfa
  /\ match add_regex_state full_nfa 1 with
     | None => nfa_len full_nfa = nfa_size full_nfa /\ 1 = 0
     | Some (id, n', avail') =>
         id = nfa_len full_nfa
         /\ nfa_states n' = nfa_states full_nfa ++ [fresh_state]
         /\ nfa_symbols n' = nfa_symbols full_nfa
         /\ states_fit n'
         /\ nfa_size full_nfa <= nfa_size n'
         /\ (avail' = 1 \/ (nfa_len full_nfa = nfa_size full_nfa /\ 1 = S avail'))
     end.
Proof.
  assert (H : states_fit full_nfa) by (unfold states_fit, nfa_len; simpl; lia).
  split; [exact H|].
  exact (add_regex_state_keeps_the_buffer full_nfa 1 H).
Defined.

Lemma build_regex_nfa_from_node_shape node :
  forall n avail status n' avail' first last,
    states_fit n ->
    build_regex_nfa_from_node n avail node = Built status n' avail' first last ->
    states_fit n'
    /\ nfa_len n <= nfa_len n'
    /\ nfa_symbols n' = nfa_symbols n
    /\ avail' <= avail
    /\ (status = 0%Z \/ status = (-1)%Z)
    /\ (status = (-1)%Z -> first = None /\ last = None).
Proof.
  induction node as [l IHl r IHr | l IHl r IHr | a b | body IH | i];
    intros n avail status n' avail' first last Hfit E; simpl in E.
  - inversion E; subst. repeat split; auto.
  - inversion E; subst. repeat split; auto.
  - unfold build_regex_range_nfa in E.
    pose proof (add_regex_state_cases n avail Hfit) as Ha.
    destruct (add_regex_state n avail) as [[[id n1] avail1]|].
    + destruct Ha as (_ & Hs & Hsym & Hfit1 & _ & Hav). cbv zeta in E.
      inversion E; subst.
      unfold states_fit.
      rewrite ?nfa_len_set_state, ?nfa_size_set_state, ?nfa_symbols_set_state.
      unfold states_fit, nfa_len in *.
      assert (Hl : length (nfa_states n1) = S (length (nfa_states n)))
        by (rewrite Hs, length_app; simpl; lia).
      repeat split; try congruence; try lia; auto; discriminate.
    + inversion E; subst. repeat split; auto.
  - unfold build_regex_loop_nfa in E.
    destruct (build_regex_nfa_from_node n avail body)
      as [st n1 avail1 bf bl|] eqn:Eb; [|discriminate].
    destruct (IH _ _ _ _ _ _ _ Hfit Eb) as (Hfit1 & Hlen1 & Hsym1 & Hav1 & Hst1 & _).
    destruct (Z.eqb_spec st (-1)) as [Est|Est].
    { inversion E; subst. repeat split; auto. }
    pose proof (add_regex_state_cases n1 avail1 Hfit1) as Ha.
    destruct (add_regex_state n1 avail1) as [[[id n2] avail2]|].
    + destruct Ha as (_ & Hs & Hsym & Hfit2 & _ & Hav). cbv zeta in E.
      destruct bl as [bl|]; [|discriminate].
      inversion E; subst.
      unfold states_fit.
      rewrite ?nfa_len_set_state, ?nfa_size_set_state, ?nfa_symbols_set_state.
      unfold states_fit, nfa_len in *.
      assert (Hl : length (nfa_states n2) = S (length (nfa_states n1)))
        by (rewrite Hs, length_app; simpl; lia).
      repeat split; try congruence; try lia; auto; discriminate.
    + inversion E; subst. repeat split; auto.
  - inversion E; subst. repeat split; auto.
Qed.

(** X17: on an automaton whose states in use fit its buffer,
    [build_regex_nfa_from_node] returns 0 or -1; the states in use still
    fit the buffer and are no fewer, the symbol names are the same, and
    with -1 nothing is stored in [*first] and [*last]. *)
Theorem build_regex_nfa_from_node_keeps_the_buffer node n avail status n' avail' first last :
  states_fit n ->
  build_regex_nfa_from_node n avail node = Built status n' avail' first last ->
  states_fit n'
  /\ nfa_len n <= nfa_len n'
  /\ nfa_symbols n' = nfa_symbols n
  /\ avail' <= avail
  /\ (status = 0%Z \/ status = (-1)%Z)
  /\ (status = (-1)%Z -> first = None /\ last = None).
Proof. apply build_regex_nfa_from_node_shape. Qed.

Lemma build_regex_nfa_from_node_keeps_the_buffer_witness :
  states_fit (mk_nfa [] 0 [])
  /\ build_regex_nfa_from_node (mk_nfa [] 0 []) 2 (Loop (Range 97 122))
     = Built 0 loop_nfa 1 (Some 0) (Some 1)
  /\ states_fit loop_nfa
  /\ nfa_len (mk_nfa [] 0 []) <= nfa_len loop_nfa
  /\ nfa_symbols loop_nfa = nfa_symbols (mk_nfa [] 0 [])
  /\ 1 <= 2
  /\ (0%Z = 0%Z \/ 0%Z = (-1)%Z)
  /\ (0%Z = (-1)%Z -> Some 0 = None /\ Some 1 = None).
Proof.
  assert (H : states_fit (mk_nfa [] 0 [])) by (unfold states_fit, nfa_len; simpl; lia).
  assert (E : build_regex_nfa_from_node (mk_nfa [] 0 []) 2 (Loop (Range 97 122))
              = Built 0 loop_nfa 1 (Some 0) (Some 1)) by (vm_compute; reflexivity).
  split; [exact H|]. split; [exact E|].
  exact (build_regex_nfa_from_node_keeps_the_buffer _ _ _ _ _ _ _ _ H E).
Defined.

(** ** The numbering of [debug_regex_node] *)

Lemma announced_app l1 l2 : announced (l1 ++ l2) = announced l1 ++ announced l2.
Proof.
  induction l1 as [|x l1 IH]; simpl; [reflexivity|].
  destruct x; simpl; rewrite ?IH; reflexivity.
Qed.

Lemma ids_from_app id a b :
  ids_from id (a + b) = ids_from id a ++ ids_from (id + Z.of_nat a) b.
Proof.
  revert id. induction a as [|a IH]; intros id; simpl.
  - rewrite Z.add_0_r. reflexivity.
  - rewrite IH. do 3 f_equal. lia.
Qed.

Lemma int_succ_below id : (id < INT_MAX)%Z -> int_succ id = Some (id + 1)%Z.
Proof.
  intros H. unfold int_succ. destruct (Z.ltb_spec id INT_MAX); [reflexivity | lia].
Qed.

Lemma debug_regex_node_numbers syms node :
  forall id,
    refs_ok (length syms) node ->
    (id + Z.of_nat (node_count node) <= INT_MAX)%Z ->
    exists lines,
      debug_regex_node syms node id = Some (lines, (id + Z.of_nat (node_count node))%Z)
      /\ announced lines = ids_from id (node_count node).
Proof.
  induction node as [l IHl r IHr | l IHl r IHr | a b | body IH | i];
    intros id Hr Hid; simpl in Hr, Hid; cbn [debug_regex_node node_count].
  - destruct Hr as [Hrl Hrr].
    destruct (IHl (id + 1)%Z Hrl ltac:(lia)) as (ls1 & E1 & A1).
    destruct (IHr (id + 1 + Z.of_nat (node_count l))%Z Hrr ltac:(lia)) as (ls2 & E2 & A2).
    rewrite int_succ_below by lia. rewrite E1, E2.
    replace (id + Z.of_nat (node_count l + node_count r + 1))%Z
      with (id + 1 + Z.of_nat (node_count l) + Z.of_nat (node_count r))%Z by lia.
    eexists. split; [reflexivity|].
    + simpl. rewrite announced_app. simpl. rewrite announced_app. simpl.
      rewrite A1, A2, app_nil_r.
      replace (node_count l + node_count r + 1) with (S (node_count l + node_count r))
        by lia.
      simpl. rewrite ids_from_app. reflexivity.
  - destruct Hr as [Hrl Hrr].
    destruct (IHl (id + 1)%Z Hrl ltac:(lia)) as (ls1 & E1 & A1).
    destruct (IHr (id + 1 + Z.of_nat (node_count l))%Z Hrr ltac:(lia)) as (ls2 & E2 & A2).
    rewrite int_succ_below by lia. rewrite E1, E2.
    replace (id + Z.of_nat (node_count l + node_count r + 1))%Z
      with (id + 1 + Z.of_nat (node_count l) + Z.of_nat (node_count r))%Z by lia.
    eexists. split; [reflexivity|].
    + simpl. rewrite announced_app. simpl. rewrite announced_app. simpl.
      rewrite A1, A2, app_nil_r.
      replace (node_count l + node_count r + 1) with (S (node_count l + node_count r))
        by lia.
      simpl. rewrite ids_from_app. reflexivity.
  - rewrite int_succ_below by lia. eexists. split; reflexivity.
  - destruct (IH (id + 1)%Z Hr ltac:(lia)) as (ls & E & A).
    rewrite int_succ_below by lia. rewrite E.
    replace (id + Z.of_nat (node_count body + 1))%Z
      with (id + 1 + Z.of_nat (node_count body))%Z by lia.
    eexists. split; [reflexivity|].
    + simpl. rewrite announced_app. simpl. rewrite A, app_nil_r.
      replace (node_count body + 1) with (S (node_count body)) by lia. reflexivity.
  - destruct (lookup_lt_is_Some_2 syms i Hr) as [s Hs].
    unfold regex_symbols in *. rewrite Hs.
    rewrite int_succ_below by lia. eexists. split; reflexivity.
Qed.

(** X18: on a tree whose references are to symbols of the table, and with
    ids that stay below [INT_MAX], [debug_regex_node] returns the id it was
    given plus the number of nodes of the tree, and the nodes it announces
    carry the ids from the given one on, each once and in this order. *)
Theorem debug_regex_node_numbers_the_nodes syms node id :
  refs_ok (length syms) node ->
  (id + Z.of_nat (node_count node) <= INT_MAX)%Z ->
  exists lines,
    debug_regex_node syms node id = Some (lines, (id + Z.of_nat (node_count node))%Z)
    /\ announced lines = ids_from id (node_count node).
Proof. apply debug_regex_node_numbers. Qed.

Lemma debug_regex_node_numbers_the_nodes_witness :
  refs_ok (length reference_table) (Branch (Reference 0) (Loop (Range 97 122)))
  /\ (0 + Z.of_nat (node_count (Branch (Reference 0) (Loop (Range 97 122)))) <= INT_MAX)%Z
  /\ exists lines,
       debug_regex_node reference_table (Branch (Reference 0) (Loop (Range 97 122))) 0
       = Some (lines,
               (0 + Z.of_nat (node_count (Branch (Reference 0) (Loop (Range 97 122)))))%Z)
       /\ announced lines
          = ids_from 0 (node_count (Branch (Reference 0) (Loop (Range 97 122)))).
Proof.
  assert (Hr : refs_ok (length reference_table)
                 (Branch (Reference 0) (Loop (Range 97 122))))
    by (simpl; split; [lia | exact I]).
  assert (Hid : (0 + Z.of_nat (node_count (Branch (Reference 0) (Loop (Range 97 122))))
                 <= INT_MAX)%Z) by (vm_compute; discriminate).
  split; [exact Hr|]. split; [exact Hid|].
  exact (debug_regex_node_numbers_the_nodes reference_table _ 0 Hr Hid).
Defined.

(** ** The message queues of the logger *)

Lemma load_store_eq h a m m0 : load h a = Some m0 -> load (store h a m) a = Some m.
Proof.
  unfold load, store. intros H.
  destruct (h !! a) as [x|] eqn:E; [|discriminate].
  rewrite list_lookup_insert_eq by (eapply lookup_lt_Some; exact E). reflexivity.
Qed.

Lemma load_store_ne h a b m : a <> b -> load (store h a m) b = load h b.
Proof. unfold load, store. intros H. rewrite list_lookup_insert_ne by exact H. reflexivity. Qed.

Lemma load_free_ne (h : list (option log_msg)) a b : a <> b -> load (<[a := None]> h) b = load h b.
Proof. unfold load. intros H. rewrite list_lookup_insert_ne by exact H. reflexivity. Qed.

Lemma load_free_eq (h : list (option log_msg)) a : load (<[a := None]> h) a = None.
Proof.
  unfold load. destruct (decide (a < length h)) as [Hlt|Hge].
  - rewrite list_lookup_insert_eq by exact Hlt. reflexivity.
  - rewrite (proj2 (lookup_ge_None _ _)); [reflexivity|]. rewrite length_insert. lia.
Qed.

(** A walk that does not pass [a] does not see a write to [a]. *)
Lemma chain_store_other h a m l :
  forall p, a ∉ l -> chain h p l -> chain (store h a m) p l.
Proof.
  induction l as [|b l IH]; intros p Hn; simpl; [auto|].
  intros (Hp & mb & Hb & Hc). split; [exact Hp|].
  apply not_elem_of_cons in Hn. destruct Hn as [Hab Hn].
  exists mb. split; [rewrite load_store_ne by exact Hab; exact Hb|].
  apply IH; assumption.
Qed.

Lemma chain_free_other (h : list (option log_msg)) a l :
  forall p, a ∉ l -> chain h p l -> chain (<[a := None]> h) p l.
Proof.
  induction l as [|b l IH]; intros p Hn; simpl; [auto|].
  intros (Hp & mb & Hb & Hc). split; [exact Hp|].
  apply not_elem_of_cons in Hn. destruct Hn as [Hab Hn].
  exists mb. split; [rewrite load_free_ne by exact Hab; exact Hb|].
  apply IH; assumption.
Qed.

Lemma chain_last_next h l :
  forall p t, chain h p l -> last l = Some t ->
    exists mt, load h t = Some mt /\ msg_next mt = None.
Proof.
  induction l as [|a l IH]; intros p t; simpl; [discriminate|].
  intros (_ & ma & Ha & Hc) Hl. destruct l as [|b l].
  - simpl in Hl. inversion Hl; subst. exists ma. split; [exact Ha | exact Hc].
  - apply (IH (msg_next ma) t Hc). exact Hl.
Qed.

(** The walk after the message [msg] is linked behind the last one. *)
Lemma chain_snoc h l :
  forall p t mt msg m m',
    chain h p l -> NoDup l -> last l = Some t ->
    load h t = Some mt -> msg ∉ l -> load h msg = Some m -> msg_next m' = None ->
    chain (store (store h t (set_msg_next mt (Some msg))) msg m') p (l ++ [msg]).
Proof.
  induction l as [|a l IH]; intros p t mt msg m m' Hc Hnd Hl Ht Hmsg Hm Hm';
    [discriminate|].
  simpl in Hc. destruct Hc as (Hp & ma & Ha & Hc).
  apply not_elem_of_cons in Hmsg. destruct Hmsg as [Hne Hmsg].
  apply NoDup_cons in Hnd. destruct Hnd as [Hal Hnd].
  simpl. split; [exact Hp|]. destruct l as [|b l].
  - simpl in Hl. inversion Hl; subst t. simpl in Hc.
    exists (set_msg_next mt (Some msg)). split.
    + rewrite load_store_ne by exact Hne. eapply load_store_eq. exact Ht.
    + simpl. split; [reflexivity|]. exists m'. split.
      * eapply load_store_eq. rewrite load_store_ne by (intros E; apply Hne; auto).
        exact Hm.
      * exact Hm'.
  - assert (Hat : a <> t).
    { intros E. subst t. apply Hal.
      change (last (a :: b :: l)) with (last (b :: l)) in Hl.
      rewrite last_lookup in Hl. eapply list_elem_of_lookup_2. exact Hl. }
    exists ma. split.
    + rewrite load_store_ne by exact Hne. rewrite load_store_ne by (intros E; auto).
      exact Ha.
    + apply (IH (msg_next ma) t mt msg m m'); assumption.
Qed.

Lemma same_content_store h a m m0 :
  load h a = Some m0 -> content m = content m0 -> same_content h (store h a m).
Proof.
  intros Ha Hc b mb Hb. destruct (decide (a = b)) as [<-|Hne].
  - exists m. split; [eapply load_store_eq; exact Ha|]. congruence.
  - exists mb. split; [rewrite load_store_ne by exact Hne; exact Hb | reflexivity].
Qed.

Lemma same_content_trans h1 h2 h3 :
  same_content h1 h2 -> same_content h2 h3 -> same_content h1 h3.
Proof.
  intros H12 H23 a m Ha. destruct (H12 a m Ha) as (m2 & H2 & E2).
  destruct (H23 a m2 H2) as (m3 & H3 & E3). exists m3. split; [exact H3 | congruence].
Qed.

Lemma push_log_msg_spec h q l msg m :
  queue_holds h q l -> load h msg = Some m -> msg ∉ l ->
  exists h' q',
    push_log_msg h q msg = Some (h', q')
    /\ queue_holds h' q' (l ++ [msg])
    /\ same_content h h'.
Proof.
  intros (Hc & Ht & Hnd) Hm Hmsg. unfold push_log_msg.
  destruct l as [|a l0] using rev_ind.
  - simpl in Ht, Hc. rewrite Ht, Hm. eexists _, _. split; [reflexivity|]. split.
    + split; [|split; [reflexivity | apply NoDup_singleton]].
      simpl. split; [reflexivity|]. eexists. split; [eapply load_store_eq; exact Hm|].
      reflexivity.
    + eapply same_content_store; [exact Hm | reflexivity].
  - clear IHl0. rewrite last_snoc in Ht. rewrite Ht.
    assert (Hl : last (l0 ++ [a]) = Some a) by apply last_snoc.
    destruct (chain_last_next _ _ _ _ Hc Hl) as (mt & Hmt & _).
    rewrite Hmt. cbv zeta.
    assert (Hne : a <> msg).
    { intros E. subst. apply Hmsg. apply elem_of_app. right. left. }
    rewrite load_store_ne by exact Hne. rewrite Hm.
    eexists _, _. split; [reflexivity|]. split.
    + split; [|split].
      * simpl. apply (chain_snoc h (l0 ++ [a]) (q_head q) a mt msg m); try assumption.
        reflexivity.
      * simpl. rewrite last_snoc. reflexivity.
      * apply NoDup_app. split; [exact Hnd|]. split; [|apply NoDup_singleton].
        intros x Hx Hx'. apply list_elem_of_singleton in Hx'. subst x. exact (Hmsg Hx).
    + apply (same_content_trans h (store h a (set_msg_next mt (Some msg)))).
      * apply (same_content_store h a _ mt Hmt). reflexivity.
      * apply (same_content_store _ msg _ m); [|reflexivity].
        rewrite load_store_ne by exact Hne. exact Hm.
Qed.

Lemma chain_nil_inv h l : chain h None l -> l = [].
Proof. destruct l as [|a l]; simpl; [reflexivity|]. intros [H _]. discriminate. Qed.

Lemma chain_functional h l1 :
  forall p l2, chain h p l1 -> chain h p l2 -> l1 = l2.
Proof.
  induction l1 as [|a l1 IH]; intros p l2 H1 H2; simpl in H1.
  - subst p. symmetry. eapply chain_nil_inv. exact H2.
  - destruct H1 as (Hp & ma & Ha & Hc). subst p.
    destruct l2 as [|b l2]; simpl in H2; [discriminate|].
    destruct H2 as (Hp & mb & Hb & Hc'). inversion Hp; subst b.
    assert (mb = ma) by congruence. subst mb.
    f_equal. eapply IH; eassumption.
Qed.

Lemma pop_log_msg_spec h q l :
  queue_holds h q l ->
  exists h' q',
    pop_log_msg h q = Some (h', q', head l)
    /\ queue_holds h' q' (tail l)
    /\ same_content h h'.
Proof.
  intros (Hc & Ht & Hnd). unfold pop_log_msg. destruct l as [|a l]; simpl in Hc.
  - rewrite Hc. exists h, q. split; [reflexivity|]. split.
    + split; [simpl; exact Hc|]. split; [exact Ht | exact Hnd].
    + intros b mb Hb. exists mb. split; [exact Hb | reflexivity].
  - destruct Hc as (Hp & ma & Ha & Hc). rewrite Hp, Ha. cbv zeta.
    apply NoDup_cons in Hnd. destruct Hnd as [Hal Hnd].
    eexists _, _. split; [reflexivity|]. split.
    + simpl. destruct (msg_next ma) as [b|] eqn:En.
      * destruct l as [|b' l]; simpl in Hc; [discriminate|].
        split; [|split; [exact Ht | exact Hnd]].
        simpl. apply (chain_store_other h a _ (b' :: l) (Some b) Hal). exact Hc.
      * apply chain_nil_inv in Hc. subst l.
        split; [reflexivity|]. split; [reflexivity | constructor].
    + apply (same_content_store h a _ ma Ha). reflexivity.
Qed.

Lemma move_log_msgs_into_empty h dest src l :
  queue_holds h dest [] -> queue_holds h src l ->
  exists dest',
    move_log_msgs h dest src = Some (h, dest', mk_queue None None)
    /\ queue_holds h dest' l.
Proof.
  intros (Hd & Hdt & _) (Hc & Ht & Hnd). simpl in Hd, Hdt. unfold move_log_msgs.
  destruct l as [|s l]; simpl in Hc.
  - rewrite Hc. exists dest. split.
    + destruct src as [sh st]. simpl in Hc, Ht. subst. reflexivity.
    + split; [exact Hd|]. split; [exact Hdt | constructor].
  - destruct Hc as (Hp & ms & Hs & Hc). rewrite Hp, Hd.
    eexists. split; [reflexivity|]. split; [|split; [exact Ht | exact Hnd]].
    simpl. split; [reflexivity|]. exists ms. split; assumption.
Qed.

Lemma move_log_msgs_into_filled h dest src d ld s ls :
  queue_holds h dest (d :: ld) -> queue_holds h src (s :: ls) ->
  (forall x, x ∈ d :: ld -> x ∉ s :: ls) ->
  exists h' dest',
    move_log_msgs h dest src = Some (h', dest', mk_queue None None)
    /\ chain h' (q_head dest') (d :: ld)
    /\ q_tail dest' = last (s :: ls)
    /\ same_content h h'
    /\ forall l, ~ queue_holds h' dest' l.
Proof.
  intros (Hd & Hdt & Hdn) (Hc & Ht & Hnd) Hdis. unfold move_log_msgs.
  pose proof Hc as Hc0. simpl in Hc. destruct Hc as (Hp & ms & Hs & Hc).
  pose proof Hd as Hd0. simpl in Hd. destruct Hd as (Hdp & md & Hmd & Hd).
  rewrite Hp, Hdp, Hs.
  assert (Hsd : s ∉ d :: ld).
  { intros Hin. apply (Hdis s Hin). left. }
  assert (Hd' : chain (store h s (set_msg_prev ms (Some s))) (Some d) (d :: ld)).
  { apply chain_store_other; [exact Hsd|]. rewrite <- Hdp. exact Hd0. }
  eexists _, _. split; [reflexivity|]. split; [exact Hd'|]. split; [exact Ht|].
  split; [apply (same_content_store h s _ ms Hs); reflexivity|].
  intros l (Hl & Hlt & _). simpl in Hl, Hlt.
  assert (l = d :: ld) by (eapply chain_functional; eassumption). subst l.
  assert (Ht1 : exists t, last (s :: ls) = Some t /\ t ∈ s :: ls).
  { destruct (last (s :: ls)) as [t|] eqn:El.
    - exists t. split; [reflexivity|]. rewrite last_lookup in El.
      eapply list_elem_of_lookup_2. exact El.
    - rewrite last_None in El. discriminate. }
  destruct Ht1 as (t & Et & Hin). rewrite Ht, Et in Hlt.
  symmetry in Hlt. rewrite last_lookup in Hlt.
  apply list_elem_of_lookup_2 in Hlt. exact (Hdis t Hlt Hin).
Qed.

Lemma dispose_loop_spec l :
  forall fuel h p,
    chain h p l -> NoDup l -> length l <= fuel ->
    exists h',
      dispose_loop fuel h p = Walked h'
      /\ length h' = length h
      /\ (forall a, a ∈ l -> load h' a = None)
      /\ (forall a, a ∉ l -> load h' a = load h a).
Proof.
  induction l as [|a l IH]; intros fuel h p Hc Hnd Hf; simpl in Hc.
  - subst p. exists h. split; [destruct fuel; reflexivity|]. split; [reflexivity|].
    split; [|reflexivity]. intros a Ha. apply elem_of_nil in Ha. contradiction.
  - destruct Hc as (Hp & ma & Ha & Hc). subst p.
    destruct fuel as [|fuel]; [simpl in Hf; lia|].
    apply NoDup_cons in Hnd. destruct Hnd as [Hal Hnd].
    simpl. rewrite Ha.
    destruct (IH fuel (<[a := None]> h) (msg_next ma)) as (h' & E & Hlen & Hin & Hout).
    + apply chain_free_other; assumption.
    + exact Hnd.
    + simpl in Hf. lia.
    + exists h'. split; [exact E|]. split; [rewrite Hlen; apply length_insert|]. split.
      * intros b Hb. apply elem_of_cons in Hb. destruct Hb as [->|Hb]; [|apply Hin; exact Hb].
        rewrite (Hout a Hal). apply load_free_eq.
      * intros b Hb. apply not_elem_of_cons in Hb. destruct Hb as [Hba Hb].
        rewrite (Hout b Hb). apply load_free_ne. auto.
Qed.

Lemma first_two_holds : queue_holds four_msgs first_two [0; 1].
Proof.
  split; [|split; [reflexivity|]].
  - simpl. split; [reflexivity|]. eexists. split; [reflexivity|].
    simpl. split; [reflexivity|]. eexists. split; reflexivity.
  - apply (bool_decide_unpack _). vm_compute. exact I.
Qed.

Lemma last_one_holds : queue_holds four_msgs last_one [3].
Proof.
  split; [|split; [reflexivity | apply NoDup_singleton]].
  simpl. split; [reflexivity|]. eexists. split; reflexivity.
Qed.

Lemma init_log_queue_holds h : queue_holds h init_log_queue [].
Proof. split; [reflexivity|]. split; [reflexivity | constructor]. Qed.

(** X19: [push_log_msg] puts a message that is allocated and not in the
    queue behind the messages of the queue, which stay in their order; no
    message in memory changes in what it says. *)
Theorem push_log_msg_appends h q l msg m :
  queue_holds h q l -> load h msg = Some m -> msg ∉ l ->
  exists h' q',
    push_log_msg h q msg = Some (h', q')
    /\ queue_holds h' q' (l ++ [msg])
    /\ same_content h h'.
Proof. apply push_log_msg_spec. Qed.

Lemma push_log_msg_appends_witness :
  queue_holds four_msgs first_two [0; 1]
  /\ load four_msgs 2 = Some create_log_msg
  /\ (2 ∉ [0; 1])
  /\ exists h' q',
       push_log_msg four_msgs first_two 2 = Some (h', q')
       /\ queue_holds h' q' ([0; 1] ++ [2])
       /\ same_content four_msgs h'.
Proof.
  assert (Hm : load four_msgs 2 = Some create_log_msg) by reflexivity.
  assert (Hn : 2 ∉ [0; 1]).
  { intros H. apply elem_of_cons in H. destruct H as [H|H]; [discriminate|].
    apply elem_of_cons in H. destruct H as [H|H]; [discriminate|].
    apply elem_of_nil in H. exact H. }
  split; [exact first_two_holds|]. split; [exact Hm|]. split; [exact Hn|].
  exact (push_log_msg_appends four_msgs first_two [0; 1] 2 _ first_two_holds Hm Hn).
Defined.

(** X20: [pop_log_msg] returns the first message of the queue and leaves
    the others in their order, or returns NULL on a queue without
    messages; no message in memory changes in what it says. *)
Theorem pop_log_msg_takes_the_first h q l :
  queue_holds h q l ->
  exists h' q',
    pop_log_msg h q = Some (h', q', head l)
    /\ queue_holds h' q' (tail l)
    /\ same_content h h'.
Proof. apply pop_log_msg_spec. Qed.

Lemma pop_log_msg_takes_the_first_witness :
  queue_holds four_msgs first_two [0; 1]
  /\ exists h' q',
       pop_log_msg four_msgs first_two = Some (h', q', head [0; 1])
       /\ queue_holds h' q' (tail [0; 1])
       /\ same_content four_msgs h'.
Proof.
  split; [exact first_two_holds|].
  exact (pop_log_msg_takes_the_first four_msgs first_two [0; 1] first_two_holds).
Defined.

(** X21: [move_log_msgs] into a queue without messages leaves it with the
    messages of the source in their order, and the source without
    messages; memory is as before. *)
Theorem move_log_msgs_into_empty_queue h dest src l :
  queue_holds h dest [] -> queue_holds h src l ->
  exists dest',
    move_log_msgs h dest src = Some (h, dest', mk_queue None None)
    /\ queue_holds h dest' l.
Proof. apply move_log_msgs_into_empty. Qed.

Lemma move_log_msgs_into_empty_queue_witness :
  queue_holds four_msgs init_log_queue []
  /\ queue_holds four_msgs first_two [0; 1]
  /\ exists dest',
       move_log_msgs four_msgs init_log_queue first_two
       = Some (four_msgs, dest', mk_queue None None)
       /\ queue_holds four_msgs dest' [0; 1].
Proof.
  split; [exact (init_log_queue_holds four_msgs)|]. split; [exact first_two_holds|].
  exact (move_log_msgs_into_empty_queue four_msgs init_log_queue first_two [0; 1]
           (init_log_queue_holds four_msgs) first_two_holds).
Defined.

(** X22: [move_log_msgs] into a queue that holds messages does not link
    the messages of the source behind them: from the head of the
    destination the walk still ends behind its former messages, while its
    tail is the last message of the source, so that it holds no list of
    messages any more, and the source is left without messages. *)
Theorem move_log_msgs_into_filled_queue_drops_the_source h dest src d ld s ls :
  queue_holds h dest (d :: ld) -> queue_holds h src (s :: ls) ->
  (forall x, x ∈ d :: ld -> x ∉ s :: ls) ->
  exists h' dest',
    move_log_msgs h dest src = Some (h', dest', mk_queue None None)
    /\ chain h' (q_head dest') (d :: ld)
    /\ q_tail dest' = last (s :: ls)
    /\ same_content h h'
    /\ forall l, ~ queue_holds h' dest' l.
Proof. apply move_log_msgs_into_filled. Qed.

Lemma move_log_msgs_into_filled_queue_drops_the_source_witness :
  queue_holds four_msgs first_two [0; 1]
  /\ queue_holds four_msgs last_one [3]
  /\ (forall x, x ∈ [0; 1] -> x ∉ [3])
  /\ exists h' dest',
       move_log_msgs four_msgs first_two last_one = Some (h', dest', mk_queue None None)
       /\ chain h' (q_head dest') [0; 1]
       /\ q_tail dest' = last [3]
       /\ same_content four_msgs h'
       /\ forall l, ~ queue_holds h' dest' l.
Proof.
  assert (Hdis : forall x, x ∈ [0; 1] -> x ∉ [3]).
  { intros x H1 H2. apply list_elem_of_singleton in H2. subst x.
    apply elem_of_cons in H1. destruct H1 as [H|H]; [discriminate|].
    apply elem_of_cons in H. destruct H as [H|H]; [discriminate|].
    apply elem_of_nil in H. exact H. }
  split; [exact first_two_holds|]. split; [exact last_one_holds|]. split; [exact Hdis|].
  exact (move_log_msgs_into_filled_queue_drops_the_source four_msgs first_two last_one
           0 [1] 3 [] first_two_holds last_one_holds Hdis).
Defined.

(** X23: [dispose_log_queue] ends on a queue that holds messages, has
    freed each of them, and has left every other message as it is. *)
Theorem dispose_log_queue_frees_the_messages fuel h q l :
  queue_holds h q l -> length l <= fuel ->
  exists h',
    dispose_log_queue fuel h q = Walked h'
    /\ length h' = length h
    /\ (forall a, a ∈ l -> load h' a = None)
    /\ (forall a, a ∉ l -> load h' a = load h a).
Proof.
  intros (Hc & _ & Hnd) Hf. unfold dispose_log_queue.
  apply (dispose_loop_spec l); assumption.
Qed.

Lemma dispose_log_queue_frees_the_messages_witness :
  queue_holds four_msgs first_two [0; 1]
  /\ length [0; 1] <= 2
  /\ exists h',
       dispose_log_queue 2 four_msgs first_two = Walked h'
       /\ length h' = length four_msgs
       /\ (forall a, a ∈ [0; 1] -> load h' a = None)
       /\ (forall a, a ∉ [0; 1] -> load h' a = load four_msgs a).
Proof.
  assert (Hf : length [0; 1] <= 2) by (simpl; lia).
  split; [exact first_two_holds|]. split; [exact Hf|].
  exact (dispose_log_queue_frees_the_messages 2 four_msgs first_two [0; 1]
           first_two_holds Hf).
Defined.

(** ** Statements *)

Lemma bind_Done_eq {A B} (m : M A) (k : A -> M B) w a w' :
  m w = Done a w' -> bind m k w = k a w'.
Proof. intros H. unfold bind. rewrite H. reflexivity. Qed.

Lemma bind_skip_whitespace_none {B} (k : unit -> M B) w c r :
  remaining w = c :: r -> is_whitespace c = false ->
  bind parser_skip_whitespace k w = k tt w.
Proof.
  intros H Hc.
  rewrite (bind_skip_whitespace_remaining k w [] c r H (Forall_nil_2 _) Hc).
  unfold skipped. simpl. rewrite advance_0, with_parser_id. reflexivity.
Qed.

Lemma bind_add_to_empty_tree {B} ty node (k : option regex_tree -> M B) w :
  bind (add_to_regex_tree empty_tree ty node) k w
  = k (Some (mk_tree [] (Some node))) w.
Proof. reflexivity. Qed.

(** An expression without a loop sign behind it. *)
Lemma parse_regex_loop_plain fuel w node w1 ws c2 rest :
  parse_regex_expression fuel w = Done (Some node) w1 ->
  remaining w1 = ws ++ c2 :: rest ->
  Forall (fun x => is_whitespace x = true) ws ->
  is_whitespace c2 = false -> c2 <> REGEX_PARSER_LOOP ->
  parse_regex_loop (S fuel) w = Done (Some node) (skipped w1 (length ws)).
Proof.
  intros He Hw1 Hws Hc2 Hl.
  assert (Hend : remaining (skipped w1 (length ws)) = c2 :: rest).
  { rewrite remaining_skipped, Hw1, drop_app_length. reflexivity. }
  assert (Hmore : exists c1 r1, remaining w1 = c1 :: r1).
  { destruct ws as [|x ws]; simpl in Hw1; eauto. }
  destruct Hmore as (c1 & r1 & Hmore).
  cbn [parse_regex_loop]. rewrite (bind_Done_eq _ _ _ _ _ He). cbv beta iota.
  rewrite (bind_has_more_remaining _ _ _ _ Hmore). cbn [negb].
  rewrite (bind_skip_whitespace_remaining _ _ _ _ _ Hw1 Hws Hc2).
  rewrite (bind_peek_remaining _ _ _ _ Hend).
  rewrite (char_eqb_neq _ _ Hl). reflexivity.
Qed.

(** A sequence of one element. *)
Lemma parse_regex_sequence_loop_single fuel w c r node w1 c2 rest :
  remaining w = c :: r -> ends_expression c = false ->
  parse_regex_loop fuel w = Done (Some node) w1 ->
  remaining w1 = c2 :: rest -> ends_expression c2 = true ->
  is_whitespace c2 = false ->
  (forall tree, parse_regex_sequence_loop fuel tree w1 = Done (root tree) w1) ->
  parse_regex_sequence_loop (S fuel) empty_tree w = Done (Some node) w1.
Proof.
  intros Hw Hc He Hw1 Hc2 Hws Hstop. unfold ends_expression in Hc.
  cbn [parse_regex_sequence_loop].
  rewrite (bind_has_more_remaining _ _ _ _ Hw). cbn [negb].
  rewrite (bind_peek_remaining _ _ _ _ Hw). rewrite Hc.
  rewrite (bind_Done_eq _ _ _ _ _ He). cbv beta iota.
  rewrite bind_add_to_empty_tree.
  rewrite (bind_skip_whitespace_none _ _ _ _ Hw1 Hws).
  rewrite Hstop. reflexivity.
Qed.

Lemma parse_regex_sequence_loop_stops fuel tree w c rest :
  remaining w = c :: rest -> ends_expression c = true ->
  parse_regex_sequence_loop (S fuel) tree w = Done (root tree) w.
Proof.
  intros Hw Hc. unfold ends_expression in Hc. cbn [parse_regex_sequence_loop].
  rewrite (bind_has_more_remaining _ _ _ _ Hw). cbn [negb].
  rewrite (bind_peek_remaining _ _ _ _ Hw). rewrite Hc. reflexivity.
Qed.

(** A branch of one sequence. *)
Lemma parse_regex_branch_loop_single fuel w c r node w1 c2 rest :
  remaining w = c :: r -> ends_expression c = false ->
  parse_regex_sequence_loop fuel empty_tree w = Done (Some node) w1 ->
  remaining w1 = c2 :: rest -> c2 <> REGEX_PARSER_BRANCH_SEPARATOR ->
  parse_regex_branch_loop (S fuel) empty_tree w = Done (Some node) w1.
Proof.
  intros Hw Hc He Hw1 Hc2. unfold ends_expression in Hc.
  apply orb_false_iff in Hc. destruct Hc as [Hc _].
  cbn [parse_regex_branch_loop].
  rewrite (bind_has_more_remaining _ _ _ _ Hw). cbn [negb].
  rewrite (bind_peek_remaining _ _ _ _ Hw). rewrite Hc.
  rewrite (bind_Done_eq _ _ _ _ _ He). cbv beta iota.
  rewrite bind_add_to_empty_tree.
  rewrite (bind_has_more_remaining _ _ _ _ Hw1). cbn [negb].
  rewrite (bind_peek_remaining _ _ _ _ Hw1).
  rewrite (char_eqb_neq _ _ Hc2). reflexivity.
Qed.

(** X24: where [parse_regex_expression] returns a node and stands, after
    white space, at the end of the statement, [parse_regex_statement]
    returns this node, with no sequence or branch node around it, and
    stands behind the end of the statement. *)
Theorem parse_regex_statement_of_one_expression fuel w c r node w1 ws rest :
  remaining w = c :: r ->
  ends_expression c = false ->
  parse_regex_expression fuel w = Done (Some node) w1 ->
  remaining w1 = ws ++ REGEX_PARSER_STATEMENT_END :: rest ->
  Forall (fun x => is_whitespace x = true) ws ->
  parse_regex_statement (S (S (S fuel))) w
  = Done (Some node) (skipped w1 (length ws + 1)).
Proof.
  intros Hw Hc He Hw1 Hws.
  assert (Hend : remaining (skipped w1 (length ws)) = REGEX_PARSER_STATEMENT_END :: rest).
  { rewrite remaining_skipped, Hw1, drop_app_length. reflexivity. }
  assert (Hf : exists f, fuel = S f).
  { destruct fuel as [|f]; [discriminate | eauto]. }
  destruct Hf as [f ->].
  pose proof (parse_regex_loop_plain _ _ _ _ _ _ _ He Hw1 Hws eq_refl
                ltac:(discriminate)) as Hl.
  pose proof (parse_regex_sequence_loop_single _ _ _ _ _ _ _ _ Hw Hc Hl Hend eq_refl eq_refl
                (fun tree => parse_regex_sequence_loop_stops _ tree _ _ _ Hend eq_refl))
    as Hs.
  pose proof (parse_regex_branch_loop_single _ _ _ _ _ _ _ _ Hw Hc Hs Hend
                ltac:(discriminate)) as Hb.
  unfold parse_regex_statement, parse_regex_branch.
  rewrite (bind_Done_eq _ _ _ _ _ Hb). cbv beta iota.
  rewrite (bind_skip_whitespace_none _ _ _ _ Hend eq_refl).
  rewrite (bind_has_more_remaining _ _ _ _ Hend). cbn [negb].
  rewrite (bind_peek_remaining _ _ _ _ Hend). rewrite char_eqb_refl. cbn [negb].
  rewrite (bind_skip_remaining _ _ _ _ Hend). rewrite skipped_skipped. reflexivity.
Qed.

Lemma parse_regex_statement_of_one_expression_witness :
  remaining range_statement_world = "["%char :: ["a"; "-"; "z"; "]"; " "; ";"]%char
  /\ ends_expression "[" = false
  /\ parse_regex_expression 1 range_statement_world
     = Done (Some (Range 97 122)) range_statement_world_after
  /\ remaining range_statement_world_after
     = [" "%char] ++ REGEX_PARSER_STATEMENT_END :: []
  /\ Forall (fun x => is_whitespace x = true) [" "%char]
  /\ parse_regex_statement 4 range_statement_world
     = Done (Some (Range 97 122)) (skipped range_statement_world_after (1 + 1)).
Proof.
  assert (Hw : remaining range_statement_world
               = "["%char :: ["a"; "-"; "z"; "]"; " "; ";"]%char) by reflexivity.
  assert (Hc : ends_expression "[" = false) by reflexivity.
  assert (He : parse_regex_expression 1 range_statement_world
               = Done (Some (Range 97 122)) range_statement_world_after)
    by (vm_compute; reflexivity).
  assert (Hw1 : remaining range_statement_world_after
                = [" "%char] ++ REGEX_PARSER_STATEMENT_END :: []) by reflexivity.
  assert (Hws : Forall (fun x => is_whitespace x = true) [" "%char])
    by (repeat constructor).
  split; [exact Hw|]. split; [exact Hc|]. split; [exact He|]. split; [exact Hw1|].
  split; [exact Hws|].
  exact (parse_regex_statement_of_one_expression 1 range_statement_world _ _ _ _ _ _
           Hw Hc He Hw1 Hws).
Defined.

(** ** Memory that runs out *)

Lemma is_identifier_starts_a_name c :
  is_identifier c = true ->
  is_whitespace c = false
  /\ char_eqb c REGEX_PARSER_COMMENT = false
  /\ char_eqb c REGEX_PARSER_LEXEME = false.
Proof.
  destruct c as [[] [] [] [] [] [] [] []]; vm_compute; intros H;
    first [discriminate | repeat split].
Qed.

Lemma parse_symbol_out_of_memory fuel w nm c rest :
  remaining w = nm ++ c :: rest ->
  nm <> [] ->
  Forall (fun x => is_identifier x = true) nm ->
  is_identifier c = false ->
  length nm + 1 <= MAX_REGEX_SYMBOL_NAME_LENGTH ->
  (forall s, s ∈ symbols w -> name s <> nm) ->
  avail w = 0 ->
  parse_symbol fuel w = Done (-1)%Z (skipped w (length nm)).
Proof.
  intros Hw Hnm Hid Hc Hlen Hnew Ha.
  destruct nm as [|x nm]; [congruence|]. clear Hnm.
  pose proof (Forall_inv Hid) as Hx.
  destruct (is_identifier_starts_a_name x Hx) as (_ & _ & Hlex).
  assert (Hw0 : remaining w = x :: nm ++ c :: rest) by exact Hw.
  unfold parse_symbol.
  rewrite (bind_peek_remaining _ _ _ _ Hw0). cbv zeta. rewrite Hlex.
  unfold bind at 1, ret at 1. unfold bind at 1, parser_pos at 1.
  unfold bind at 1.
  assert (Hle : pos (parser w) <= len (parser w)).
  { apply remaining_lookup, lookup_lt_Some in Hw0. unfold len. lia. }
  rewrite parser_skip_while_eq by exact Hle. fold (remaining w). rewrite Hw.
  rewrite (prefix_len_app_stop is_identifier (x :: nm) (c :: rest) Hid Hc).
  fold (skipped w (length (x :: nm))).
  unfold bind at 1, parser_pos at 1.
  replace (pos (parser (skipped w (length (x :: nm)))) - pos (parser w))
    with (length (x :: nm)) by (simpl; lia).
  assert (Hat : parser_at (parser (skipped w (length (x :: nm)))) (pos (parser w))
                          (length (x :: nm)) = x :: nm).
  { unfold parser_at. change (buf (parser (skipped w (length (x :: nm)))))
      with (buf (parser w)). fold (remaining w). rewrite Hw.
    apply take_app_length. }
  unfold bind at 1, get_or_create_regex_symbol.
  destruct (Nat.ltb_spec MAX_REGEX_SYMBOL_NAME_LENGTH (length (x :: nm) + 1)) as [Hgt|_];
    [lia|].
  unfold bind at 1, get_parser. unfold bind at 1, get_symbols.
  rewrite Hat.
  change (symbols (skipped w (length (x :: nm)))) with (symbols w).
  rewrite (find_regex_symbol_none _ _ 0 Hnew).
  unfold bind, malloc. change (avail (skipped w (length (x :: nm)))) with (avail w).
  rewrite Ha. reflexivity.
Qed.

(** X25: at the name of a symbol that is not in the table, where no
    memory is left for it, [parse_symbol] fails without setting the parser
    error, and [parse_regex_symbols] goes on as after the end of the
    source: with a table whose symbols are all defined it returns this
    table, without the definitions that follow. *)
Theorem parse_regex_symbols_returns_a_cut_table fuel w nm c rest :
  remaining w = nm ++ c :: rest ->
  nm <> [] ->
  Forall (fun x => is_identifier x = true) nm ->
  is_identifier c = false ->
  length nm + 1 <= MAX_REGEX_SYMBOL_NAME_LENGTH ->
  (forall s, s ∈ symbols w -> name s <> nm) ->
  avail w = 0 ->
  error (parser w) = None ->
  check_regex_symbols (symbols w) = AllDefined ->
  (parse_regex_symbols_loop (S fuel) ;;; parse_regex_symbols_finish) w
  = Done (Some (symbols w)) (skipped w (length nm)).
Proof.
  intros Hw Hnm Hid Hc Hlen Hnew Ha He Hall.
  pose proof (parse_symbol_out_of_memory fuel w nm c rest Hw Hnm Hid Hc Hlen Hnew Ha)
    as Hps.
  destruct nm as [|x nm]; [congruence|].
  destruct (is_identifier_starts_a_name x (Forall_inv Hid)) as (Hws & Hcom & _).
  assert (Hw0 : remaining w = x :: nm ++ c :: rest) by exact Hw.
  unfold bind at 1. rewrite parse_regex_symbols_loop_S.
  rewrite (bind_has_more_remaining _ _ _ _ Hw0). cbn [negb].
  rewrite (bind_skip_whitespace_none _ _ _ _ Hw0 Hws).
  rewrite (bind_peek_remaining _ _ _ _ Hw0). rewrite Hcom.
  rewrite (bind_Done_eq _ _ _ _ _ Hps).
  change (negb (-1 =? 0)%Z) with true. cbv iota. unfold ret at 1.
  unfold parse_regex_symbols_finish, bind, get_parser, get_symbols, parser_ok.
  change (error (parser (skipped w (length (x :: nm))))) with (error (parser w)).
  rewrite He. cbn [negb].
  change (symbols (skipped w (length (x :: nm)))) with (symbols w).
  rewrite Hall. reflexivity.
Qed.

Lemma parse_regex_symbols_returns_a_cut_table_witness :
  remaining out_of_memory_world = ["b"%char] ++ " "%char :: [REGEX_PARSER_LITERAL; "y"; REGEX_PARSER_LITERAL; ";"]%char
  /\ ["b"%char] <> []
  /\ Forall (fun x => is_identifier x = true) ["b"%char]
  /\ is_identifier " " = false
  /\ length ["b"%char] + 1 <= MAX_REGEX_SYMBOL_NAME_LENGTH
  /\ (forall s, s ∈ symbols out_of_memory_world -> name s <> ["b"%char])
  /\ avail out_of_memory_world = 0
  /\ error (parser out_of_memory_world) = None
  /\ check_regex_symbols (symbols out_of_memory_world) = AllDefined
  /\ (parse_regex_symbols_loop 1 ;;; parse_regex_symbols_finish) out_of_memory_world
     = Done (Some (symbols out_of_memory_world))
            (skipped out_of_memory_world (length ["b"%char])).
Proof.
  assert (Hw : remaining out_of_memory_world
               = ["b"%char] ++ " "%char :: [REGEX_PARSER_LITERAL; "y"; REGEX_PARSER_LITERAL; ";"]%char)
    by reflexivity.
  assert (Hnm : ["b"%char] <> []) by discriminate.
  assert (Hid : Forall (fun x => is_identifier x = true) ["b"%char])
    by (repeat constructor).
  assert (Hc : is_identifier " " = false) by reflexivity.
  assert (Hlen : length ["b"%char] + 1 <= MAX_REGEX_SYMBOL_NAME_LENGTH)
    by (unfold MAX_REGEX_SYMBOL_NAME_LENGTH; simpl; lia).
  assert (Hnew : forall s, s ∈ symbols out_of_memory_world -> name s <> ["b"%char]).
  { intros s Hs. apply list_elem_of_singleton in Hs. subst s. discriminate. }
  assert (Ha : avail out_of_memory_world = 0) by reflexivity.
  assert (He : error (parser out_of_memory_world) = None) by reflexivity.
  assert (Hall : check_regex_symbols (symbols out_of_memory_world) = AllDefined)
    by reflexivity.
  split; [exact Hw|]. split; [exact Hnm|]. split; [exact Hid|]. split; [exact Hc|].
  split; [exact Hlen|]. split; [exact Hnew|]. split; [exact Ha|]. split; [exact He|].
  split; [exact Hall|].
  exact (parse_regex_symbols_returns_a_cut_table 0 out_of_memory_world _ _ _
           Hw Hnm Hid Hc Hlen Hnew Ha He Hall).
Defined.

(** ** References *)

Lemma bind_pos {B} (k : nat -> M B) w : bind parser_pos k w = k (pos (parser w)) w.
Proof. reflexivity. Qed.

Lemma bind_skip_while_remaining {B} pred (k : unit -> M B) w body tail :
  pos (parser w) <= len (parser w) ->
  remaining w = body ++ tail ->
  Forall (fun x => pred x = true) body ->
  match tail with [] => True | c :: _ => pred c = false end ->
  bind (parser_skip_while pred) k w = k tt (skipped w (length body)).
Proof.
  intros Hle H Hb Ht. unfold bind.
  rewrite parser_skip_while_eq by exact Hle.
  fold (remaining w). rewrite H, (prefix_len_app_stop pred body tail Hb Ht). reflexivity.
Qed.

Lemma parse_regex_reference_run w c0 nm c rest a :
  remaining w = c0 :: nm ++ c :: rest ->
  Forall (fun x => is_identifier x = true) nm ->
  is_identifier c = false ->
  length nm + 1 <= MAX_REGEX_SYMBOL_NAME_LENGTH ->
  avail w = S (S a) ->
  parse_regex_reference w
  = match find_regex_symbol (symbols w) nm 0 with
    | Some i =>
        Done (Some (Reference i))
             (mk_world (advance (parser w) (1 + length nm)) (symbols w) (S a))
    | None =>
        Done (Some (Reference (length (symbols w))))
             (mk_world (advance (parser w) (1 + length nm))
                       (symbols w ++ [mk_symbol nm false None]) a)
    end.
Proof.
  intros Hw Hid Hc Hlen Ha.
  assert (Hw1 : remaining (skipped w 1) = nm ++ c :: rest)
    by (rewrite remaining_skipped, Hw; reflexivity).
  assert (Hmore : exists c1 r1, remaining (skipped w 1) = c1 :: r1).
  { rewrite Hw1. destruct nm; simpl; eauto. }
  destruct Hmore as (c1 & r1 & Hmore).
  assert (Hle : pos (parser (skipped w 1)) <= len (parser (skipped w 1))).
  { apply remaining_lookup, lookup_lt_Some in Hmore. unfold len. lia. }
  set (w2 := skipped w (1 + length nm)).
  assert (Hat : parser_at (parser w2) (pos (parser (skipped w 1))) (length nm) = nm).
  { unfold parser_at. change (buf (parser w2)) with (buf (parser (skipped w 1))).
    fold (remaining (skipped w 1)). rewrite Hw1. apply take_app_length. }
  unfold parse_regex_reference.
  rewrite (bind_skip_remaining _ _ _ _ Hw).
  rewrite (bind_has_more_remaining _ _ _ _ Hmore). cbn [negb].
  rewrite bind_pos.
  rewrite (bind_skip_while_remaining is_identifier _ _ nm (c :: rest) Hle Hw1 Hid Hc).
  rewrite skipped_skipped. fold w2. rewrite bind_pos.
  replace (pos (parser w2) - pos (parser (skipped w 1))) with (length nm)
    by (unfold w2; simpl; lia).
  unfold bind at 1, get_or_create_regex_symbol.
  destruct (Nat.ltb_spec MAX_REGEX_SYMBOL_NAME_LENGTH (length nm + 1)) as [Hgt|_]; [lia|].
  unfold bind at 1, get_parser. unfold bind at 1, get_symbols. rewrite Hat.
  change (symbols w2) with (symbols w).
  destruct (find_regex_symbol (symbols w) nm 0) as [i|] eqn:Ef.
  - unfold ret at 1. unfold bind, create_regex_node, malloc.
    change (avail w2) with (avail w). rewrite Ha. reflexivity.
  - unfold bind, malloc, set_symbols, create_regex_node, malloc, ret.
    change (avail w2) with (avail w). rewrite Ha. cbv beta iota.
    unfold parser_copy_string. rewrite Hat.
    rewrite c_string_id
      by (eapply Forall_impl; [exact Hid|]; intros x Hx; apply is_identifier_not_NUL; exact Hx).
    reflexivity.
Qed.

(** X26: at a reference to the name [nm], with memory for a symbol and a
    node, [parse_regex_reference] returns a reference node to a symbol of
    the table with this name: one that was in the table, or a new one
    without expression behind the others; it stands behind the name and
    sets no error. *)
Theorem parse_regex_reference_names_the_symbol w c0 nm c rest a :
  remaining w = c0 :: nm ++ c :: rest ->
  Forall (fun x => is_identifier x = true) nm ->
  is_identifier c = false ->
  length nm + 1 <= MAX_REGEX_SYMBOL_NAME_LENGTH ->
  avail w = S (S a) ->
  exists i s w',
    parse_regex_reference w = Done (Some (Reference i)) w'
    /\ symbols w' !! i = Some s /\ name s = nm
    /\ (symbols w' = symbols w \/ symbols w' = symbols w ++ [mk_symbol nm false None])
    /\ remaining w' = c :: rest
    /\ error (parser w') = error (parser w).
Proof.
  intros Hw Hid Hc Hlen Ha.
  rewrite (parse_regex_reference_run w c0 nm c rest a Hw Hid Hc Hlen Ha).
  assert (Hrest : forall syms b,
             remaining (mk_world (advance (parser w) (1 + length nm)) syms b) = c :: rest).
  { intros syms b.
    change (remaining (skipped w (1 + length nm)) = c :: rest).
    rewrite remaining_skipped, Hw. simpl. rewrite drop_app_length. reflexivity. }
  destruct (find_regex_symbol (symbols w) nm 0) as [i|] eqn:Ef.
  - destruct (find_regex_symbol_sound _ _ _ _ Ef) as (s & Hs & Hn & _).
    rewrite Nat.sub_0_r in Hs.
    exists i, s. eexists. split; [reflexivity|]. simpl.
    split; [exact Hs|]. split; [exact Hn|]. split; [left; reflexivity|].
    split; [apply Hrest | reflexivity].
  - eexists (length (symbols w)), _, _. split; [reflexivity|]. simpl.
    split; [unfold regex_symbols in *; apply list_lookup_middle; reflexivity|].
    split; [reflexivity|]. split; [right; reflexivity|].
    split; [apply Hrest | reflexivity].
Qed.

Lemma parse_regex_reference_names_the_symbol_witness :
  remaining reference_world = "$"%char :: ["b"%char] ++ ";"%char :: []
  /\ Forall (fun x => is_identifier x = true) ["b"%char]
  /\ is_identifier ";" = false
  /\ length ["b"%char] + 1 <= MAX_REGEX_SYMBOL_NAME_LENGTH
  /\ avail reference_world = 2
  /\ exists i s w',
       parse_regex_reference reference_world = Done (Some (Reference i)) w'
       /\ symbols w' !! i = Some s /\ name s = ["b"%char]
       /\ (symbols w' = symbols reference_world
           \/ symbols w' = symbols reference_world ++ [mk_symbol ["b"%char] false None])
       /\ remaining w' = ";"%char :: []
       /\ error (parser w') = error (parser reference_world).
Proof.
  assert (Hw : remaining reference_world = "$"%char :: ["b"%char] ++ ";"%char :: [])
    by reflexivity.
  assert (Hid : Forall (fun x => is_identifier x = true) ["b"%char])
    by (repeat constructor).
  assert (Hc : is_identifier ";" = false) by reflexivity.
  assert (Hlen : length ["b"%char] + 1 <= MAX_REGEX_SYMBOL_NAME_LENGTH)
    by (unfold MAX_REGEX_SYMBOL_NAME_LENGTH; simpl; lia).
  assert (Ha : avail reference_world = 2) by reflexivity.
  split; [exact Hw|]. split; [exact Hid|]. split; [exact Hc|]. split; [exact Hlen|].
  split; [exact Ha|].
  exact (parse_regex_reference_names_the_symbol reference_world _ _ _ _ 0
           Hw Hid Hc Hlen Ha).
Defined.

(** ** Loops *)

(** X27: where [parse_regex_expression] returns a node and, after white
    space, a loop sign follows, [parse_regex_loop] returns, with memory for
    a node, the loop node of this node and stands behind the loop sign. *)
Theorem parse_regex_loop_wraps_the_expression fuel w node w1 ws rest a :
  parse_regex_expression fuel w = Done (Some node) w1 ->
  remaining w1 = ws ++ REGEX_PARSER_LOOP :: rest ->
  Forall (fun x => is_whitespace x = true) ws ->
  avail w1 = S a ->
  parse_regex_loop (S fuel) w
  = Done (Some (Loop node))
         (mk_world (advance (parser w1) (length ws + 1)) (symbols w1) a).
Proof.
  intros He Hw1 Hws Ha.
  assert (Hend : remaining (skipped w1 (length ws)) = REGEX_PARSER_LOOP :: rest).
  { rewrite remaining_skipped, Hw1, drop_app_length. reflexivity. }
  assert (Hmore : exists c1 r1, remaining w1 = c1 :: r1).
  { destruct ws as [|x ws]; simpl in Hw1; eauto. }
  destruct Hmore as (c1 & r1 & Hmore).
  cbn [parse_regex_loop]. rewrite (bind_Done_eq _ _ _ _ _ He). cbv beta iota.
  rewrite (bind_has_more_remaining _ _ _ _ Hmore). cbn [negb].
  rewrite (bind_skip_whitespace_remaining _ _ _ _ _ Hw1 Hws eq_refl).
  rewrite (bind_peek_remaining _ _ _ _ Hend). rewrite char_eqb_refl.
  rewrite (bind_skip_remaining _ _ _ _ Hend). rewrite skipped_skipped.
  unfold bind, create_regex_node, malloc, skipped. simpl. rewrite Ha. reflexivity.
Qed.

Lemma parse_regex_loop_wraps_the_expression_witness :
  parse_regex_expression 1 loop_world = Done (Some (Range 97 122)) loop_world_after
  /\ remaining loop_world_after = [" "%char] ++ REGEX_PARSER_LOOP :: [";"%char]
  /\ Forall (fun x => is_whitespace x = true) [" "%char]
  /\ avail loop_world_after = 1
  /\ parse_regex_loop 2 loop_world
     = Done (Some (Loop (Range 97 122)))
            (mk_world (advance (parser loop_world_after) (1 + 1))
                      (symbols loop_world_after) 0).
Proof.
  assert (He : parse_regex_expression 1 loop_world
               = Done (Some (Range 97 122)) loop_world_after)
    by (vm_compute; reflexivity).
  assert (Hw1 : remaining loop_world_after
                = [" "%char] ++ REGEX_PARSER_LOOP :: [";"%char]) by reflexivity.
  assert (Hws : Forall (fun x => is_whitespace x = true) [" "%char])
    by (repeat constructor).
  assert (Ha : avail loop_world_after = 1) by reflexivity.
  split; [exact He|]. split; [exact Hw1|]. split; [exact Hws|]. split; [exact Ha|].
  exact (parse_regex_loop_wraps_the_expression 1 loop_world _ _ _ _ 0 He Hw1 Hws Ha).
Defined.

Lemma bind_peek_at_end {B} (k : ascii -> M B) w :
  pos (parser w) = len (parser w) -> bind parser_peek k w = Aborted AssertPosNotLen.
Proof. intros H. unfold bind. rewrite (parser_peek_end _ H). reflexivity. Qed.

(** X28: where [parse_regex_expression] returns a node and only white
    space is left in the buffer, [parse_regex_loop] skips it and then
    reads at the end of the buffer: the assertion of [parser_peek]
    fails. *)
Theorem parse_regex_loop_reads_behind_white_space fuel w node w1 x ws :
  parse_regex_expression fuel w = Done (Some node) w1 ->
  remaining w1 = x :: ws ->
  Forall (fun c => is_whitespace c = true) (x :: ws) ->
  parse_regex_loop (S fuel) w = Aborted AssertPosNotLen.
Proof.
  intros He Hw1 Hws.
  assert (Hlen : length (buf (parser w1)) = pos (parser w1) + length (x :: ws)).
  { pose proof (remaining_lookup _ _ _ Hw1) as Hx. apply lookup_lt_Some in Hx.
    unfold remaining in Hw1. apply (f_equal length) in Hw1.
    rewrite length_drop in Hw1. lia. }
  assert (Hle : pos (parser w1) <= len (parser w1)) by (unfold len; lia).
  cbn [parse_regex_loop]. rewrite (bind_Done_eq _ _ _ _ _ He). cbv beta iota.
  rewrite (bind_has_more_remaining _ _ _ _ Hw1). cbn [negb].
  unfold parser_skip_whitespace.
  rewrite (bind_skip_while_remaining is_whitespace _ _ (x :: ws) [] Hle
             ltac:(rewrite app_nil_r; exact Hw1) Hws I).
  apply bind_peek_at_end. unfold len. simpl. simpl in Hlen. lia.
Qed.

Lemma parse_regex_loop_reads_behind_white_space_witness :
  parse_regex_expression 1 trailing_blank_world
  = Done (Some (Range 97 122)) trailing_blank_world_after
  /\ remaining trailing_blank_world_after = " "%char :: []
  /\ Forall (fun c => is_whitespace c = true) (" "%char :: [])
  /\ parse_regex_loop 2 trailing_blank_world = Aborted AssertPosNotLen.
Proof.
  assert (He : parse_regex_expression 1 trailing_blank_world
               = Done (Some (Range 97 122)) trailing_blank_world_after)
    by (vm_compute; reflexivity).
  assert (Hw1 : remaining trailing_blank_world_after = " "%char :: []) by reflexivity.
  assert (Hws : Forall (fun c => is_whitespace c = true) (" "%char :: []))
    by (repeat constructor).
  split; [exact He|]. split; [exact Hw1|]. split; [exact Hws|].
  exact (parse_regex_loop_reads_behind_white_space 1 trailing_blank_world _ _ _ _
           He Hw1 Hws).
Defined.

(** ** The program *)

(** X29: when the logger starts and [parse_regex_symbols] returns NULL for
    the syntax file, [main] does not return: [read_regex_file] hands the
    NULL to [destroy_regex_symbols], whose assertion fails. *)
Theorem main_stops_when_the_syntax_file_is_rejected env fuel budget source w' :
  start_logger_ok env = true ->
  syntax_file env = Some source ->
  parse_regex_symbols fuel budget source = Done None w' ->
  main env fuel budget = AssertSymbolsNotNull.
Proof.
  intros Hs Hf Hp. unfold main, main_read_regex_file. rewrite Hs, Hf, Hp. simpl.
  destruct (fclose_ok env); reflexivity.
Qed.

Lemma main_stops_when_the_syntax_file_is_rejected_witness :
  start_logger_ok undefined_reference_environment = true
  /\ syntax_file undefined_reference_environment = Some undefined_reference_source
  /\ parse_regex_symbols 20 5 undefined_reference_source
     = Done None (undefined_reference_world 0)
  /\ main undefined_reference_environment 20 5 = AssertSymbolsNotNull.
Proof.
  assert (Hs : start_logger_ok undefined_reference_environment = true) by reflexivity.
  assert (Hf : syntax_file undefined_reference_environment
               = Some undefined_reference_source) by reflexivity.
  assert (Hp : parse_regex_symbols 20 5 undefined_reference_source
               = Done None (undefined_reference_world 0)) by (vm_compute; reflexivity).
  split; [exact Hs|]. split; [exact Hf|]. split; [exact Hp|].
  exact (main_stops_when_the_syntax_file_is_rejected undefined_reference_environment
           20 5 _ _ Hs Hf Hp).
Defined.

(** X30: when [main] returns [EXIT_FAILURE], the logger did not start or
    stop, or the syntax file could not be opened or closed: a syntax file
    that is not accepted never makes [main] return [EXIT_FAILURE]. *)
Theorem main_fails_only_with_the_environment env fuel budget :
  main env fuel budget = Returns EXIT_FAILURE ->
  start_logger_ok env = false \/ syntax_file env = None
  \/ fclose_ok env = false \/ stop_logger_ok env = false.
Proof.
  unfold main, main_read_regex_file.
  destruct (start_logger_ok env); [|auto].
  destruct (syntax_file env) as [source|]; [|auto].
  destruct (fclose_ok env); [|auto].
  destruct (stop_logger_ok env); [|auto].
  simpl. destruct (parse_regex_symbols fuel budget source) as [[syms|] w'|why|];
    simpl; discriminate.
Qed.

Lemma main_fails_only_with_the_environment_witness :
  main fclose_fails_environment 40 12 = Returns EXIT_FAILURE
  /\ (start_logger_ok fclose_fails_environment = false
      \/ syntax_file fclose_fails_environment = None
      \/ fclose_ok fclose_fails_environment = false
      \/ stop_logger_ok fclose_fails_environment = false).
Proof.
  assert (H : main fclose_fails_environment 40 12 = Returns EXIT_FAILURE)
    by (vm_compute; reflexivity).
  split; [exact H|].
  exact (main_fails_only_with_the_environment fclose_fails_environment 40 12 H).
Defined.
